(** * SuperNNova, [scripts/arxiv_1901/rnn.py]: training, windowed inference,
    aggregation.

    A shallow embedding of the functions of [rnn.py] and the properties of
    its specification.  Conventions:

    - finite float values (times, learning rates) are rationals [Q]; where
      the program produces or tests not-a-number or an infinity the value
      type is [float], which adds them with their IEEE comparisons; float
      rounding is not modelled;
    - softmax needs the exponential and is stated over the reals: the
      exact value, which the float32 kernel returns rounded; it is used
      only for statements that hold with a margin;
    - Python objects that the program mutates (dicts, tensor storages) live
      in an object store [heap]; tensors are views onto storages;
    - the neural network, the metrics and the learning-rate scheduler are
      collaborators, given as type classes; the batches of the data
      iterator, the constants of [constants.py] and the SN table are
      parameters of the run. *)

From Stdlib Require Import QArith Qminmax Lqa Reals Lra.
From stdpp Require Import gmap strings list pretty sorting.

Local Open Scope nat_scope.

(** ** Rational comparisons as booleans *)

Definition Qltb (x y : Q) : bool := negb (Qle_bool y x).

(** ** State and failure

    Stateful code threads its state explicitly; a Python exception is
    [None]. *)

Definition M (S A : Type) : Type := S -> option (A * S).

#[global] Instance M_ret {S} : MRet (M S) := fun A x s => Some (x, s).

#[global] Instance M_bind {S} : MBind (M S) := fun A B f m s =>
  match m s with
  | Some (x, s') => f x s'
  | None => None
  end.

Definition raise {S A} : M S A := fun _ => None.

Definition from_option {S A} (o : option A) : M S A := fun s =>
  match o with
  | Some x => Some (x, s)
  | None => None
  end.

(** [for x in l: f x]. *)
Fixpoint for_each {S A} (l : list A) (f : A -> M S unit) : M S unit :=
  match l with
  | [] => mret tt
  | x :: l' => _ ← f x; for_each l' f
  end.

(** * The truncation length (lines 40-44, 336, 357-364) *)

Module Truncation.

(** [np.cumsum(t)]: the elapsed time at each step. *)
Fixpoint cumsum_from (acc : Q) (ts : list Q) : list Q :=
  match ts with
  | [] => []
  | t :: ts' => (acc + t)%Q :: cumsum_from (acc + t)%Q ts'
  end.

Definition cumsum (ts : list Q) : list Q :=
  match ts with
  | [] => []
  | t :: ts' => t :: cumsum_from t ts'
  end.

(** [np.searchsorted(array, value, side="left")] on one key: numpy's
    bisection.  The interval [lo, hi) is halved while it is not empty;
    [array[mid] < value] moves [lo] past [mid], otherwise [hi] drops to
    [mid].  [fuel] bounds the number of halvings. *)
Fixpoint bisect_left (fuel : nat) (array : list Q) (value : Q) (lo hi : nat) : nat :=
  match fuel with
  | O => lo
  | S fuel' =>
      if lo <? hi then
        let mid := lo + Nat.div2 (hi - lo) in
        match array !! mid with
        | Some x =>
            if Qltb x value
            then bisect_left fuel' array value (S mid) hi
            else bisect_left fuel' array value lo mid
        | None => lo
        end
      else lo
  end.

Definition searchsorted_left (array : list Q) (value : Q) : nat :=
  bisect_left (length array) array value 0 (length array).

(** [find_idx] (lines 40-44). *)
Definition find_idx (array : list Q) (value : Q) : nat :=
  let idx := searchsorted_left array value in
  Nat.min idx (length array).

(** One entry of [lengths] (line 358) for an example with time deltas
    [delta_time], reference time [peak_MJD] and the window's [offset]. *)
Definition trunc_length (delta_time : list Q) (peak_MJD : Q) (offset : Z) : nat :=
  find_idx (cumsum delta_time) (peak_MJD + inject_Z offset)%Q.

(** Lines 363-364: the example is in bounds when its length is at least 1. *)
Definition in_bounds (length : nat) : bool := 1 <=? length.

(** The number of leading elements strictly below [value]: what the left
    search returns on a sorted array. *)
Fixpoint count_below (array : list Q) (value : Q) : nat :=
  match array with
  | [] => 0
  | x :: rest => if Qltb x value then S (count_below rest value) else 0
  end.

(** Non-decreasing arrays. *)
Definition nondecreasing (array : list Q) : Prop :=
  forall i j x y, i <= j -> array !! i = Some x -> array !! j = Some y -> (x <= y)%Q.

End Truncation.

(** * Batches in the object store (lines 366-382) *)

Module Store.

Definition loc := nat.

(** One element of a per-step tensor: the channel vector of [X_flux] and
    [X_fluxerr], a float ([X_time]), an integer ([X_flt]) or a boolean
    ([X_mask]). *)
Inductive Cell :=
  | CVec (channels : list Q)
  | CNum (q : Q)
  | CInt (z : Z)
  | CBool (b : bool).

(** The Python scalars assigned to slices: [0] and [False]. *)
Inductive scalar := PyInt (z : Z) | PyBool (b : bool).

Definition scalar_Z (s : scalar) : Z :=
  match s with
  | PyInt z => z
  | PyBool b => if b then 1%Z else 0%Z
  end.

(** Assigning a scalar to an element casts it to the element's dtype and
    broadcasts it over the channels. *)
Definition fill_cell (s : scalar) (c : Cell) : Cell :=
  match c with
  | CVec v => CVec (map (fun _ => inject_Z (scalar_Z s)) v)
  | CNum _ => CNum (inject_Z (scalar_Z s))
  | CInt _ => CInt (scalar_Z s)
  | CBool _ => CBool (negb (Z.eqb (scalar_Z s) 0))
  end.


(** A tensor object is a view onto a storage: the first [ncols] steps of
    every row. *)
Record tref := { storage : loc; ncols : nat }.

(** The values of a batch dict: tensors, and the integer arrays
    [X_SNID] and [X_target], which no code path writes. *)
Inductive value :=
  | VTensor (r : tref)
  | VList (l : list Z).

Inductive obj :=
  | OStorage (rows : list (list Cell))
  | ODict (entries : gmap string value).

Abbreviation heap := (gmap loc obj).

Definition alloc (o : obj) : M heap loc := fun h =>
  let l := fresh (dom h) in Some (l, <[l := o]> h).

(** [d[key]]; a missing key is a [KeyError]. *)
Definition dict_get (d : loc) (key : string) : M heap value := fun h =>
  match h !! d with
  | Some (ODict e) =>
      match e !! key with
      | Some v => Some (v, h)
      | None => None
      end
  | _ => None
  end.

Definition tensor_get (d : loc) (key : string) : M heap tref :=
  v ← dict_get d key;
  match v with
  | VTensor r => mret r
  | VList _ => raise
  end.

(** [d[key] = v]: the dict object is updated in place. *)
Definition dict_set (d : loc) (key : string) (v : value) : M heap unit := fun h =>
  match h !! d with
  | Some (ODict e) => Some (tt, <[d := ODict (<[key := v]> e)]> h)
  | _ => None
  end.

(** [t[:, :m]]: a view onto the same storage. *)
Definition slice_cols (r : tref) (m : nat) : tref :=
  {| storage := storage r; ncols := Nat.min m (ncols r) |}.

Definition fill_row (s : scalar) (start stop : nat) (row : list Cell) : list Cell :=
  imap (fun j c => if (start <=? j) && (j <? stop) then fill_cell s c else c) row.

(** [t[idx, start:] = s]: written through the view into its storage; a
    row index past the end is an [IndexError]. *)
Definition assign_tail (r : tref) (idx start : nat) (s : scalar) : M heap unit := fun h =>
  match h !! storage r with
  | Some (OStorage rows) =>
      match rows !! idx with
      | Some row =>
          Some (tt, <[storage r := OStorage (<[idx := fill_row s start (ncols r) row]> rows)]> h)
      | None => None
      end
  | _ => None
  end.

(** [deepcopy]: every storage reached from the dict is cloned once (the
    memo keeps tensors that share a storage sharing the clone); integer
    arrays are copied by value. *)
Fixpoint copy_entries (es : list (string * value)) (memo : gmap loc loc)
    (acc : gmap string value) : M heap (gmap string value) :=
  match es with
  | [] => mret acc
  | (key, VList l) :: es' => copy_entries es' memo (<[key := VList l]> acc)
  | (key, VTensor r) :: es' =>
      match memo !! storage r with
      | Some l' =>
          copy_entries es' memo
            (<[key := VTensor {| storage := l'; ncols := ncols r |}]> acc)
      | None => fun h =>
          match h !! storage r with
          | Some (OStorage rows) =>
              (l' ← alloc (OStorage rows);
               copy_entries es' (<[storage r := l']> memo)
                 (<[key := VTensor {| storage := l'; ncols := ncols r |}]> acc)) h
          | _ => None
          end
      end
  end.

Definition deepcopy (d : loc) : M heap loc := fun h =>
  match h !! d with
  | Some (ODict e) =>
      (e' ← copy_entries (map_to_list e) ∅ ∅; alloc (ODict e')) h
  | _ => None
  end.

(** The per-step tensors that a window truncates. *)
Definition trunc_keys : list string :=
  ["X_flux"; "X_fluxerr"; "X_time"; "X_flt"; "X_mask"].

(** Lines 379-382: [False] for the mask, [0] for the others. *)
Definition fill_value (key : string) : scalar :=
  if String.eqb key "X_mask" then PyBool false else PyInt 0.

(** Lines 367-382: the truncated batch of one window.  [lengths] holds one
    truncation length per example of the batch. *)
Definition truncate_batch (data : loc) (lengths : list nat) : M heap loc :=
  data_tmp ← deepcopy data;
  let max_length := max_list lengths in
  _ ← for_each trunc_keys (fun key =>
        r ← tensor_get data_tmp key;
        dict_set data_tmp key (VTensor (slice_cols r max_length)));
  _ ← for_each (imap pair lengths) (fun '(idx, length) =>
        let length := Nat.max 1 length in
        for_each trunc_keys (fun key =>
          r ← tensor_get data_tmp key;
          assign_tail r idx length (fill_value key)));
  mret data_tmp.

(** The element of a view at row [n], step [t]. *)
Definition cell_at (h : heap) (r : tref) (n t : nat) : option Cell :=
  match h !! storage r with
  | Some (OStorage rows) =>
      if t <? ncols r then row ← rows !! n; row !! t else None
  | _ => None
  end.

(** The element of a storage at row [n], step [t]. *)
Definition raw_cell (h : heap) (l : loc) (n t : nat) : option Cell :=
  match h !! l with
  | Some (OStorage rows) => row ← rows !! n; row !! t
  | _ => None
  end.

(** What truncation to the length [L] makes of the element at step [t]. *)
Definition truncated_cell (L t : nat) (c : Cell) : Cell :=
  if Nat.max 1 L <=? t then fill_cell (PyInt 0) c else c.

(** [d[key]], read without changing the store. *)
Definition lookup_tensor (h : heap) (d : loc) (key : string) : option tref :=
  fst <$> tensor_get d key h.

(** The tensor seen through a view. *)
Definition read_tensor (h : heap) (r : tref) : option (list (list Cell)) :=
  match h !! storage r with
  | Some (OStorage rows) => Some (take (ncols r) <$> rows)
  | _ => None
  end.

(** Reading a tensor: a [KeyError]-free read of its storage. *)
Definition view (r : tref) : M heap (list (list Cell)) := fun h =>
  (fun t => (t, h)) <$> read_tensor h r.

(** ** Predicates on stores *)

(** The copy lives outside [h0]: the dict [d] and every storage that one of
    its tensors views are objects that [h0] does not have. *)
Definition private (h0 h : heap) (d : loc) : Prop :=
  h0 ⊆ h /\ h0 !! d = None /\
  exists e, h !! d = Some (ODict e) /\
    forall k r, e !! k = Some (VTensor r) -> h0 !! storage r = None.


(** The copy of a tensor views a storage with the rows of the source. *)
Definition copies (h0 : heap) (e : gmap string value) (h : heap)
    (acc : gmap string value) : Prop :=
  forall k r', acc !! k = Some (VTensor r') ->
    exists r, e !! k = Some (VTensor r) /\ ncols r' = ncols r /\
      forall rows, h0 !! storage r = Some (OStorage rows) ->
                   h !! storage r' = Some (OStorage rows).

(** An operation that only reads the store: it leaves it as it is and
    gives the same result on every larger store. *)
Definition reads {A} (m : M heap A) : Prop :=
  forall h x h1, m h = Some (x, h1) ->
    h1 = h /\ forall h', h ⊆ h' -> m h' = Some (x, h').

(** The batch [data_tmp] of the store [h'] is the truncation to [lengths]
    of the batch [data] as the store [h] has it: each per-step tensor is
    the source tensor cut to [max(lengths)] steps, the element of example
    [n] at step [t] being the source element before [max(1, L)] and the
    zero of its dtype from there on. *)
Definition truncation_of (h : heap) (data : loc) (lengths : list nat)
    (h' : heap) (data_tmp : loc) : Prop :=
  forall key r' r rows,
    key ∈ trunc_keys ->
    lookup_tensor h' data_tmp key = Some r' ->
    lookup_tensor h data key = Some r ->
    h !! storage r = Some (OStorage rows) ->
    ncols r' = Nat.min (max_list lengths) (ncols r) /\
    forall n L t, lengths !! n = Some L -> t < ncols r' ->
      cell_at h' r' n t = truncated_cell L t <$> cell_at h r n t.

(** ** Batches that a window can truncate *)




End Store.

(** * Floats with not-a-number and infinities *)

Inductive float :=
  | Fin (q : Q)
  | PInf
  | NInf
  | NaN.

(** IEEE comparison: [None] when an operand is not-a-number. *)
Definition fcompare (a b : float) : option comparison :=
  match a, b with
  | NaN, _ | _, NaN => None
  | Fin x, Fin y => Some (x ?= y)%Q
  | PInf, PInf | NInf, NInf => Some Eq
  | NInf, _ | _, PInf => Some Lt
  | _, NInf | PInf, _ => Some Gt
  end.

Definition flt (a b : float) : bool :=
  match fcompare a b with Some Lt => true | _ => false end.

Definition fle (a b : float) : bool :=
  match fcompare a b with Some Lt | Some Eq => true | _ => false end.

Definition feqb (a b : float) : bool :=
  match fcompare a b with Some Eq => true | _ => false end.

Definition is_nan (a : float) : bool :=
  match a with NaN => true | _ => false end.

Definition is_finite (a : float) : bool :=
  match a with Fin _ => true | _ => false end.

(** Addition and halving, as the median of an even number of values
    needs them. *)
Definition fadd (a b : float) : float :=
  match a, b with
  | NaN, _ | _, NaN => NaN
  | Fin x, Fin y => Fin (x + y)
  | PInf, NInf | NInf, PInf => NaN
  | PInf, _ | _, PInf => PInf
  | NInf, _ | _, NInf => NInf
  end.

Definition fhalf (a : float) : float :=
  match a with
  | Fin x => Fin (x / 2)
  | _ => a
  end.

(** * The inference loop (lines 303-397) *)

Module Inference.
Import Truncation Store.

(** The arrays of [d_pred]: [num_elem x nb_inference_samples x nb_classes]
    floats for the window keys, [num_elem x nb_inference_samples] integers
    for ["target"] and ["SNID"]. *)
Inductive parray :=
  | PFloat (a : list (list (list float)))
  | PInt (a : list (list Z)).

(** What the run depends on besides the batches: the configuration, the
    size of the test split, the constants [OFFSETS] and [OFFSETS_STR] of
    [constants.py], and the [PEAKMJDNORM] column of the SN table. *)
Record Setup := {
  nb_classes : nat;
  nb_inference_samples : nat;
  num_elem : nat;
  OFFSETS : list Z;
  OFFSETS_STR : list string;
  df_SNinfo : gmap Z Q
}.

(** The state of the loop.  [writes] is a ghost log: the slots of [d_pred]
    that were assigned, in order; [draws] counts the forward passes, each
    of which draws fresh randomness. *)
Record State := {
  objs : heap;
  d_pred : gmap string parray;
  writes : list (string * nat * nat);
  draws : nat
}.

Definition lift {A} (m : M heap A) : M State A := fun st =>
  match m (objs st) with
  | Some (x, h') =>
      Some (x, {| objs := h'; d_pred := d_pred st; writes := writes st; draws := draws st |})
  | None => None
  end.

(** The tensors handed to the network. *)
Record ModelInput := {
  in_flux : list (list Cell);
  in_fluxerr : list (list Cell);
  in_flt : list (list Cell);
  in_time : list (list Cell);
  in_mask : list (list Cell);
  in_meta : option (list (list Cell))
}.

(** The network with its weights: [predict x k] is the array of class
    probabilities (one row per example) that the [k]-th forward pass of
    the run returns on the inputs [x]. *)
Class Model := { predict : ModelInput -> nat -> list (list float) }.

Definition read_key (d : loc) (key : string) : M heap (list (list Cell)) :=
  r ← tensor_get d key;
  view r.

(** [data.get("X_meta", None)]. *)
Definition read_optional (d : loc) (key : string) : M heap (option (list (list Cell))) := fun h =>
  match h !! d with
  | Some (ODict e) =>
      match e !! key with
      | Some (VTensor r) => (t ← view r; mret (Some t)) h
      | Some (VList _) => None
      | None => Some (None, h)
      end
  | _ => None
  end.

Definition list_get (d : loc) (key : string) : M heap (list Z) :=
  v ← dict_get d key;
  match v with
  | VList l => mret l
  | VTensor _ => raise
  end.

Definition read_inputs (data : loc) : M heap ModelInput :=
  X_flux ← read_key data "X_flux";
  X_fluxerr ← read_key data "X_fluxerr";
  X_flt ← read_key data "X_flt";
  X_time ← read_key data "X_time";
  X_mask ← read_key data "X_mask";
  X_meta ← read_optional data "X_meta";
  mret {| in_flux := X_flux; in_fluxerr := X_fluxerr; in_flt := X_flt;
          in_time := X_time; in_mask := X_mask; in_meta := X_meta |}.

(** The number of the next forward pass. *)
Definition next_draw : M State nat := fun st =>
  Some (draws st, {| objs := objs st; d_pred := d_pred st;
                     writes := writes st; draws := S (draws st) |}).

(** [forward_pass] (lines 47-69) as the inference loop uses it: the
    probabilities and the targets; the loss is dropped. *)
Definition forward_pass `{Model} (data : loc) : M State (list (list float) * list Z) :=
  x ← lift (read_inputs data);
  X_target ← lift (list_get data "X_target");
  k ← next_draw;
  mret (predict x k, X_target).

(** [data["X_time"]] as an array of floats. *)
Definition cell_num (c : Cell) : option Q :=
  match c with CNum q => Some q | _ => None end.

Definition read_times (data : loc) : M heap (list (list Q)) :=
  X_time ← read_key data "X_time";
  from_option (mapM (mapM cell_num) X_time).

(** [d_pred[col][row, it] = ...]: [new] computes the slot from the old one
    (shape check or broadcasting); the slot is logged. *)
Definition set_slot (col : string) (row it : nat)
    (new : list float -> option (list float)) : M State unit := fun st =>
  match d_pred st !! col with
  | Some (PFloat a) =>
      samples ← a !! row;
      old ← samples !! it;
      v ← new old;
      Some (tt, {| objs := objs st;
                   d_pred := <[col := PFloat (<[row := <[it := v]> samples]> a)]> (d_pred st);
                   writes := writes st ++ [(col, row, it)];
                   draws := draws st |})
  | _ => None
  end.

(** A row of probabilities must have the slot's length. *)
Definition vector (v : list float) (old : list float) : option (list float) :=
  if length v =? length old then Some v else None.

(** A scalar is broadcast over the classes. *)
Definition broadcast (x : float) (old : list float) : option (list float) :=
  Some (replicate (length old) x).

Definition set_int (col : string) (row it : nat) (z : Z) : M State unit := fun st =>
  match d_pred st !! col with
  | Some (PInt a) =>
      samples ← a !! row;
      _ ← samples !! it;
      Some (tt, {| objs := objs st;
                   d_pred := <[col := PInt (<[row := <[it := z]> samples]> a)]> (d_pred st);
                   writes := writes st ++ [(col, row, it)];
                   draws := draws st |})
  | _ => None
  end.

(** [d_pred[col][start_idx:end_idx, it] = arr]: the array must have one
    row per example of the slice. *)
Definition assign_rows (col : string) (start_idx end_idx it : nat)
    (arr : list (list float)) : M State unit :=
  if length arr =? end_idx - start_idx
  then for_each (imap pair arr) (fun '(k, v) => set_slot col (start_idx + k) it (vector v))
  else raise.

Definition assign_ints (col : string) (start_idx end_idx it : nat)
    (arr : list Z) : M State unit :=
  if length arr =? end_idx - start_idx
  then for_each (imap pair arr) (fun '(k, z) => set_int col (start_idx + k) it z)
  else raise.

(** Lines 389-391: the key of an offset's window. *)
Definition window_key (offset : Z) : string :=
  let suffix := if Z.eqb offset 0 then "" else pretty offset in
  let suffix := if Z.ltb 0 offset then "+" +:+ suffix else suffix in
  "PEAKMJD" +:+ suffix.

(** Lines 317-322. *)
Definition pred_keys (cfg : Setup) : list string :=
  "all" :: ((fun s => "PEAKMJD" +:+ s) <$> OFFSETS_STR cfg).

Definition init_d_pred (cfg : Setup) : gmap string parray :=
  let zeros := replicate (num_elem cfg)
                 (replicate (nb_inference_samples cfg) (replicate (nb_classes cfg) (Fin 0))) in
  let ints := replicate (num_elem cfg) (replicate (nb_inference_samples cfg) 0%Z) in
  <["SNID" := PInt ints]>
    (<["target" := PInt ints]>
       (list_to_map ((fun key => (key, PFloat zeros)) <$> pred_keys cfg))).

(** [np.where(cond)[0]]. *)
Definition where_ (cond : nat -> bool) (lengths : list nat) : list nat :=
  omap (fun '(k, x) => if cond x then Some k else None) (imap pair lengths).

Section Loop.
Context `{Model}.
Variable cfg : Setup.

(** Lines 384-395: the samples of one window on the truncated batch. *)
Definition window_samples (data_tmp : loc) (offset : Z) (start_idx : nat)
    (inb_idxs oob_idxs : list nat) : M State unit :=
  for_each (seq 0 (nb_inference_samples cfg)) (fun iter_ =>
    '(arr_preds, _) ← forward_pass data_tmp;
    let col := window_key offset in
    rows ← from_option (mapM (fun k => arr_preds !! k) inb_idxs);
    _ ← for_each (zip inb_idxs rows) (fun '(k, v) =>
          set_slot col (start_idx + k) iter_ (vector v));
    for_each oob_idxs (fun k => set_slot col (start_idx + k) iter_ (broadcast NaN))).

(** Lines 356-395: one offset on one batch. *)
Definition process_offset (data : loc) (times : list (list Q)) (peak_MJDs : list Q)
    (start_idx : nat) (offset : Z) : M State unit :=
  lengths ← from_option
    (mapM (fun '(k, t) => peak ← peak_MJDs !! k;
                          Some (find_idx t (peak + inject_Z offset)%Q))
          (imap pair times));
  let oob_idxs := where_ (fun l => l <? 1) lengths in
  let inb_idxs := where_ (fun l => 1 <=? l) lengths in
  if 0 <? length inb_idxs then
    data_tmp ← lift (truncate_batch data lengths);
    window_samples data_tmp offset start_idx inb_idxs oob_idxs
  else mret tt.

(** Lines 330-397: one batch; returns [end_idx]. *)
Definition process_batch (data : loc) (start_idx : nat) : M State nat :=
  SNIDs ← lift (list_get data "X_SNID");
  delta_times ← lift (read_times data);
  peak_MJDs ← from_option (mapM (fun id => df_SNinfo cfg !! id) SNIDs);
  let times := cumsum <$> delta_times in
  let end_idx := start_idx + length SNIDs in
  _ ← for_each (seq 0 (nb_inference_samples cfg)) (fun iter_ =>
        '(arr_preds, arr_target) ← forward_pass data;
        _ ← assign_rows "all" start_idx end_idx iter_ arr_preds;
        _ ← assign_ints "target" start_idx end_idx iter_ arr_target;
        assign_ints "SNID" start_idx end_idx iter_ SNIDs);
  _ ← for_each (OFFSETS cfg) (process_offset data times peak_MJDs start_idx);
  mret end_idx.

(** Lines 327-397: the batches of the test split, in order. *)
Fixpoint predict_batches (batches : list loc) (start_idx : nat) : M State unit :=
  match batches with
  | [] => mret tt
  | data :: rest =>
      end_idx ← process_batch data start_idx;
      predict_batches rest end_idx
  end.

(** The loop from its initial state: [h] holds the batches that the data
    iterator yields. *)
Definition run_inference (h : heap) (batches : list loc) : option State :=
  snd <$> predict_batches batches 0
            {| objs := h; d_pred := init_d_pred cfg; writes := []; draws := 0 |}.

End Loop.

(** The number of assignments to a slot and its final content. *)
Definition times_written (st : State) (col : string) (row it : nat) : nat :=
  length (filter (fun w => w = (col, row, it)) (writes st)).

Definition slot (st : State) (col : string) (row it : nat) : option (list float) :=
  match d_pred st !! col with
  | Some (PFloat a) => samples ← a !! row; samples !! it
  | _ => None
  end.

(** A step of the loop that keeps every object of the store. *)
Definition advances {A} (m : M State A) : Prop :=
  forall st x st', m st = Some (x, st') -> objs st ⊆ objs st'.

(** ** Reading [d_pred] and the batches *)

(** [d_pred[col][row, it]] of an integer array. *)
Definition int_slot (st : State) (col : string) (row it : nat) : option Z :=
  match d_pred st !! col with
  | Some (PInt a) => samples ← a !! row; samples !! it
  | _ => None
  end.

(** Line 357-359: the lengths of one window, one per example. *)
Definition window_lengths (times : list (list Q)) (peak_MJDs : list Q) (offset : Z)
    : option (list nat) :=
  mapM (fun '(k, t) => peak ← peak_MJDs !! k;
                        Some (find_idx t (peak + inject_Z offset)%Q))
       (imap pair times).

(** The identifiers of the batches, in the order of the data iterator. *)
Definition batch_ids (h : heap) (batches : list loc) : option (list Z) :=
  idss ← mapM (fun data => fst <$> list_get data "X_SNID" h) batches;
  Some (concat idss).

(** The keys that [forward_pass] reads with [data[key]]. *)
Definition required_keys : list string :=
  ["X_flux"; "X_fluxerr"; "X_flt"; "X_time"; "X_mask"; "X_target"].

(** The arrays of [d_pred] have the shapes of lines 317-322. *)
Definition well_shaped (cfg : Setup) (d : gmap string parray) : Prop :=
  forall key arr, d !! key = Some arr ->
    match arr with
    | PFloat a =>
        length a = num_elem cfg /\
        Forall (fun samples =>
                  length samples = nb_inference_samples cfg /\
                  Forall (fun v => length v = nb_classes cfg) samples) a
    | PInt a =>
        length a = num_elem cfg /\
        Forall (fun samples => length samples = nb_inference_samples cfg) a
    end.

(** A step of the loop that keeps a property of [d_pred]. *)
Definition keeps (P : gmap string parray -> Prop) {A} (m : M State A) : Prop :=
  forall st x st', P (d_pred st) -> m st = Some (x, st') -> P (d_pred st').

Section Slots.
Context `{Model}.

(** What a processed window leaves in the slot of example [k] (of length
    [L]) and draw [t], relative to the state [st] before the window:
    the slot was assigned once; it holds not-a-number on every class when
    the example is out of bounds, and the network's row for the example
    on the truncated batch [data_tmp] otherwise. *)
Definition window_slot (data_tmp : loc) (offset : Z) (start_idx : nat) (st st' : State)
    (k L t : nat) : Prop :=
  times_written st' (window_key offset) (start_idx + k) t
    = S (times_written st (window_key offset) (start_idx + k) t) /\
  (L = 0 -> exists old,
     slot st (window_key offset) (start_idx + k) t = Some old /\
     slot st' (window_key offset) (start_idx + k) t = Some (replicate (length old) NaN)) /\
  (1 <= L -> exists x v,
     read_inputs data_tmp (objs st') = Some (x, objs st') /\
     predict x (draws st + t) !! k = Some v /\
     slot st' (window_key offset) (start_idx + k) t = Some v).

(** What the full-light-curve pass leaves in row [start_idx + k], draw
    [t], relative to the state [st] before the batch: the identifier, the
    target and the network's row of example [k]. *)
Definition full_slot (data : loc) (start_idx : nat) (st st' : State)
    (k : nat) (id : Z) (t : nat) : Prop :=
  int_slot st' "SNID" (start_idx + k) t = Some id /\
  (exists targets z,
     list_get data "X_target" (objs st) = Some (targets, objs st) /\
     targets !! k = Some z /\
     int_slot st' "target" (start_idx + k) t = Some z) /\
  (exists x v,
     read_inputs data (objs st) = Some (x, objs st) /\
     predict x (draws st + t) !! k = Some v /\
     slot st' "all" (start_idx + k) t = Some v).

End Slots.

End Inference.

(** * Aggregation and accuracy (lines 399-439) *)

Module Aggregation.
Import Inference.

(** A column of a data frame: [float32] for the class columns, [int64]
    for ["target"] and ["SNID"]. *)
Inductive column :=
  | FloatCol (l : list float)
  | IntCol (l : list Z).

Definition as_floats (c : column) : list float :=
  match c with
  | FloatCol l => l
  | IntCol l => (fun z => Fin (inject_Z z)) <$> l
  end.

(** [value[:, i]]. *)
Definition column_i (rows : list (list float)) (i : nat) : option (list float) :=
  mapM (fun r => r !! i) rows.

(** Lines 401-408: one array of [d_pred], reshaped to
    [num_elem * nb_inference_samples] rows.  The reshape fails on an empty
    array. *)
Definition flatten_entry (cfg : Setup) (key : string) (value : parray)
    : option (list (string * column)) :=
  if num_elem cfg * nb_inference_samples cfg =? 0 then None
  else
    match value with
    | PInt a => Some [(key, IntCol (concat a))]
    | PFloat a =>
        let rows := concat a in
        let value_dim := nb_classes cfg in
        if value_dim =? 0 then None
        else if value_dim =? 1 then
          cells ← column_i rows 0; Some [(key, FloatCol cells)]
        else
          mapM (fun i => cells ← column_i rows i;
                         Some (key +:+ "_class" +:+ pretty i, FloatCol cells))
               (seq 0 value_dim)
    end.

(** Lines 400-409: [df_pred]. *)
Definition flatten (cfg : Setup) (d_pred : gmap string parray) : option (gmap string column) :=
  entries ← mapM (fun '(key, value) => flatten_entry cfg key value) (map_to_list d_pred);
  Some (list_to_map (concat entries)).

(** ** [groupby("SNID")] *)

Definition ids_of (df : gmap string column) : option (list Z) :=
  match df !! "SNID" with
  | Some (IntCol l) => Some l
  | _ => None
  end.

(** The group keys, sorted. *)
Definition group_index (ids : list Z) : list Z :=
  merge_sort Z.le (remove_dups ids).

(** The rows of the group [g]. *)
Definition rows_of_group (ids : list Z) (g : Z) : list nat :=
  omap (fun '(i, id) => if Z.eqb id g then Some i else None) (imap pair ids).

Definition take_rows {A} (rows : list nat) (col : list A) : list A :=
  omap (fun i => col !! i) rows.

(** A grouped frame: its index and its columns, one entry per group. *)
Record Grouped (B : Type) := {
  index : list Z;
  cols : gmap string (list B)
}.
Arguments index {B} _.
Arguments cols {B} _.

Definition groupby_agg {B} (agg : list float -> B) (df : gmap string column)
    : option (Grouped B) :=
  ids ← ids_of df;
  let idx := group_index ids in
  Some {| index := idx;
          cols := (fun c => (fun g => agg (take_rows (rows_of_group ids g) (as_floats c))) <$> idx)
                    <$> delete "SNID" df |}.

(** ** Median and standard deviation of a group *)

Definition not_nan (x : float) : bool := negb (is_nan x).

Fixpoint insert_sorted (x : float) (l : list float) : list float :=
  match l with
  | [] => [x]
  | y :: l' => if fle x y then x :: l else y :: insert_sorted x l'
  end.

Definition sort_floats (l : list float) : list float := foldr insert_sorted [] l.

(** [median()], which skips not-a-number entries. *)
Definition median (xs : list float) : float :=
  let v := sort_floats (List.filter not_nan xs) in
  let n := length v in
  if n =? 0 then NaN
  else if Nat.odd n then default NaN (v !! Nat.div2 n)
  else fhalf (fadd (default NaN (v !! (Nat.div2 n - 1))) (default NaN (v !! Nat.div2 n))).

(** The result of [std()]: not-a-number, or the square root of a
    variance; the root itself is not computed. *)
Inductive deviation :=
  | DevNaN
  | DevSqrt (variance : Q).

Definition is_zero_deviation (d : deviation) : bool :=
  match d with
  | DevSqrt v => Qeq_bool v 0
  | DevNaN => false
  end.

Definition finite_values (xs : list float) : option (list Q) :=
  mapM (fun x => match x with Fin q => Some q | _ => None end) xs.

Definition Qsum (l : list Q) : Q := foldr Qplus 0%Q l.

(** [std()]: the sample standard deviation ([ddof = 1]) of the entries
    that are not not-a-number; fewer than two of them give not-a-number. *)
Definition std (xs : list float) : deviation :=
  let v := List.filter not_nan xs in
  let n := length v in
  if n <=? 1 then DevNaN
  else
    match finite_values v with
    | None => DevNaN
    | Some qs =>
        let mean := (Qsum qs / inject_Z (Z.of_nat n))%Q in
        DevSqrt (Qsum ((fun q => (q - mean) * (q - mean))%Q <$> qs)
                   / inject_Z (Z.of_nat (n - 1)))%Q
    end.

(** Lines 412 and 414. *)
Definition df_median (df : gmap string column) : option (Grouped float) :=
  groupby_agg median df.

Definition df_std (df : gmap string column) : option (Grouped deviation) :=
  groupby_agg std df.

(** C10 as the specification words it: every deviation of the frame is
    exactly zero. *)
Definition deviations_all_zero (g : Grouped deviation) : Prop :=
  forall col values d,
    cols g !! col = Some values -> d ∈ values -> is_zero_deviation d = true.

(** ** Accuracy (lines 422-439) *)

(** [np.argmax]: the first index of the maximum; not-a-number counts as
    the maximum. *)
Fixpoint argmax_from (best_i : nat) (best : float) (i : nat) (v : list float) : nat :=
  match v with
  | [] => best_i
  | x :: v' =>
      if is_nan best then best_i
      else if is_nan x || flt best x then argmax_from i x (S i) v'
      else argmax_from best_i best (S i) v'
  end.

Definition argmax (v : list float) : nat :=
  match v with
  | [] => 0
  | x :: v' => argmax_from 0 x 1 v'
  end.

Definition class_cols (key : string) (K : nat) : list string :=
  (fun i => key +:+ "_class" +:+ pretty i) <$> seq 0 K.

(** [g[names].values]: the rows of a selection of columns. *)
Definition select_rows (g : Grouped float) (names : list string) : option (list (list float)) :=
  columns ← mapM (fun name => cols g !! name) names;
  mapM (fun i => mapM (fun c : list float => c !! i) columns) (seq 0 (length (index g))).

Definition dropna (rows : list (list float)) : list (list float) :=
  List.filter (forallb not_nan) rows.

(** [(preds == target).sum()]. *)
Definition count_equal (preds : list nat) (target : list float) : nat :=
  length (List.filter (fun '(p, t) => feqb (Fin (inject_Z (Z.of_nat p))) t) (zip preds target)).

(** A count divided by a length. *)
Definition ratio (count len : nat) : float :=
  if len =? 0 then (if count =? 0 then NaN else PInf)
  else Fin (inject_Z (Z.of_nat count) / inject_Z (Z.of_nat len))%Q.

(** Lines 423-425: the full-sequence window. *)
Definition full_accuracy (K : nat) (g_pred : Grouped float) : option float :=
  rows ← select_rows g_pred (class_cols "all" K);
  target ← cols g_pred !! "target";
  let preds := argmax <$> rows in
  Some (ratio (count_equal preds target) (length (index g_pred))).

(** Lines 431-437: an offset window [col]. *)
Definition window_accuracy (K : nat) (g_pred : Grouped float) (col : string) : option float :=
  rows ← select_rows g_pred (class_cols col K ++ ["target"]);
  let preds_target := dropna rows in
  let preds := (fun r => argmax (take K r)) <$> preds_target in
  let target := (fun r => default NaN (r !! K)) <$> preds_target in
  Some (ratio (count_equal preds target) (length (index g_pred))).

(** The accuracy of a window as C3 words it: the matches divided by the
    number of identifiers that remain after the sentinel rows are
    dropped. *)
Definition accuracy_over_remaining (K : nat) (g_pred : Grouped float) (col : string)
    : option float :=
  rows ← select_rows g_pred (class_cols col K ++ ["target"]);
  let preds_target := dropna rows in
  let preds := (fun r => argmax (take K r)) <$> preds_target in
  let target := (fun r => default NaN (r !! K)) <$> preds_target in
  Some (ratio (count_equal preds target) (length preds_target)).

(** Per identifier: the [i]-th identifier of the grouped frame counts as
    a match of the window when its row has no not-a-number entry and the
    argmax of its median probabilities equals its target. *)
Definition is_match (K : nat) (row : list float) : bool :=
  forallb not_nan row &&
  feqb (Fin (inject_Z (Z.of_nat (argmax (take K row))))) (default NaN (row !! K)).

(** Lines 399-439 after the loop: the printed accuracies of the windows
    in [windows]. *)
Definition report (cfg : Setup) (st : State) (windows : list string)
    : option (float * list float) :=
  df_pred ← flatten cfg (d_pred st);
  g_pred ← df_median df_pred;
  acc ← full_accuracy (nb_classes cfg) g_pred;
  accs ← mapM (window_accuracy (nb_classes cfg) g_pred) windows;
  Some (acc, accs).

End Aggregation.

(** * The training loop (lines 188-283) *)

Module Training.

(** The collaborators of the loop: the network with its optimizer state
    ([weights]), one pass over the training batches at the current
    learning rate, the validation log-loss of the resulting weights
    ([eval_pass] and [get_evaluation_metrics]), and the learning-rate
    scheduler, which consumes the metric and returns the new rate. *)
Class Trainer := {
  weights : Type;
  sched : Type;
  train_epoch : weights -> Q -> weights;
  val_log_loss : weights -> float;
  scheduler_step : sched -> float -> Q -> sched * Q
}.

Record Config := {
  nb_epoch : nat;
  learning_rate : Q;
  min_lr : Q
}.

(** The state between epochs.  [saved] is the content of [net.pt];
    [epochs_run] and [checkpoints] are ghost: the number of epochs
    executed and the epochs (counted from 1) that wrote [net.pt]. *)
Record TrainState `{Trainer} := {
  net : weights;
  lr : Q;
  plateau : sched;
  best_loss : float;
  saved : option weights;
  epochs_run : nat;
  checkpoints : list nat
}.

Section Loop.
Context `{Trainer}.
Variable cfg : Config.

(** The body of the epoch loop up to the scheduler step (lines 205-280). *)
Definition run_epoch (st : TrainState) : TrainState :=
  let w := train_epoch (net st) (lr st) in
  let loss := val_log_loss w in
  let epoch := S (epochs_run st) in
  let improved := flt loss (best_loss st) in
  let '(plateau', lr') := scheduler_step (plateau st) loss (lr st) in
  {| net := w;
     lr := lr';
     plateau := plateau';
     best_loss := if improved then loss else best_loss st;
     saved := if improved then Some w else saved st;
     epochs_run := epoch;
     checkpoints := if improved then checkpoints st ++ [epoch] else checkpoints st |}.

(** [for epoch in range(nb_epoch)] with the [break] of lines 281-283. *)
Fixpoint train_loop (epochs : nat) (st : TrainState) : TrainState :=
  match epochs with
  | O => st
  | S rest =>
      let st' := run_epoch st in
      if Qle_bool (lr st') (min_lr cfg) then st' else train_loop rest st'
  end.

Definition initial (w0 : weights) (s0 : sched) : TrainState :=
  {| net := w0; lr := learning_rate cfg; plateau := s0; best_loss := PInf;
     saved := None; epochs_run := 0; checkpoints := [] |}.

Definition train (w0 : weights) (s0 : sched) : TrainState :=
  train_loop (nb_epoch cfg) (initial w0 s0).

(** The state after [k] epochs when nothing stops the loop. *)
Definition after_epochs (k : nat) (w0 : weights) (s0 : sched) : TrainState :=
  Nat.iter k run_epoch (initial w0 s0).

(** C4 as the specification words it: an epoch whose validation log-loss
    is not finite is the last epoch of the run and takes no checkpoint. *)
Definition aborts_on_nonfinite_loss (w0 : weights) (s0 : sched) : Prop :=
  forall k, 1 <= k <= epochs_run (train w0 s0) ->
    is_finite (val_log_loss (net (after_epochs k w0 s0))) = false ->
    epochs_run (train w0 s0) = k /\ ~ In k (checkpoints (train w0 s0)).

(** The validation log-loss of epoch [k], counted from 1, when nothing
    stops the loop before. *)
Definition epoch_loss (k : nat) (w0 : weights) (s0 : sched) : float :=
  val_log_loss (net (after_epochs k w0 s0)).

End Loop.

(** ** [ReduceLROnPlateau]

    The scheduler of [torch.optim.lr_scheduler] in mode ["min"] with its
    defaults (relative threshold [1e-4], no cooldown, [eps = 1e-8]). *)

Record Plateau := {
  factor : Q;
  patience : nat;
  floor : Q;
  best : float;
  num_bad_epochs : nat
}.

Definition fscale (c : Q) (a : float) : float :=
  match a with
  | Fin x => Fin (x * c)
  | _ => a
  end.

Definition plateau_step (s : Plateau) (metric : float) (lr : Q) : Plateau * Q :=
  let better := flt metric (fscale (1 - (1 # 10000)) (best s)) in
  let best' := if better then metric else best s in
  let bad := if better then 0 else S (num_bad_epochs s) in
  if patience s <? bad then
    let new_lr := Qmax (lr * factor s) (floor s) in
    ({| factor := factor s; patience := patience s; floor := floor s;
        best := best'; num_bad_epochs := 0 |},
     if Qltb (1 # 100000000) (lr - new_lr) then new_lr else lr)
  else
    ({| factor := factor s; patience := patience s; floor := floor s;
        best := best'; num_bad_epochs := bad |}, lr).

(** Line 188: the scheduler as [train] creates it. *)
Definition new_plateau (lr_factor : Q) (min_lr : Q) (patience : nat) : Plateau :=
  {| factor := lr_factor; patience := patience; floor := min_lr;
     best := PInf; num_bad_epochs := 0 |}.

(** A trainer whose scheduler is [ReduceLROnPlateau], as line 188 sets
    it up, around any network and data. *)
Definition plateau_trainer (W : Type) (step : W -> Q -> W) (loss : W -> float) : Trainer :=
  {| weights := W; sched := Plateau; train_epoch := step; val_log_loss := loss;
     scheduler_step := plateau_step |}.

End Training.

(** * Softmax and the forward pass (lines 47-89) *)

Module Probabilities.

Local Open Scope R_scope.

Definition Rsum (l : list R) : R := fold_right Rplus 0 l.

(** [torch.nn.functional.softmax(x, dim=-1)] on one row, in exact
    arithmetic: the float32 kernel returns this value rounded. *)
Definition softmax (x : list R) : list R :=
  map (fun xi => exp xi / Rsum (map exp x)) x.

(** The network on a batch: its unnormalized scores, one row per example,
    the targets of the batch, and the [kl] attribute of a variational
    model. *)
Class Network (Batch : Type) := {
  scores : Batch -> list (list R);
  targets : Batch -> list nat;
  kl : Batch -> option R
}.

Section Passes.
Context {Batch : Type} `{Network Batch}.

(** [cross_entropy(X_pred, X_target, reduction="none")] on one row. *)
Definition cross_entropy (row : list R) (target : nat) : R :=
  - ln (nth target (softmax row) 1).

Definition mean (l : list R) : R := Rsum l / INR (length l).

(** Lines 47-69. *)
Definition forward_pass (data : Batch) (num_batches : nat) : R * list (list R) * list nat :=
  let X_target := targets data in
  let X_pred := scores data in
  let loss := mean (map (fun '(row, t) => cross_entropy row t) (combine X_pred X_target)) in
  let loss :=
    match kl data with
    | Some k => loss + k / (INR (length X_target) * INR num_batches)
    | None => loss
    end in
  let X_pred := map softmax X_pred in
  (loss, X_pred, X_target).

(** Lines 72-89. *)
Definition eval_pass (data_iterator : list Batch) (n_batches : nat)
    : list nat * list (list R) :=
  let results := map (fun data => forward_pass data n_batches) data_iterator in
  let list_target := map snd results in
  let list_pred := map (fun r => snd (fst r)) results in
  let X_pred := concat list_pred in
  let X_target := concat list_target in
  let X_pred := map softmax X_pred in
  (X_target, X_pred).

(** Lines 207-232: the predictions collected over the training batches. *)
Definition train_predictions (data_iterator : list Batch) (n_batches : nat)
    : list (list R) :=
  concat (map (fun data => snd (fst (forward_pass data n_batches))) data_iterator).

End Passes.

End Probabilities.

(** * The data splits (lines 176-186, 294-297) *)

Module Splits.

(** [df_splits]: the identifiers of the three splits, each labelled with
    its split, train first; this is what [data_splits.csv] holds. *)
Definition df_splits (SNID_train SNID_val SNID_test : list Z) : list (Z * string) :=
  ((fun id => (id, "train")) <$> SNID_train) ++
  ((fun id => (id, "val")) <$> SNID_val) ++
  ((fun id => (id, "test")) <$> SNID_test).

(** [df_splits[df_splits.split == name]["SNID"].values]. *)
Definition split_ids (df : list (Z * string)) (name : string) : list Z :=
  fst <$> List.filter (fun row => String.eqb (snd row) name) df.

End Splits.

(** * Example data *)

Module Examples.
Import Truncation Store Inference Aggregation.

(** The spec's example: time deltas [1, 2, 3]. *)
Definition example_delta_time : list Q := [1; 2; 3]%Q.

(** A tensor on a storage of its own, as the data iterator builds it. *)
Definition new_tensor (rows : list (list Cell)) : M heap value :=
  l ← alloc (OStorage rows);
  mret (VTensor {| storage := l; ncols := max_list (length <$> rows) |}).

Definition new_batch (SNIDs targets : list Z) (flux fluxerr : list (list (list Q)))
    (flt : list (list Z)) (time : list (list Q)) (mask : list (list bool)) : M heap loc :=
  X_flux ← new_tensor (map (map CVec) flux);
  X_fluxerr ← new_tensor (map (map CVec) fluxerr);
  X_flt ← new_tensor (map (map CInt) flt);
  X_time ← new_tensor (map (map CNum) time);
  X_mask ← new_tensor (map (map CBool) mask);
  alloc (ODict (list_to_map
    [("X_flux", X_flux); ("X_fluxerr", X_fluxerr); ("X_flt", X_flt);
     ("X_time", X_time); ("X_mask", X_mask);
     ("X_SNID", VList SNIDs); ("X_target", VList targets)])).

(** A test split of one batch with two light curves of three steps and
    one channel: SNID 7 (peak at 0, elapsed times 1, 3, 6) and SNID 8
    (peak at 3, elapsed times 1, 2, 3), both of class 0. *)
Definition test_batch : option (loc * heap) :=
  new_batch [7; 8]%Z [0; 0]%Z
    [[[1]; [2]; [3]]; [[4]; [5]; [6]]]%Q
    [[[1]; [1]; [1]]; [[1]; [1]; [1]]]%Q
    [[0; 1; 2]; [0; 1; 2]]%Z
    [[1; 2; 3]; [1; 1; 1]]%Q
    [[true; true; true]; [true; true; true]] ∅.

Definition test_data : loc := default 0 (fst <$> test_batch).
Definition test_heap : heap := default ∅ (snd <$> test_batch).

(** A stand-in network that returns the same probabilities for every
    example, whatever the inputs and the draw. *)
Definition constant_model : Model :=
  {| predict x k := (fun _ => [Fin (3 # 4); Fin (1 # 4)]) <$> in_flux x |}.

(** Two classes, two inference samples, offsets -2 to 2. *)
Definition test_setup : Setup :=
  {| nb_classes := 2;
     nb_inference_samples := 2;
     num_elem := 2;
     OFFSETS := [-2; -1; 0; 1; 2]%Z;
     OFFSETS_STR := ["-2"; "-1"; ""; "+1"; "+2"];
     df_SNinfo := {[ 7%Z := 0%Q; 8%Z := 3%Q ]} |}.

Definition test_start : State :=
  {| objs := test_heap; d_pred := init_d_pred test_setup; writes := []; draws := 0 |}.

Definition test_run : option State :=
  @run_inference constant_model test_setup test_heap [test_data].

(** The same split with one inference sample. *)
Definition single_sample_setup : Setup :=
  {| nb_classes := 2;
     nb_inference_samples := 1;
     num_elem := 2;
     OFFSETS := [-2; -1; 0; 1; 2]%Z;
     OFFSETS_STR := ["-2"; "-1"; ""; "+1"; "+2"];
     df_SNinfo := {[ 7%Z := 0%Q; 8%Z := 3%Q ]} |}.

Definition single_sample_run : option State :=
  @run_inference constant_model single_sample_setup test_heap [test_data].

(** The per-identifier medians and deviations of the two example runs. *)
Definition test_g_pred : option (Grouped float) :=
  st ← test_run; df_pred ← flatten test_setup (d_pred st); df_median df_pred.

Definition single_sample_std : option (Grouped deviation) :=
  st ← single_sample_run; df_pred ← flatten single_sample_setup (d_pred st); df_std df_pred.

(** A trainer whose validation losses are scripted: the weights count the
    epochs, the scheduler is [ReduceLROnPlateau]. *)
Definition scripted (losses : nat -> float) : Training.Trainer :=
  {| Training.weights := nat;
     Training.sched := Training.Plateau;
     Training.train_epoch w _ := S w;
     Training.val_log_loss w := losses w;
     Training.scheduler_step := Training.plateau_step |}.

(** A loss that never improves after the first epoch, no patience, factor
    1/2: the rate goes 1, 1/2, 1/4 and meets the floor 1/4 after the
    third epoch. *)
Definition plateau_config : Training.Config :=
  {| Training.nb_epoch := 10; Training.learning_rate := 1; Training.min_lr := 1 # 4 |}.

Definition plateau_run : @Training.TrainState (scripted (fun _ => Fin 1)) :=
  @Training.train (scripted (fun _ => Fin 1)) plateau_config
    0 (Training.new_plateau (1 # 2) (1 # 4) 0).

(** Three epochs whose validation loss is not-a-number, and three whose
    loss is minus infinity. *)
Definition short_config : Training.Config :=
  {| Training.nb_epoch := 3; Training.learning_rate := 1; Training.min_lr := 1 # 4 |}.

Definition nan_run : @Training.TrainState (scripted (fun _ => NaN)) :=
  @Training.train (scripted (fun _ => NaN)) short_config
    0 (Training.new_plateau (1 # 2) (1 # 4) 5).

Definition neg_inf_run : @Training.TrainState (scripted (fun _ => NInf)) :=
  @Training.train (scripted (fun _ => NInf)) short_config
    0 (Training.new_plateau (1 # 2) (1 # 4) 5).

(** A network that scores the one example of every batch [2, 0]. *)
Definition two_zero : Probabilities.Network unit :=
  {| Probabilities.scores _ := [[2; 0]%R];
     Probabilities.targets _ := [0];
     Probabilities.kl _ := None |}.

(** The elapsed times and the reference times of the example batch. *)
Definition test_times : list (list Q) := [[1; 3; 6]; [1; 2; 3]]%Q.
Definition test_peaks : list Q := [0; 3]%Q.

(** A stand-in network for a single class, and the example split with
    [nb_classes = 1]. *)
Definition one_class_model : Model :=
  {| predict x k := (fun _ => [Fin 1]) <$> in_flux x |}.

Definition one_class_setup : Setup :=
  {| nb_classes := 1;
     nb_inference_samples := 2;
     num_elem := 2;
     OFFSETS := [-2; -1; 0; 1; 2]%Z;
     OFFSETS_STR := ["-2"; "-1"; ""; "+1"; "+2"];
     df_SNinfo := {[ 7%Z := 0%Q; 8%Z := 3%Q ]} |}.

Definition one_class_run : option State :=
  @run_inference one_class_model one_class_setup test_heap [test_data].

(** An empty test split. *)
Definition empty_setup : Setup :=
  {| nb_classes := 2;
     nb_inference_samples := 2;
     num_elem := 0;
     OFFSETS := [-2; -1; 0; 1; 2]%Z;
     OFFSETS_STR := ["-2"; "-1"; ""; "+1"; "+2"];
     df_SNinfo := ∅ |}.

End Examples.

(** * Proofs *)

(** ** Rational comparisons *)

Lemma Qltb_lt x y : Qltb x y = true <-> (x < y)%Q.
Proof.
  unfold Qltb. rewrite negb_true_iff, <- not_true_iff_false, Qle_bool_iff.
  split; [apply Qnot_le_lt | apply Qlt_not_le].
Qed.

Lemma Qltb_ge x y : Qltb x y = false <-> (y <= x)%Q.
Proof.
  unfold Qltb. rewrite negb_false_iff. apply Qle_bool_iff.
Qed.

(** ** The left search on sorted arrays *)

Module TruncationFacts.
Import Truncation Examples.

Lemma bisect_left_bounds fuel array value : forall lo hi,
  nondecreasing array -> hi <= length array -> lo <= hi -> hi - lo <= fuel ->
  (forall j x, j < lo -> array !! j = Some x -> (x < value)%Q) ->
  (forall j x, hi <= j -> array !! j = Some x -> (value <= x)%Q) ->
  let r := bisect_left fuel array value lo hi in
  lo <= r <= hi /\
  (forall j x, j < r -> array !! j = Some x -> (x < value)%Q) /\
  (forall j x, r <= j -> array !! j = Some x -> (value <= x)%Q).
Proof.
  induction fuel as [|fuel IH]; intros lo hi Hs Hhi Hlo Hf Hb Ha; simpl.
  - assert (lo = hi) by lia. subst. eauto.
  - destruct (Nat.ltb_spec lo hi) as [Hlt|Hge].
    2:{ assert (lo = hi) by lia. subst. eauto. }
    set (mid := lo + Nat.div2 (hi - lo)).
    assert (Hmid : lo <= mid < hi).
    { assert (Nat.div2 (hi - lo) < hi - lo) by (apply Nat.lt_div2; lia).
      unfold mid. generalize dependent (Nat.div2 (hi - lo)). intros; lia. }
    destruct (array !! mid) as [x|] eqn:Ex.
    2:{ apply lookup_ge_None in Ex. lia. }
    assert (Hsz : mid - lo <= fuel).
    { assert (Nat.div2 (hi - lo) <= fuel) by (apply Nat.div2_decr; lia).
      unfold mid. generalize dependent (Nat.div2 (hi - lo)). intros; lia. }
    clearbody mid.
    destruct (Qltb x value) eqn:Ec.
    + apply Qltb_lt in Ec.
      destruct (IH (S mid) hi) as (Hr & Hl & Hu); try assumption; try lia.
      { intros j y Hj Ey. eapply Qle_lt_trans; [|exact Ec].
        apply (Hs j mid); [lia|assumption|assumption]. }
      split; [lia|]. split; assumption.
    + apply Qltb_ge in Ec.
      destruct (IH lo mid) as (Hr & Hl & Hu); try assumption; try lia.
      { intros j y Hj Ey. eapply Qle_trans; [exact Ec|].
        apply (Hs mid j); [lia|assumption|assumption]. }
      split; [lia|]. split; assumption.
Qed.

Lemma searchsorted_left_spec array value :
  nondecreasing array ->
  let r := searchsorted_left array value in
  r <= length array /\
  (forall j x, j < r -> array !! j = Some x -> (x < value)%Q) /\
  (forall j x, r <= j -> array !! j = Some x -> (value <= x)%Q).
Proof.
  intros Hs. unfold searchsorted_left.
  destruct (bisect_left_bounds (length array) array value 0 (length array))
    as (Hr & Hl & Hu); try assumption; try lia.
  - intros j x Hj Ex. apply lookup_lt_Some in Ex. lia.
  - split; [lia|]. split; assumption.
Qed.

Lemma find_idx_searchsorted array value :
  nondecreasing array -> find_idx array value = searchsorted_left array value.
Proof.
  intros Hs. unfold find_idx.
  destruct (searchsorted_left_spec array value Hs) as (Hr & _). lia.
Qed.

Lemma count_below_spec array value :
  count_below array value <= length array /\
  (forall j x, j < count_below array value -> array !! j = Some x -> (x < value)%Q) /\
  (forall x, array !! count_below array value = Some x -> (value <= x)%Q).
Proof.
  induction array as [|a rest IH]; simpl.
  - split; [lia|]. split; [intros; lia | intros x Ex; discriminate].
  - destruct IH as (Hlen & Hl & Hu).
    destruct (Qltb a value) eqn:Ec.
    + apply Qltb_lt in Ec. split; [lia|]. split.
      * intros [|j] x Hj Ex; simpl in Ex.
        -- injection Ex as <-. exact Ec.
        -- apply (Hl j); [lia | exact Ex].
      * intros x Ex. simpl in Ex. auto.
    + apply Qltb_ge in Ec. split; [lia|]. split.
      * intros; lia.
      * intros x Ex. simpl in Ex. injection Ex as <-. exact Ec.
Qed.

(** On a sorted array the bisection returns the number of elements that
    are strictly below the value. *)
Lemma find_idx_count_below array value :
  nondecreasing array -> find_idx array value = count_below array value.
Proof.
  intros Hs. rewrite find_idx_searchsorted by assumption.
  destruct (searchsorted_left_spec array value Hs) as (Hr & Hl & Hu).
  destruct (count_below_spec array value) as (Hc & Hcl & Hcu).
  destruct (Nat.lt_trichotomy (searchsorted_left array value) (count_below array value))
    as [Hlt | [Heq | Hgt]]; [exfalso | exact Heq | exfalso].
  - destruct (lookup_lt_is_Some_2 array (searchsorted_left array value)) as [x Ex]; [lia|].
    apply (Qlt_irrefl value). eapply Qle_lt_trans.
    + apply (Hu _ x (Nat.le_refl _) Ex).
    + apply (Hcl _ x Hlt Ex).
  - destruct (lookup_lt_is_Some_2 array (count_below array value)) as [x Ex]; [lia|].
    apply (Qlt_irrefl value). eapply Qle_lt_trans.
    + apply (Hcu x Ex).
    + apply (Hl _ x Hgt Ex).
Qed.

Lemma find_idx_monotone array v1 v2 :
  nondecreasing array -> (v1 <= v2)%Q -> find_idx array v1 <= find_idx array v2.
Proof.
  intros Hs Hv. rewrite !find_idx_searchsorted by assumption.
  destruct (searchsorted_left_spec array v1 Hs) as (Hr1 & Hl1 & _).
  destruct (searchsorted_left_spec array v2 Hs) as (Hr2 & _ & Hu2).
  destruct (Nat.le_gt_cases (searchsorted_left array v1) (searchsorted_left array v2))
    as [Hle | Hgt]; [exact Hle | exfalso].
  destruct (lookup_lt_is_Some_2 array (searchsorted_left array v2)) as [x Ex]; [lia|].
  apply (Qlt_irrefl x). eapply Qlt_le_trans.
  - apply (Hl1 _ x Hgt Ex).
  - eapply Qle_trans; [exact Hv|]. apply (Hu2 _ x (Nat.le_refl _) Ex).
Qed.

(** Elapsed times of non-negative deltas are non-decreasing. *)
Lemma cumsum_from_lookup acc ts : forall i x,
  Forall (fun t => (0 <= t)%Q) ts ->
  cumsum_from acc ts !! i = Some x -> (acc <= x)%Q.
Proof.
  revert acc. induction ts as [|t ts IH]; intros acc i x Hpos Ex; [discriminate|].
  inversion Hpos as [|? ? Ht Hts]; subst.
  assert (Hacc : (acc <= acc + t)%Q) by Lqa.lra.
  destruct i as [|i]; simpl in Ex.
  - injection Ex as <-. exact Hacc.
  - eapply Qle_trans; [exact Hacc|]. eapply IH; eassumption.
Qed.

Lemma cumsum_from_nondecreasing ts : forall acc,
  Forall (fun t => (0 <= t)%Q) ts -> nondecreasing (cumsum_from acc ts).
Proof.
  induction ts as [|t ts IH]; intros acc Hpos i j x y Hij Ex Ey; [discriminate|].
  inversion Hpos as [|? ? Ht Hts]; subst.
  destruct i as [|i], j as [|j]; simpl in Ex, Ey; try lia.
  - injection Ex as <-. injection Ey as <-. apply Qle_refl.
  - injection Ex as <-. eapply cumsum_from_lookup; eassumption.
  - eapply (IH (acc + t)%Q Hts i j); [lia | eassumption | eassumption].
Qed.

Lemma cumsum_nondecreasing t ts :
  Forall (fun d => (0 <= d)%Q) ts -> nondecreasing (cumsum (t :: ts)).
Proof.
  intros Hpos i j x y Hij Ex Ey. unfold cumsum in Ex, Ey.
  destruct i as [|i], j as [|j]; simpl in Ex, Ey; try lia.
  - injection Ex as <-. injection Ey as <-. apply Qle_refl.
  - injection Ex as <-. eapply cumsum_from_lookup; eassumption.
  - eapply (cumsum_from_nondecreasing ts t Hpos i j); [lia | eassumption | eassumption].
Qed.

Lemma example_times : cumsum example_delta_time = [1; 3; 6]%Q.
Proof. reflexivity. Qed.

Lemma example_times_nondecreasing : nondecreasing (cumsum example_delta_time).
Proof.
  apply cumsum_nondecreasing. repeat constructor; discriminate.
Qed.

(** C1, as stated: offsets 0, 3, 6, 10, -5 would give lengths 1, 2, 3, 3, 0.
    The left search returns 0, 1, 2 for the first three. *)
Lemma trunc_length_inclusive_refuted :
  ~ (trunc_length example_delta_time 0 0 = 1 /\
     trunc_length example_delta_time 0 3 = 2 /\
     trunc_length example_delta_time 0 6 = 3 /\
     trunc_length example_delta_time 0 10 = 3 /\
     trunc_length example_delta_time 0 (-5) = 0).
Proof.
  intros (H0 & _). vm_compute in H0. discriminate.
Qed.

(** C1, amended: the truncation length is the number of steps whose elapsed
    time is strictly below [reference_time + offset].  On the example the
    offsets 0, 3, 6, 10, -5 give 0, 1, 2, 3, 0; offsets 0 and -5 are out of
    bounds, the others in bounds; and on any non-decreasing elapsed-time
    array a step whose elapsed time equals [reference_time + offset] lies
    outside the kept prefix. *)
Theorem trunc_length_left_search :
  (trunc_length example_delta_time 0 0 = 0 /\
   trunc_length example_delta_time 0 3 = 1 /\
   trunc_length example_delta_time 0 6 = 2 /\
   trunc_length example_delta_time 0 10 = 3 /\
   trunc_length example_delta_time 0 (-5) = 0) /\
  (in_bounds (trunc_length example_delta_time 0 0) = false /\
   in_bounds (trunc_length example_delta_time 0 3) = true /\
   in_bounds (trunc_length example_delta_time 0 6) = true /\
   in_bounds (trunc_length example_delta_time 0 10) = true /\
   in_bounds (trunc_length example_delta_time 0 (-5)) = false) /\
  (forall delta_time peak_MJD offset,
     nondecreasing (cumsum delta_time) ->
     trunc_length delta_time peak_MJD offset
       = count_below (cumsum delta_time) (peak_MJD + inject_Z offset)%Q /\
     forall i t, cumsum delta_time !! i = Some t ->
       (t == peak_MJD + inject_Z offset)%Q ->
       trunc_length delta_time peak_MJD offset <= i).
Proof.
  split; [repeat split; reflexivity|]. split; [repeat split; reflexivity|].
  intros delta_time peak_MJD offset Hs. unfold trunc_length.
  split; [apply find_idx_count_below; exact Hs|].
  intros i t Et Heq. rewrite find_idx_searchsorted by assumption.
  destruct (searchsorted_left_spec (cumsum delta_time) (peak_MJD + inject_Z offset)%Q Hs)
    as (_ & Hl & _).
  apply Nat.le_ngt. intros Hlt. specialize (Hl i t Hlt Et).
  rewrite Heq in Hl. exact (Qlt_irrefl _ Hl).
Qed.

Lemma trunc_length_left_search_witness :
  nondecreasing (cumsum example_delta_time) /\
  cumsum example_delta_time !! 1 = Some 3%Q /\
  trunc_length example_delta_time 0 3 <= 1.
Proof.
  split; [exact example_times_nondecreasing|]. split; [reflexivity|].
  destruct trunc_length_left_search as (_ & _ & H).
  destruct (H example_delta_time 0%Q 3%Z example_times_nondecreasing) as (_ & Hi).
  apply (Hi 1 3%Q); reflexivity.
Defined.

(** C8: for a non-decreasing elapsed-time array the truncation length is
    monotone in the offset. *)
Theorem trunc_length_monotone delta_time peak_MJD (o1 o2 : Z) :
  nondecreasing (cumsum delta_time) ->
  (o1 <= o2)%Z ->
  trunc_length delta_time peak_MJD o1 <= trunc_length delta_time peak_MJD o2.
Proof.
  intros Hs Ho. unfold trunc_length. apply find_idx_monotone; [exact Hs|].
  apply Qplus_le_r. rewrite <- Zle_Qle. exact Ho.
Qed.

Lemma trunc_length_monotone_witness :
  nondecreasing (cumsum example_delta_time) /\
  (0 <= 3)%Z /\
  trunc_length example_delta_time 0 0 <= trunc_length example_delta_time 0 3.
Proof.
  split; [exact example_times_nondecreasing|]. split; [lia|].
  apply (trunc_length_monotone example_delta_time 0%Q 0%Z 3%Z);
    [exact example_times_nondecreasing | lia].
Defined.

End TruncationFacts.

(** ** Sequencing and loops *)

Lemma bind_Some {S A B} (m : M S A) (f : A -> M S B) (h : S) y h' :
  (m ≫= f) h = Some (y, h') ->
  exists x h1, m h = Some (x, h1) /\ f x h1 = Some (y, h').
Proof.
  unfold mbind, M_bind. destruct (m h) as [[x h1]|]; [|discriminate].
  intros H. exists x, h1. split; [reflexivity | exact H].
Qed.

Lemma ret_Some {S A} (x y : A) (h h' : S) :
  (mret x : M S A) h = Some (y, h') -> y = x /\ h' = h.
Proof. unfold mret, M_ret. intros [= <- <-]. split; reflexivity. Qed.

(** An invariant kept by every step of a loop is kept by the loop. *)
Lemma for_each_invariant {S A} (f : A -> M S unit) (I : S -> Prop) (l : list A) :
  (forall x h h', x ∈ l -> I h -> f x h = Some (tt, h') -> I h') ->
  forall h h', I h -> for_each l f h = Some (tt, h') -> I h'.
Proof.
  induction l as [|x l IH]; intros Hstep h h' HI Hrun; simpl in Hrun.
  - apply ret_Some in Hrun as [_ ->]. exact HI.
  - apply bind_Some in Hrun as ([] & h1 & Hx & Hrest).
    apply (IH (fun y h2 h3 Hy => Hstep y h2 h3 (list_elem_of_further _ _ _ Hy)) h1 h');
      [|exact Hrest].
    apply (Hstep x h h1); [left | exact HI | exact Hx].
Qed.

(** A property established by the step at [x] and kept by every step holds
    after the loop. *)
Lemma for_each_establish {S A} (f : A -> M S unit) (I Q : S -> Prop) (l : list A) x :
  x ∈ l ->
  (forall y h h', y ∈ l -> I h -> f y h = Some (tt, h') -> I h') ->
  (forall h h', I h -> f x h = Some (tt, h') -> Q h') ->
  (forall y h h', y ∈ l -> I h -> Q h -> f y h = Some (tt, h') -> Q h') ->
  forall h h', I h -> for_each l f h = Some (tt, h') -> Q h'.
Proof.
  induction l as [|y l IH]; intros Hx HI Hest Hkeep h h' Hh Hrun.
  - inversion Hx.
  - simpl in Hrun. apply bind_Some in Hrun as ([] & h1 & Hy & Hrest).
    assert (HI1 : I h1) by (apply (HI y h h1); [left | exact Hh | exact Hy]).
    apply elem_of_cons in Hx as [-> | Hx].
    + assert (HQ1 : Q h1) by (apply (Hest h h1); assumption).
      enough (I h' /\ Q h') as [_ HQ] by exact HQ.
      apply (for_each_invariant f (fun h2 => I h2 /\ Q h2) l) with (h := h1);
        [|split; assumption|exact Hrest].
      intros z h2 h3 Hz [HI2 HQ2] Hstep. split.
      * apply (HI z h2 h3); [right; exact Hz | exact HI2 | exact Hstep].
      * apply (Hkeep z h2 h3); [right; exact Hz | exact HI2 | exact HQ2 | exact Hstep].
    + apply (IH Hx) with (h := h1); try assumption.
      * intros z h2 h3 Hz. apply HI. right; exact Hz.
      * intros z h2 h3 Hz. apply Hkeep. right; exact Hz.
Qed.

Lemma option_match_inv {A} (o : option A) (P : A -> Prop) :
  match o with Some x => P x | None => False end -> exists x, o = Some x /\ P x.
Proof. destruct o as [x|]; [eauto | contradiction]. Qed.

(** ** The truncated batch in the object store *)

Module StoreFacts.
Import Store.

Lemma alloc_Some o h l h' :
  alloc o h = Some (l, h') -> h !! l = None /\ h' = <[l := o]> h.
Proof.
  unfold alloc. intros [= <- <-]. split; [|reflexivity].
  apply not_elem_of_dom, is_fresh.
Qed.

Lemma dict_get_Some d key h v h' :
  dict_get d key h = Some (v, h') ->
  h' = h /\ exists e, h !! d = Some (ODict e) /\ e !! key = Some v.
Proof.
  unfold dict_get. destruct (h !! d) as [[rows|e]|]; try discriminate.
  destruct (e !! key) as [v'|] eqn:Ek; [|discriminate].
  intros [= <- <-]. split; [reflexivity|]. exists e. split; [reflexivity | exact Ek].
Qed.

Lemma tensor_get_Some d key h r h' :
  tensor_get d key h = Some (r, h') ->
  h' = h /\ exists e, h !! d = Some (ODict e) /\ e !! key = Some (VTensor r).
Proof.
  unfold tensor_get. intros H. apply bind_Some in H as (v & h1 & Hget & Hv).
  apply dict_get_Some in Hget as (-> & e & Hd & Hk).
  destruct v as [r'|l]; [|discriminate].
  apply ret_Some in Hv as [-> ->]. split; [reflexivity|]. exists e. split; assumption.
Qed.

Lemma dict_set_Some d key v h u h' :
  dict_set d key v h = Some (u, h') ->
  exists e, h !! d = Some (ODict e) /\ h' = <[d := ODict (<[key := v]> e)]> h.
Proof.
  unfold dict_set. destruct (h !! d) as [[rows|e]|]; try discriminate.
  destruct u. intros [= <-]. exists e. split; reflexivity.
Qed.

Lemma assign_tail_Some r idx start s h u h' :
  assign_tail r idx start s h = Some (u, h') ->
  exists rows row, h !! storage r = Some (OStorage rows) /\ rows !! idx = Some row /\
    h' = <[storage r := OStorage (<[idx := fill_row s start (ncols r) row]> rows)]> h.
Proof.
  unfold assign_tail. destruct (h !! storage r) as [[rows|e]|]; try discriminate.
  destruct (rows !! idx) as [row|] eqn:Er; [|discriminate].
  destruct u. intros [= <-]. exists rows, row. repeat split; assumption.
Qed.

(** *** Frame: the objects that exist before a window are not written *)

Lemma extend_fresh (h0 h : heap) l o :
  h0 ⊆ h -> h !! l = None -> h0 ⊆ <[l := o]> h /\ h0 !! l = None.
Proof.
  intros Hsub Hl.
  assert (H0 : h0 !! l = None).
  { destruct (h0 !! l) as [o'|] eqn:E; [|reflexivity].
    pose proof (lookup_weaken _ _ _ _ E Hsub) as E'. congruence. }
  split; [|exact H0]. apply insert_subseteq_r; assumption.
Qed.

Lemma copy_entries_private h0 es : forall memo acc h e' h',
  h0 ⊆ h ->
  (forall l l', memo !! l = Some l' -> h0 !! l' = None) ->
  (forall k r, acc !! k = Some (VTensor r) -> h0 !! storage r = None) ->
  copy_entries es memo acc h = Some (e', h') ->
  h0 ⊆ h' /\ forall k r, e' !! k = Some (VTensor r) -> h0 !! storage r = None.
Proof.
  induction es as [|[key v] es IH]; intros memo acc h e' h' Hsub Hmemo Hacc Hrun;
    simpl in Hrun.
  - apply ret_Some in Hrun as [-> ->]. split; assumption.
  - destruct v as [r|l].
    + destruct (memo !! storage r) as [l'|] eqn:Em.
      * apply (IH _ _ _ _ _ Hsub Hmemo) in Hrun; [exact Hrun|].
        intros k r' Hk. destruct (decide (key = k)) as [->|Hne].
        -- rewrite lookup_insert_eq in Hk. injection Hk as <-. simpl. eauto.
        -- rewrite lookup_insert_ne in Hk by exact Hne. eauto.
      * destruct (h !! storage r) as [[rows|e]|] eqn:Es; try discriminate.
        apply bind_Some in Hrun as (l' & h1 & Hal & Hrun).
        apply alloc_Some in Hal as [Hfresh ->].
        destruct (extend_fresh h0 h l' (OStorage rows) Hsub Hfresh) as [Hsub1 Hl'].
        apply (IH _ _ _ _ _ Hsub1) in Hrun; [exact Hrun| |].
        -- intros l1 l2 Hl. destruct (decide (storage r = l1)) as [<-|Hne].
           ++ rewrite lookup_insert_eq in Hl. injection Hl as <-. exact Hl'.
           ++ rewrite lookup_insert_ne in Hl by exact Hne. eauto.
        -- intros k r' Hk. destruct (decide (key = k)) as [->|Hne].
           ++ rewrite lookup_insert_eq in Hk. injection Hk as <-. exact Hl'.
           ++ rewrite lookup_insert_ne in Hk by exact Hne. eauto.
    + apply (IH _ _ _ _ _ Hsub Hmemo) in Hrun; [exact Hrun|].
      intros k r' Hk. destruct (decide (key = k)) as [->|Hne].
      * rewrite lookup_insert_eq in Hk. discriminate.
      * rewrite lookup_insert_ne in Hk by exact Hne. eauto.
Qed.

Lemma deepcopy_private h0 d d' h' :
  deepcopy d h0 = Some (d', h') -> private h0 h' d'.
Proof.
  unfold deepcopy. destruct (h0 !! d) as [[rows|e]|]; try discriminate.
  intros Hrun. apply bind_Some in Hrun as (e' & h1 & Hcopy & Hal).
  apply (copy_entries_private h0) in Hcopy as [Hsub He'];
    [|reflexivity|intros l l' H; rewrite lookup_empty in H; discriminate
     |intros k r H; rewrite lookup_empty in H; discriminate].
  apply alloc_Some in Hal as [Hfresh ->].
  destruct (extend_fresh h0 h1 d' (ODict e') Hsub Hfresh) as [Hsub' Hd'].
  split; [exact Hsub'|]. split; [exact Hd'|].
  exists e'. split; [apply lookup_insert_eq | exact He'].
Qed.

Lemma slice_step_private h0 d m key h h' :
  private h0 h d ->
  (r ← tensor_get d key; dict_set d key (VTensor (slice_cols r m))) h = Some (tt, h') ->
  private h0 h' d.
Proof.
  intros (Hsub & Hd & e & He & Hpriv) Hrun.
  apply bind_Some in Hrun as (r & h1 & Hget & Hset).
  apply tensor_get_Some in Hget as (-> & e1 & He1 & Hk).
  apply dict_set_Some in Hset as (e2 & He2 & ->).
  rewrite He in He1, He2. injection He1 as <-. injection He2 as <-.
  split; [apply insert_subseteq_r; assumption|]. split; [exact Hd|].
  eexists. split; [apply lookup_insert_eq|].
  intros k r' Hk'. destruct (decide (key = k)) as [->|Hne].
  - rewrite lookup_insert_eq in Hk'. injection Hk' as <-. simpl. eauto.
  - rewrite lookup_insert_ne in Hk' by exact Hne. eauto.
Qed.

Lemma fill_step_private h0 d idx start key h h' :
  private h0 h d ->
  (r ← tensor_get d key; assign_tail r idx start (fill_value key)) h = Some (tt, h') ->
  private h0 h' d.
Proof.
  intros (Hsub & Hd & e & He & Hpriv) Hrun.
  apply bind_Some in Hrun as (r & h1 & Hget & Hset).
  apply tensor_get_Some in Hget as (-> & e1 & He1 & Hk).
  apply assign_tail_Some in Hset as (rows & row & Hrows & Hrow & ->).
  rewrite He in He1. injection He1 as <-.
  split; [apply insert_subseteq_r; eauto|]. split; [exact Hd|].
  exists e. split; [|exact Hpriv].
  rewrite lookup_insert_ne; [exact He|]. intros Heq. rewrite Heq in Hrows. congruence.
Qed.

Lemma slices_private h0 d m h h' :
  private h0 h d ->
  for_each trunc_keys (fun key =>
    r ← tensor_get d key;
    dict_set d key (VTensor (slice_cols r m))) h = Some (tt, h') ->
  private h0 h' d.
Proof.
  intros Hp Hrun. refine (for_each_invariant _ (fun h => private h0 h d) _ _ _ _ Hp Hrun).
  intros key h1 h2 _ Hp1 Hstep. eapply slice_step_private; eassumption.
Qed.

Lemma truncate_batch_private data lengths h0 data_tmp h' :
  truncate_batch data lengths h0 = Some (data_tmp, h') -> private h0 h' data_tmp.
Proof.
  unfold truncate_batch. intros Hrun.
  apply bind_Some in Hrun as (d & h1 & Hcopy & Hrun).
  apply bind_Some in Hrun as ([] & h2 & Hslice & Hrun).
  apply bind_Some in Hrun as ([] & h3 & Hfill & Hret).
  apply ret_Some in Hret as [-> ->].
  apply deepcopy_private in Hcopy.
  pose proof (slices_private _ _ _ _ _ Hcopy Hslice) as H2.
  refine (for_each_invariant _ (fun h => private h0 h d) _ _ _ _ H2 Hfill).
  intros [idx len] h h' _ Hp Hstep.
  refine (for_each_invariant _ (fun h => private h0 h d) _ _ _ _ Hp Hstep).
  intros key h4 h5 _ Hp4 Hstep4. eapply fill_step_private; eassumption.
Qed.

(** *** Masking: what lies past the truncation length is zeroed *)


Lemma fill_value_zero key : scalar_Z (fill_value key) = 0%Z.
Proof. unfold fill_value. destruct (String.eqb key "X_mask"); reflexivity. Qed.

Lemma fill_row_lookup s start stop row t :
  fill_row s start stop row !! t =
  (fun c => if (start <=? t) && (t <? stop) then fill_cell s c else c) <$> row !! t.
Proof. unfold fill_row. apply list_lookup_imap. Qed.



Lemma assign_tail_dict r idx start s h h' d e :
  assign_tail r idx start s h = Some (tt, h') ->
  h !! d = Some (ODict e) -> h' !! d = Some (ODict e).
Proof.
  intros Hrun Hd. apply assign_tail_Some in Hrun as (rows & row & Hrows & _ & ->).
  rewrite lookup_insert_ne; [exact Hd|]. intros Heq. rewrite Heq in Hrows. congruence.
Qed.

(** The zeroing loops (lines 373-382) on a batch whose dict is [e]. *)
Lemma fill_step_dict d e idx len k h1 h2 :
  h1 !! d = Some (ODict e) ->
  (r ← tensor_get d k; assign_tail r idx len (fill_value k)) h1 = Some (tt, h2) ->
  h2 !! d = Some (ODict e) /\
  exists r, e !! k = Some (VTensor r) /\ assign_tail r idx len (fill_value k) h1 = Some (tt, h2).
Proof.
  intros HI Hs.
  apply bind_Some in Hs as (r' & h1' & Hget & Hset).
  apply tensor_get_Some in Hget as (-> & e' & He' & Hk).
  rewrite HI in He'. injection He' as <-.
  split; [eapply assign_tail_dict; eassumption|]. exists r'. split; assumption.
Qed.

Lemma fill_keys_dict d e idx len h1 h2 :
  h1 !! d = Some (ODict e) ->
  for_each trunc_keys (fun k =>
    r ← tensor_get d k; assign_tail r idx len (fill_value k)) h1 = Some (tt, h2) ->
  h2 !! d = Some (ODict e).
Proof.
  intros HI Hs.
  refine (for_each_invariant _ (fun h => h !! d = Some (ODict e)) _ _ _ _ HI Hs).
  intros k h3 h4 _ HI3 Hs3. apply (fill_step_dict d e idx len k h3 h4 HI3 Hs3).
Qed.

Lemma fill_loops_dict d e lengths h h' :
  h !! d = Some (ODict e) ->
  for_each (imap pair lengths) (fun '(idx, length) =>
    let length := Nat.max 1 length in
    for_each trunc_keys (fun key =>
      r ← tensor_get d key;
      assign_tail r idx length (fill_value key))) h = Some (tt, h') ->
  h' !! d = Some (ODict e).
Proof.
  intros Hd Hrun.
  refine (for_each_invariant _ (fun h => h !! d = Some (ODict e)) _ _ _ _ Hd Hrun).
  intros [idx len] h1 h2 _ HI1 Hs. eapply fill_keys_dict; eassumption.
Qed.





(** *** The content of the truncated batch *)

Lemma cell_at_raw h r n t :
  cell_at h r n t = if t <? ncols r then raw_cell h (storage r) n t else None.
Proof.
  unfold cell_at, raw_cell. destruct (h !! storage r) as [[rows|e]|]; try reflexivity;
    destruct (t <? ncols r); reflexivity.
Qed.

Lemma fill_cell_zero_eq s c : scalar_Z s = 0%Z -> fill_cell s c = fill_cell (PyInt 0) c.
Proof. intros Hs. destruct c; simpl; rewrite Hs; reflexivity. Qed.

Lemma fill_cell_idem c :
  fill_cell (PyInt 0) (fill_cell (PyInt 0) c) = fill_cell (PyInt 0) c.
Proof.
  destruct c as [v|q|z|b]; simpl; try reflexivity. f_equal.
  induction v as [|q v IH]; [reflexivity|]. simpl. f_equal. exact IH.
Qed.

(** One assignment, element by element. *)
Lemma assign_tail_raw r idx start s h h' l n t :
  assign_tail r idx start s h = Some (tt, h') -> scalar_Z s = 0%Z ->
  raw_cell h' l n t =
    (if decide (l = storage r /\ n = idx /\ start <= t < ncols r)
     then fill_cell (PyInt 0) <$> raw_cell h l n t
     else raw_cell h l n t).
Proof.
  intros Hrun Hs.
  apply assign_tail_Some in Hrun as (rows & row & Hrows & Hrow & ->).
  unfold raw_cell.
  destruct (decide (l = storage r)) as [->|Hl].
  2:{ rewrite lookup_insert_ne by congruence.
      destruct (decide _) as [(? & _)|]; [congruence | reflexivity]. }
  rewrite lookup_insert_eq, Hrows.
  destruct (decide (n = idx)) as [->|Hn].
  2:{ rewrite list_lookup_insert_ne by congruence.
      destruct (decide _) as [(_ & ? & _)|]; [congruence | reflexivity]. }
  rewrite list_lookup_insert_eq by (eapply lookup_lt_Some; eassumption).
  rewrite Hrow. simpl. rewrite fill_row_lookup.
  destruct (row !! t) as [c|]; simpl.
  2:{ destruct (decide _); reflexivity. }
  destruct (decide _) as [(_ & _ & Hlo & Hhi)|Hno].
  - apply Nat.leb_le in Hlo. apply Nat.ltb_lt in Hhi. rewrite Hlo, Hhi. simpl.
    f_equal. apply fill_cell_zero_eq, Hs.
  - destruct (Nat.leb_spec start t); destruct (Nat.ltb_spec t (ncols r)); simpl;
      try reflexivity.
    exfalso. apply Hno. repeat split; assumption.
Qed.

Lemma zero_twice (o : option Cell) :
  fill_cell (PyInt 0) <$> (fill_cell (PyInt 0) <$> o) = fill_cell (PyInt 0) <$> o.
Proof. destruct o as [c|]; [|reflexivity]. simpl. f_equal. apply fill_cell_idem. Qed.

(** The keys of one example, relative to the store [h1] before them. *)
Lemma fill_keys_raw d e idx len h1 h2 l n t :
  h1 !! d = Some (ODict e) ->
  for_each trunc_keys (fun k =>
    r ← tensor_get d k; assign_tail r idx len (fill_value k)) h1 = Some (tt, h2) ->
  (raw_cell h2 l n t = raw_cell h1 l n t \/
   raw_cell h2 l n t = fill_cell (PyInt 0) <$> raw_cell h1 l n t) /\
  (n <> idx \/ t < len -> raw_cell h2 l n t = raw_cell h1 l n t) /\
  (forall key r, key ∈ trunc_keys -> e !! key = Some (VTensor r) -> l = storage r ->
     n = idx -> len <= t < ncols r ->
     raw_cell h2 l n t = fill_cell (PyInt 0) <$> raw_cell h1 l n t).
Proof.
  intros Hd Hrun.
  set (I := fun h : heap =>
    h !! d = Some (ODict e) /\
    (raw_cell h l n t = raw_cell h1 l n t \/
     raw_cell h l n t = fill_cell (PyInt 0) <$> raw_cell h1 l n t) /\
    (n <> idx \/ t < len -> raw_cell h l n t = raw_cell h1 l n t)).
  assert (HI1 : I h1) by (split; [exact Hd|]; split; [left|]; reflexivity).
  assert (Hstep : forall k h3 h4, I h3 ->
    (r ← tensor_get d k; assign_tail r idx len (fill_value k)) h3 = Some (tt, h4) ->
    I h4 /\
    (raw_cell h3 l n t = fill_cell (PyInt 0) <$> raw_cell h1 l n t ->
     raw_cell h4 l n t = fill_cell (PyInt 0) <$> raw_cell h1 l n t) /\
    (forall r, e !! k = Some (VTensor r) -> l = storage r -> n = idx ->
       len <= t < ncols r ->
       raw_cell h4 l n t = fill_cell (PyInt 0) <$> raw_cell h1 l n t)).
  { intros k h3 h4 (Hd3 & Heither & Hsame) Hs.
    destruct (fill_step_dict d e idx len k h3 h4 Hd3 Hs) as (Hd4 & r & Hr & Hset).
    pose proof (assign_tail_raw r idx len _ h3 h4 l n t Hset (fill_value_zero k)) as Hraw.
    split; [split; [exact Hd4|]; split|split].
    - destruct (decide _); rewrite Hraw; [|exact Heither].
      right. destruct Heither as [-> | ->]; [reflexivity | apply zero_twice].
    - intros Hfar. destruct (decide _) as [(_ & ? & ? & _)|];
        [exfalso; destruct Hfar; [congruence | lia] | rewrite Hraw; apply Hsame, Hfar].
    - intros H3. rewrite Hraw. destruct (decide _); rewrite H3; [apply zero_twice | reflexivity].
    - intros r' Hr' -> -> Ht. rewrite Hr in Hr'. injection Hr' as ->.
      rewrite Hraw. destruct (decide _) as [_|Hno].
      + destruct Heither as [-> | ->]; [reflexivity | apply zero_twice].
      + exfalso. apply Hno. repeat split; lia. }
  split; [|split].
  - refine (proj1 (proj2 (for_each_invariant _ I _ _ _ _ HI1 Hrun))).
    intros k h3 h4 _ HI3 Hs. apply (Hstep k h3 h4 HI3 Hs).
  - refine (proj2 (proj2 (for_each_invariant _ I _ _ _ _ HI1 Hrun))).
    intros k h3 h4 _ HI3 Hs. apply (Hstep k h3 h4 HI3 Hs).
  - intros key r Hkey Hr Hl Hn Ht.
    refine (for_each_establish _ I
      (fun h => raw_cell h l n t = fill_cell (PyInt 0) <$> raw_cell h1 l n t)
      _ key Hkey _ _ _ _ _ HI1 Hrun).
    + intros k h3 h4 _ HI3 Hs. apply (Hstep k h3 h4 HI3 Hs).
    + intros h3 h4 HI3 Hs.
      destruct (Hstep key h3 h4 HI3 Hs) as (_ & _ & H3). apply (H3 r); assumption.
    + intros k h3 h4 _ HI3 HQ3 Hs.
      destruct (Hstep k h3 h4 HI3 Hs) as (_ & H2 & _). apply H2, HQ3.
Qed.

(** The zeroing loops, relative to the store [h] before them. *)
Lemma fill_loops_raw d e lengths h h' l n L t :
  h !! d = Some (ODict e) ->
  for_each (imap pair lengths) (fun '(idx, length) =>
    let length := Nat.max 1 length in
    for_each trunc_keys (fun key =>
      r ← tensor_get d key;
      assign_tail r idx length (fill_value key))) h = Some (tt, h') ->
  lengths !! n = Some L ->
  (t < Nat.max 1 L -> raw_cell h' l n t = raw_cell h l n t) /\
  (forall key r, key ∈ trunc_keys -> e !! key = Some (VTensor r) -> l = storage r ->
     Nat.max 1 L <= t < ncols r ->
     raw_cell h' l n t = fill_cell (PyInt 0) <$> raw_cell h l n t).
Proof.
  intros Hd Hrun HL.
  set (I := fun h1 : heap =>
    h1 !! d = Some (ODict e) /\
    (raw_cell h1 l n t = raw_cell h l n t \/
     raw_cell h1 l n t = fill_cell (PyInt 0) <$> raw_cell h l n t) /\
    (t < Nat.max 1 L -> raw_cell h1 l n t = raw_cell h l n t)).
  assert (HI0 : I h) by (split; [exact Hd|]; split; [left|]; reflexivity).
  assert (Hstep : forall idx len h1 h2,
    (idx, len) ∈ imap pair lengths -> I h1 ->
    for_each trunc_keys (fun key =>
      r ← tensor_get d key;
      assign_tail r idx (Nat.max 1 len) (fill_value key)) h1 = Some (tt, h2) ->
    I h2 /\
    (raw_cell h1 l n t = fill_cell (PyInt 0) <$> raw_cell h l n t ->
     raw_cell h2 l n t = fill_cell (PyInt 0) <$> raw_cell h l n t) /\
    (forall key r, idx = n -> key ∈ trunc_keys -> e !! key = Some (VTensor r) ->
       l = storage r -> Nat.max 1 L <= t < ncols r ->
       raw_cell h2 l n t = fill_cell (PyInt 0) <$> raw_cell h l n t)).
  { intros idx len h1 h2 Hin (Hd1 & Heither & Hsame) Hs.
    apply elem_of_lookup_imap_1 in Hin as (i & x & Heq & Hix). injection Heq as -> ->.
    destruct (fill_keys_raw d e i (Nat.max 1 x) h1 h2 l n t Hd1 Hs) as (H1 & H2 & H3).
    split; [split; [eapply fill_keys_dict; eassumption|]; split|split].
    - destruct H1 as [-> | ->]; [exact Heither|].
      right. destruct Heither as [-> | ->]; [reflexivity | apply zero_twice].
    - intros Ht. rewrite H2; [apply Hsame, Ht|].
      destruct (decide (n = i)) as [->|Hne]; [right | left; exact Hne].
      rewrite HL in Hix. injection Hix as <-. exact Ht.
    - intros HQ. destruct H1 as [-> | ->]; rewrite HQ; [reflexivity | apply zero_twice].
    - intros key r -> Hkey Hr Hl Ht.
      rewrite HL in Hix. injection Hix as <-.
      rewrite (H3 key r Hkey Hr Hl eq_refl Ht).
      destruct Heither as [-> | ->]; [reflexivity | apply zero_twice]. }
  split.
  - refine (proj2 (proj2 (for_each_invariant _ I _ _ _ _ HI0 Hrun))).
    intros [idx len] h1 h2 Hin HI1 Hs. apply (Hstep idx len h1 h2 Hin HI1 Hs).
  - intros key r Hkey Hr Hl Ht.
    refine (for_each_establish _ I
      (fun h1 => raw_cell h1 l n t = fill_cell (PyInt 0) <$> raw_cell h l n t)
      _ (n, L) _ _ _ _ _ _ HI0 Hrun).
    + apply (elem_of_lookup_imap_2 pair lengths L n HL).
    + intros [idx len] h1 h2 Hin HI1 Hs. apply (Hstep idx len h1 h2 Hin HI1 Hs).
    + intros h1 h2 HI1 Hs.
      destruct (Hstep n L h1 h2 (elem_of_lookup_imap_2 pair lengths L n HL) HI1 Hs)
        as (_ & _ & H3).
      apply (H3 key r); auto.
    + intros [idx len] h1 h2 Hin HI1 HQ1 Hs.
      destruct (Hstep idx len h1 h2 Hin HI1 Hs) as (_ & H2 & _). apply H2, HQ1.
Qed.

Lemma copies_weaken h0 e h h' acc : h ⊆ h' -> copies h0 e h acc -> copies h0 e h' acc.
Proof.
  intros Hsub Hc k r' Hk. destruct (Hc k r' Hk) as (r & Hr & Hn & Hrows).
  exists r. split; [exact Hr|]. split; [exact Hn|].
  intros rows H0. exact (lookup_weaken _ _ _ _ (Hrows rows H0) Hsub).
Qed.

Lemma copies_insert h0 e h acc key r r' :
  copies h0 e h acc ->
  e !! key = Some (VTensor r) -> ncols r' = ncols r ->
  (forall rows, h0 !! storage r = Some (OStorage rows) ->
                h !! storage r' = Some (OStorage rows)) ->
  copies h0 e h (<[key := VTensor r']> acc).
Proof.
  intros Hc Hr Hn Hrows k r'' Hk. destruct (decide (key = k)) as [->|Hne].
  - rewrite lookup_insert_eq in Hk. injection Hk as <-. exists r. auto.
  - rewrite lookup_insert_ne in Hk by exact Hne. apply Hc, Hk.
Qed.

Lemma copy_entries_contents (h0 : heap) (e : gmap string value) es :
  forall memo acc h e' h',
  h0 ⊆ h ->
  (forall k v, (k, v) ∈ es -> e !! k = Some v) ->
  (forall l l' rows, memo !! l = Some l' -> h0 !! l = Some (OStorage rows) ->
                     h !! l' = Some (OStorage rows)) ->
  copies h0 e h acc ->
  copy_entries es memo acc h = Some (e', h') ->
  h ⊆ h' /\ copies h0 e h' e'.
Proof.
  induction es as [|[key v] es IH]; intros memo acc h e' h' Hsub Hes Hmemo Hacc Hrun;
    simpl in Hrun.
  - apply ret_Some in Hrun as [-> ->]. split; [reflexivity | exact Hacc].
  - assert (Hkey : e !! key = Some v) by (apply Hes; left).
    assert (Hes' : forall k v', (k, v') ∈ es -> e !! k = Some v')
      by (intros k v' Hin; apply Hes; right; exact Hin).
    destruct v as [r|l].
    + destruct (memo !! storage r) as [l'|] eqn:Em.
      * apply (IH _ _ _ _ _ Hsub Hes' Hmemo) in Hrun; [exact Hrun|].
        apply (copies_insert _ _ _ _ _ r); [exact Hacc | exact Hkey | reflexivity|].
        intros rows H0. exact (Hmemo _ _ _ Em H0).
      * destruct (h !! storage r) as [[rows|d]|] eqn:Es; try discriminate.
        apply bind_Some in Hrun as (l' & h1 & Hal & Hrun).
        apply alloc_Some in Hal as [Hfresh ->].
        assert (Hsub1 : h ⊆ <[l' := OStorage rows]> h) by (apply insert_subseteq, Hfresh).
        assert (Hnew : forall rows', h0 !! storage r = Some (OStorage rows') ->
                  <[l' := OStorage rows]> h !! l' = Some (OStorage rows')).
        { intros rows' H0. pose proof (lookup_weaken _ _ _ _ H0 Hsub) as H1.
          rewrite Es in H1. injection H1 as ->. apply lookup_insert_eq. }
        apply (IH _ _ _ _ _ (transitivity Hsub Hsub1) Hes') in Hrun.
        -- destruct Hrun as [Hsub2 Hc]. split; [etrans; eassumption | exact Hc].
        -- intros l1 l2 rows' Hl H0. destruct (decide (storage r = l1)) as [<-|Hne].
           ++ rewrite lookup_insert_eq in Hl. injection Hl as <-. apply Hnew, H0.
           ++ rewrite lookup_insert_ne in Hl by exact Hne.
              exact (lookup_weaken _ _ _ _ (Hmemo _ _ _ Hl H0) Hsub1).
        -- apply (copies_insert _ _ _ _ _ r);
             [eapply copies_weaken; eassumption | exact Hkey | reflexivity | exact Hnew].
    + apply (IH _ _ _ _ _ Hsub Hes' Hmemo) in Hrun; [exact Hrun|].
      intros k r' Hk. destruct (decide (key = k)) as [->|Hne].
      * rewrite lookup_insert_eq in Hk. discriminate.
      * rewrite lookup_insert_ne in Hk by exact Hne. apply Hacc, Hk.
Qed.

Lemma deepcopy_contents d h d' h1 :
  deepcopy d h = Some (d', h1) ->
  exists e e1, h !! d = Some (ODict e) /\ h1 !! d' = Some (ODict e1) /\
    copies h e h1 e1.
Proof.
  unfold deepcopy. destruct (h !! d) as [[rows|e]|] eqn:Hd; try discriminate.
  intros Hrun. apply bind_Some in Hrun as (e1 & h2 & Hcopy & Hal).
  apply (copy_entries_contents h e) in Hcopy as [Hsub Hc].
  - apply alloc_Some in Hal as [Hfresh ->].
    exists e, e1. split; [reflexivity|]. split; [apply lookup_insert_eq|].
    eapply copies_weaken; [apply insert_subseteq, Hfresh | exact Hc].
  - reflexivity.
  - intros k v Hin. apply elem_of_map_to_list, Hin.
  - intros l l' rows Hl. rewrite lookup_empty in Hl. discriminate.
  - intros k r' Hk. rewrite lookup_empty in Hk. discriminate.
Qed.

(** The slicing loop (lines 370-371) narrows the views of the dict [e1]. *)
Lemma slices_contents d m e1 h1 h2 :
  h1 !! d = Some (ODict e1) ->
  for_each trunc_keys (fun key =>
    r ← tensor_get d key;
    dict_set d key (VTensor (slice_cols r m))) h1 = Some (tt, h2) ->
  exists e2, h2 !! d = Some (ODict e2) /\
    (forall l, l <> d -> h2 !! l = h1 !! l) /\
    forall key r2, key ∈ trunc_keys -> e2 !! key = Some (VTensor r2) ->
      exists r1, e1 !! key = Some (VTensor r1) /\ storage r2 = storage r1 /\
        ncols r2 = Nat.min m (ncols r1).
Proof.
  intros Hd Hrun.
  set (rel := fun (strict : bool) (e2 : gmap string value) (k : string) =>
    forall r2, e2 !! k = Some (VTensor r2) ->
      exists r1, e1 !! k = Some (VTensor r1) /\ storage r2 = storage r1 /\
        (ncols r2 = Nat.min m (ncols r1) \/ (strict = false /\ ncols r2 = ncols r1))).
  set (I := fun h : heap =>
    exists e2, h !! d = Some (ODict e2) /\
      (forall l, l <> d -> h !! l = h1 !! l) /\ forall k, rel false e2 k).
  assert (HI1 : I h1).
  { exists e1. split; [exact Hd|]. split; [reflexivity|].
    intros k r2 Hk. exists r2. auto. }
  assert (Hstep : forall key h h', I h ->
    (r ← tensor_get d key; dict_set d key (VTensor (slice_cols r m))) h = Some (tt, h') ->
    exists e2', h' !! d = Some (ODict e2') /\
      (forall l, l <> d -> h' !! l = h1 !! l) /\
      (forall k, rel false e2' k) /\ rel true e2' key /\
      forall e2 k, h !! d = Some (ODict e2) -> rel true e2 k -> rel true e2' k).
  { intros key h h' (e2 & He2 & Hframe & Hrel) Hs.
    apply bind_Some in Hs as (r & h3 & Hget & Hset).
    apply tensor_get_Some in Hget as (-> & e3 & He3 & Hk).
    apply dict_set_Some in Hset as (e4 & He4 & ->).
    rewrite He2 in He3, He4. injection He3 as <-. injection He4 as <-.
    destruct (Hrel key r Hk) as (r1 & Hr1 & Hst & Hnc).
    assert (Hnew : ncols (slice_cols r m) = Nat.min m (ncols r1)).
    { simpl. destruct Hnc as [-> | [_ ->]]; lia. }
    exists (<[key := VTensor (slice_cols r m)]> e2).
    split; [apply lookup_insert_eq|]. split; [|split; [|split]].
    - intros l Hl. rewrite lookup_insert_ne by congruence. apply Hframe, Hl.
    - intros k r2 Hk2. destruct (decide (key = k)) as [->|Hne].
      + rewrite lookup_insert_eq in Hk2. injection Hk2 as <-. exists r1. auto.
      + rewrite lookup_insert_ne in Hk2 by exact Hne. apply Hrel, Hk2.
    - intros r2 Hk2. rewrite lookup_insert_eq in Hk2. injection Hk2 as <-.
      exists r1. auto.
    - intros e2' k He2' Hstrict r2 Hk2. rewrite He2 in He2'. injection He2' as <-.
      destruct (decide (key = k)) as [->|Hne].
      + rewrite lookup_insert_eq in Hk2. injection Hk2 as <-. exists r1. auto.
      + rewrite lookup_insert_ne in Hk2 by exact Hne. apply Hstrict, Hk2. }
  assert (HI2 : I h2).
  { refine (for_each_invariant _ I _ _ _ _ HI1 Hrun).
    intros key h h' _ HI Hs. destruct (Hstep key h h' HI Hs) as (e2' & H1 & H2 & H3 & _).
    exists e2'. auto. }
  destruct HI2 as (e2 & He2 & Hframe & _).
  exists e2. split; [exact He2|]. split; [exact Hframe|].
  intros key r2 Hkey Hk.
  assert (HQ : exists e2', h2 !! d = Some (ODict e2') /\ rel true e2' key).
  { refine (for_each_establish _ I
      (fun h => exists e2', h !! d = Some (ODict e2') /\ rel true e2' key)
      _ key Hkey _ _ _ _ _ HI1 Hrun).
    - intros k h h' _ HI Hs. destruct (Hstep k h h' HI Hs) as (e2' & H1 & H2 & H3 & _).
      exists e2'. auto.
    - intros h h' HI Hs. destruct (Hstep key h h' HI Hs) as (e2' & H1 & _ & _ & H4 & _).
      exists e2'. auto.
    - intros k h h' _ HI (e3 & He3 & Hrel3) Hs.
      destruct (Hstep k h h' HI Hs) as (e2' & H1 & _ & _ & _ & H5).
      exists e2'. split; [exact H1|]. apply (H5 e3 key He3 Hrel3). }
  destruct HQ as (e2' & He2' & Hrel). rewrite He2 in He2'. injection He2' as <-.
  destruct (Hrel r2 Hk) as (r1 & Hr1 & Hst & [Hnc | [? _]]); [|discriminate].
  exists r1. auto.
Qed.

(** The truncated batch, element by element: the tensor of a key is the
    source tensor cut to [max(lengths)] steps, and the element of example
    [n] at step [t] is the source element before [max(1, L)] and the zero
    of its dtype from there on.  Nothing else enters: the content is a
    function of the source batch and of the lengths. *)
Lemma truncate_batch_contents data lengths h data_tmp h' key r' :
  truncate_batch data lengths h = Some (data_tmp, h') ->
  key ∈ trunc_keys ->
  lookup_tensor h' data_tmp key = Some r' ->
  exists r, lookup_tensor h data key = Some r /\
    ncols r' = Nat.min (max_list lengths) (ncols r) /\
    forall rows n L t,
      h !! storage r = Some (OStorage rows) ->
      lengths !! n = Some L -> t < ncols r' ->
      cell_at h' r' n t = truncated_cell L t <$> cell_at h r n t.
Proof.
  unfold truncate_batch. intros Hrun Hkey Hr'.
  apply bind_Some in Hrun as (d & h1 & Hcopy & Hrun).
  apply bind_Some in Hrun as ([] & h2 & Hslice & Hrun).
  apply bind_Some in Hrun as ([] & h3 & Hfill & Hret).
  apply ret_Some in Hret as [-> ->].
  apply deepcopy_contents in Hcopy as (e & e1 & He & He1 & Hcopies).
  destruct (slices_contents d _ e1 h1 h2 He1 Hslice) as (e2 & He2 & Hframe & Hsl).
  pose proof (fill_loops_dict d e2 lengths h2 h3 He2 Hfill) as He3.
  unfold lookup_tensor in Hr'.
  destruct (tensor_get d key h3) as [[r'' h4]|] eqn:Hget; [|discriminate].
  simpl in Hr'. injection Hr' as ->.
  apply tensor_get_Some in Hget as (_ & e3 & He3' & Hk).
  rewrite He3 in He3'. injection He3' as <-.
  destruct (Hsl key r' Hkey Hk) as (r1 & Hr1 & Hst & Hnc).
  destruct (Hcopies key r1 Hr1) as (r & Hr & Hn1 & Hrows).
  exists r. split; [|split].
  - unfold lookup_tensor, tensor_get, dict_get, mbind, M_bind. rewrite He, Hr. reflexivity.
  - rewrite Hnc, Hn1. reflexivity.
  - intros rows n L t H0 HL Ht.
    pose proof (Hrows rows H0) as H1.
    assert (Hne : storage r1 <> d) by (intros Heq; rewrite Heq in H1; congruence).
    assert (Hraw2 : raw_cell h2 (storage r') n t = raw_cell h (storage r) n t).
    { unfold raw_cell. rewrite Hst, (Hframe _ Hne), H1, H0. reflexivity. }
    destruct (fill_loops_raw d e2 lengths h2 h3 (storage r') n L t He2 Hfill HL)
      as (Hpre & Hpost).
    rewrite !cell_at_raw.
    assert (Ht' : t < ncols r) by lia.
    apply Nat.ltb_lt in Ht, Ht'. rewrite Ht, Ht'. apply Nat.ltb_lt in Ht.
    unfold truncated_cell. destruct (Nat.leb_spec (Nat.max 1 L) t) as [Hge|Hlt].
    + rewrite (Hpost key r' Hkey Hk eq_refl (conj Hge Ht)), Hraw2. reflexivity.
    + rewrite (Hpre Hlt), Hraw2. destruct (raw_cell h (storage r) n t); reflexivity.
Qed.



End StoreFacts.

(** ** The training loop *)

Module TrainingFacts.
Import Training.

Section Loop.
Context `{Trainer}.
Variable cfg : Config.

Lemma run_epoch_epochs_run st : epochs_run (run_epoch st) = S (epochs_run st).
Proof.
  unfold run_epoch. destruct (scheduler_step _ _ _) as [p l]. reflexivity.
Qed.

Lemma iter_epochs_run k st : epochs_run (Nat.iter k run_epoch st) = epochs_run st + k.
Proof.
  induction k as [|k IH]; simpl; [lia|]. rewrite run_epoch_epochs_run, IH. lia.
Qed.

(** The loop runs [j] epochs, for the least [j >= 1] after which the rate
    is at most [min_lr], or all of them. *)
Lemma train_loop_spec epochs : forall st,
  exists j,
    j <= epochs /\
    train_loop cfg epochs st = Nat.iter j run_epoch st /\
    (forall k, 1 <= k < j -> (min_lr cfg < lr (Nat.iter k run_epoch st))%Q) /\
    (j < epochs -> 1 <= j /\ (lr (Nat.iter j run_epoch st) <= min_lr cfg)%Q).
Proof.
  induction epochs as [|rest IH]; intros st.
  - exists 0. repeat split; try lia; try reflexivity; intros; lia.
  - simpl. destruct (Qle_bool (lr (run_epoch st)) (min_lr cfg)) eqn:Estop.
    + exists 1. apply Qle_bool_iff in Estop.
      split; [lia|]. split; [reflexivity|]. split; [intros; lia|].
      intros _. split; [lia | exact Estop].
    + destruct (IH (run_epoch st)) as (j & Hj & Hrun & Hbefore & Hstop).
      exists (S j). split; [lia|]. split; [|split].
      * rewrite Hrun. symmetry. apply Nat.iter_succ_r.
      * intros k Hk. destruct k as [|k]; [lia|]. rewrite Nat.iter_succ_r.
        destruct k as [|k].
        -- simpl. apply Qnot_le_lt. intros Hle. apply Qle_bool_iff in Hle. congruence.
        -- apply Hbefore. lia.
      * intros Hlt. rewrite Nat.iter_succ_r. split; [lia|]. apply Hstop. lia.
Qed.

(** C7: training ends after the first epoch that leaves the learning rate
    at or below [min_lr], or after [nb_epoch] epochs, whichever comes
    first: with [n] the number of epochs run, the final state is the state
    after [n] epochs, [n <= nb_epoch], the rate was above the floor after
    each earlier epoch, and [n < nb_epoch] only when the rate after epoch
    [n] is at or below the floor. *)
Theorem train_stops_at_floor (w0 : weights) (s0 : sched) :
  epochs_run (train cfg w0 s0) <= nb_epoch cfg /\
  train cfg w0 s0 = after_epochs cfg (epochs_run (train cfg w0 s0)) w0 s0 /\
  (forall k, 1 <= k < epochs_run (train cfg w0 s0) ->
     (min_lr cfg < lr (after_epochs cfg k w0 s0))%Q) /\
  (epochs_run (train cfg w0 s0) < nb_epoch cfg ->
     1 <= epochs_run (train cfg w0 s0) /\ (lr (train cfg w0 s0) <= min_lr cfg)%Q).
Proof.
  unfold train, after_epochs.
  destruct (train_loop_spec (nb_epoch cfg) (initial cfg w0 s0))
    as (j & Hj & Hrun & Hbefore & Hstop).
  assert (Hn : epochs_run (train_loop cfg (nb_epoch cfg) (initial cfg w0 s0)) = j).
  { rewrite Hrun, iter_epochs_run. reflexivity. }
  rewrite Hn. split; [exact Hj|]. split; [exact Hrun|]. split; [exact Hbefore|].
  intros Hlt. rewrite Hrun. apply Hstop, Hlt.
Qed.

Lemma run_epoch_fields st :
  let loss := val_log_loss (train_epoch (net st) (lr st)) in
  net (run_epoch st) = train_epoch (net st) (lr st) /\
  best_loss (run_epoch st) = (if flt loss (best_loss st) then loss else best_loss st) /\
  saved (run_epoch st) =
    (if flt loss (best_loss st) then Some (train_epoch (net st) (lr st)) else saved st) /\
  checkpoints (run_epoch st) =
    (if flt loss (best_loss st) then checkpoints st ++ [S (epochs_run st)]
     else checkpoints st).
Proof.
  unfold run_epoch. destruct (scheduler_step _ _ _) as [p l]. simpl. repeat split.
Qed.

Lemma after_epochs_S k w0 s0 :
  after_epochs cfg (S k) w0 s0 = run_epoch (after_epochs cfg k w0 s0).
Proof. reflexivity. Qed.

Lemma after_epochs_run k w0 s0 : epochs_run (after_epochs cfg k w0 s0) = k.
Proof. unfold after_epochs. rewrite iter_epochs_run. reflexivity. Qed.

End Loop.

(** *** An epoch whose loss is not finite *)

Section Divergence.
Context `{Trainer}.
Variable cfg : Config.

(** Line 279: the scheduler is stepped with the loss of the epoch,
    whatever the loss is. *)
Lemma run_epoch_scheduler st :
  (plateau (run_epoch st), lr (run_epoch st)) =
  scheduler_step (plateau st) (val_log_loss (train_epoch (net st) (lr st))) (lr st).
Proof. unfold run_epoch. destruct (scheduler_step _ _ _) as [p l]. reflexivity. Qed.

Lemma epoch_loss_S k w0 s0 :
  epoch_loss cfg (S k) w0 s0 =
  val_log_loss (train_epoch (net (after_epochs cfg k w0 s0)) (lr (after_epochs cfg k w0 s0))).
Proof.
  unfold epoch_loss. rewrite after_epochs_S.
  destruct (run_epoch_fields (after_epochs cfg k w0 s0)) as [-> _]. reflexivity.
Qed.

(** The epochs that wrote [net.pt] are those whose loss was strictly
    below the best loss before them. *)
Lemma checkpoints_spec w0 s0 n j :
  In (S j) (checkpoints (after_epochs cfg n w0 s0)) <->
  j < n /\ flt (epoch_loss cfg (S j) w0 s0) (best_loss (after_epochs cfg j w0 s0)) = true.
Proof.
  induction n as [|n IH].
  - simpl. split; [intros [] | intros [Hlt _]; lia].
  - rewrite after_epochs_S.
    destruct (run_epoch_fields (after_epochs cfg n w0 s0)) as (_ & _ & _ & Hcp).
    cbv zeta in Hcp. rewrite Hcp, <- epoch_loss_S, after_epochs_run.
    destruct (flt (epoch_loss cfg (S n) w0 s0) (best_loss (after_epochs cfg n w0 s0))) eqn:Himp.
    + rewrite in_app_iff, IH. split.
      * intros [[Hlt Hj] | [Heq | []]]; [split; [lia | exact Hj]|].
        injection Heq as <-. split; [lia | exact Himp].
      * intros [Hlt Hj]. destruct (decide (j = n)) as [->|Hne].
        -- right. left. reflexivity.
        -- left. split; [lia | exact Hj].
    + rewrite IH. split.
      * intros [Hlt Hj]. split; [lia | exact Hj].
      * intros [Hlt Hj]. destruct (decide (j = n)) as [->|Hne]; [congruence|].
        split; [lia | exact Hj].
Qed.

(** Line 274: not-a-number and plus infinity are strictly below
    nothing. *)
Lemma nonfinite_not_below (loss best : float) :
  loss = NaN \/ loss = PInf -> flt loss best = false.
Proof. intros [-> | ->]; [reflexivity | destruct best; reflexivity]. Qed.

(** C4, amended: when the validation log-loss of epoch [k + 1] of a run
    is not-a-number or plus infinity, the run takes no checkpoint for
    that epoch, and [net.pt] and the best loss stay as epoch [k] left
    them; training does not abort: the scheduler is stepped with that
    loss, from the state and the rate that epoch [k] left, and unless
    that was the last of the [nb_epoch] epochs or the rate the scheduler
    returns is at or below [min_lr], epoch [k + 2] runs, training from
    the weights of epoch [k + 1] at that rate. *)
Theorem nonfinite_loss_continues (w0 : weights) (s0 : sched) (k : nat) :
  S k <= epochs_run (train cfg w0 s0) ->
  epoch_loss cfg (S k) w0 s0 = NaN \/ epoch_loss cfg (S k) w0 s0 = PInf ->
  ~ In (S k) (checkpoints (train cfg w0 s0)) /\
  saved (after_epochs cfg (S k) w0 s0) = saved (after_epochs cfg k w0 s0) /\
  best_loss (after_epochs cfg (S k) w0 s0) = best_loss (after_epochs cfg k w0 s0) /\
  (plateau (after_epochs cfg (S k) w0 s0), lr (after_epochs cfg (S k) w0 s0)) =
    scheduler_step (plateau (after_epochs cfg k w0 s0)) (epoch_loss cfg (S k) w0 s0)
      (lr (after_epochs cfg k w0 s0)) /\
  (S k < nb_epoch cfg -> (min_lr cfg < lr (after_epochs cfg (S k) w0 s0))%Q ->
   S (S k) <= epochs_run (train cfg w0 s0) /\
   net (after_epochs cfg (S (S k)) w0 s0) =
     train_epoch (net (after_epochs cfg (S k) w0 s0)) (lr (after_epochs cfg (S k) w0 s0))).
Proof.
  intros Hk Hloss.
  destruct (train_loop_spec cfg (nb_epoch cfg) (initial cfg w0 s0))
    as (n & Hn & Hrun & _ & Hstop).
  assert (Heq : train cfg w0 s0 = after_epochs cfg n w0 s0) by exact Hrun.
  rewrite Heq in Hk |- *. rewrite after_epochs_run in Hk |- *.
  pose proof (nonfinite_not_below _ (best_loss (after_epochs cfg k w0 s0)) Hloss) as Hflt.
  destruct (run_epoch_fields (after_epochs cfg k w0 s0)) as (_ & Hbest & Hsaved & _).
  cbv zeta in Hbest, Hsaved. rewrite <- epoch_loss_S, Hflt in Hbest, Hsaved.
  split; [|split; [|split; [|split]]].
  - rewrite checkpoints_spec. intros [_ Himp]. congruence.
  - rewrite after_epochs_S. exact Hsaved.
  - rewrite after_epochs_S. exact Hbest.
  - rewrite after_epochs_S, epoch_loss_S. apply run_epoch_scheduler.
  - intros Hleft Hrate. split.
    + destruct (decide (S k = n)) as [<-|Hne]; [|lia].
      destruct (Hstop Hleft) as [_ Hfloor].
      exfalso. apply (Qlt_not_le _ _ Hrate). exact Hfloor.
    + rewrite (after_epochs_S cfg (S k)).
      destruct (run_epoch_fields (after_epochs cfg (S k) w0 s0)) as [Hnet _]. exact Hnet.
Qed.

End Divergence.

(** The plateau scenario: the constant loss stops improving after the
    first epoch, the rate is halved after the second and the third, and
    the loop ends after the third of ten epochs, which left the rate at
    the floor. *)
Lemma train_stops_at_floor_witness :
  epochs_run Examples.plateau_run = 3 /\
  (epochs_run Examples.plateau_run < nb_epoch Examples.plateau_config ->
   1 <= epochs_run Examples.plateau_run /\
   (lr Examples.plateau_run <= min_lr Examples.plateau_config)%Q).
Proof.
  split; [reflexivity|].
  exact (proj2 (proj2 (proj2
    (@train_stops_at_floor (Examples.scripted (fun _ => Fin 1)) Examples.plateau_config
       0 (new_plateau (1 # 2) (1 # 4) 0))))).
Defined.

(** C4, as stated, fails twice: of three epochs with a not-a-number loss
    the first is not the last, and an epoch whose loss is minus infinity
    takes a checkpoint. *)
Lemma nonfinite_loss_abort_refuted :
  ~ @aborts_on_nonfinite_loss (Examples.scripted (fun _ => NaN)) Examples.short_config
      0 (new_plateau (1 # 2) (1 # 4) 5) /\
  ~ @aborts_on_nonfinite_loss (Examples.scripted (fun _ => NInf)) Examples.short_config
      0 (new_plateau (1 # 2) (1 # 4) 5).
Proof.
  split; intros Habort.
  - destruct (Habort 1) as [Hlast _]; [vm_compute; split; lia | reflexivity|].
    vm_compute in Hlast. discriminate.
  - destruct (Habort 1) as [_ Hnone]; [vm_compute; split; lia | reflexivity|].
    apply Hnone. vm_compute. left. reflexivity.
Qed.

(** Three epochs whose loss is not-a-number: the first takes no
    checkpoint and the second runs. *)
Lemma nonfinite_loss_continues_witness :
  1 <= epochs_run Examples.nan_run /\
  @epoch_loss (Examples.scripted (fun _ => NaN)) Examples.short_config 1
    0 (new_plateau (1 # 2) (1 # 4) 5) = NaN /\
  ~ In 1 (checkpoints Examples.nan_run) /\
  2 <= epochs_run Examples.nan_run.
Proof.
  assert (Hk : 1 <= epochs_run Examples.nan_run) by (vm_compute; lia).
  split; [exact Hk|]. split; [reflexivity|].
  destruct (@nonfinite_loss_continues (Examples.scripted (fun _ => NaN))
              Examples.short_config 0 (new_plateau (1 # 2) (1 # 4) 5) 0 Hk
              (or_introl eq_refl))
    as (Hc & _ & _ & _ & Hnext).
  split; [exact Hc|].
  apply Hnext; [vm_compute; lia | reflexivity].
Defined.

End TrainingFacts.

(** ** Softmax in the training and the evaluation pass *)

Module ProbabilitiesFacts.
Import Probabilities.

Local Open Scope R_scope.

Section Passes.
Context {Batch : Type} `{Network Batch}.

(** The training predictions are the softmax of the scores. *)
Lemma train_predictions_softmax (it : list Batch) n :
  train_predictions it n = map softmax (concat (map scores it)).
Proof.
  unfold train_predictions.
  change (fun data => snd (fst (forward_pass data n)))
    with (fun data => map softmax (scores data)).
  induction it as [|data it IH]; [reflexivity|].
  cbn [map concat]. rewrite IH, map_app. reflexivity.
Qed.

(** The evaluation pass applies softmax to what [forward_pass] returns,
    which is a softmax already. *)
Lemma eval_pass_softmax_twice (it : list Batch) n :
  snd (eval_pass it n) = map softmax (map softmax (concat (map scores it))).
Proof.
  unfold eval_pass. cbn [snd].
  rewrite (map_map (fun data => forward_pass data n) (fun r => snd (fst r))).
  change (concat (map (fun x => snd (fst (forward_pass x n))) it))
    with (train_predictions it n).
  rewrite train_predictions_softmax. reflexivity.
Qed.

End Passes.

Lemma Rdiv_eq_mult x y c : y <> 0 -> x / y = c -> x = c * y.
Proof. intros Hy <-. field. exact Hy. Qed.

Lemma softmax_twice_differs : softmax (softmax [2; 0]) <> softmax [2; 0].
Proof.
  unfold softmax. simpl. rewrite exp_0.
  set (a := exp 2). set (s := a + (1 + 0)).
  assert (Ha : 0 < a) by apply exp_pos.
  assert (Hs : 0 < s) by (unfold s; Lra.lra).
  set (p := a / s). set (q := 1 / s).
  intros Heq. injection Heq as H1 _.
  assert (Hp : 0 < exp p) by apply exp_pos.
  assert (Hq : 0 < exp q) by apply exp_pos.
  assert (Hcross : exp p = a * exp q).
  { apply Rdiv_eq_mult in H1; [|Lra.lra].
    assert (H3 : exp p * s = a * (exp p + (exp q + 0))).
    { rewrite H1 at 1. unfold p. field. Lra.lra. }
    unfold s in H3. Lra.lra. }
  unfold a in Hcross. rewrite <- exp_plus in Hcross. apply exp_inv in Hcross.
  assert (Hp1 : p < 1).
  { unfold p. apply (Rmult_lt_reg_r s); [exact Hs|]. unfold Rdiv.
    rewrite Rmult_assoc, Rinv_l by Lra.lra. unfold s. Lra.lra. }
  assert (Hq0 : 0 < q) by (unfold q; apply Rdiv_lt_0_compat; Lra.lra).
  Lra.lra.
Qed.

(** C6 fails on the code: for a batch of one example with scores [2, 0]
    the training probabilities are [softmax [2, 0]], the validation
    probabilities are the softmax of that, and the two differ. *)
Theorem validation_probabilities_differ :
  @train_predictions unit Examples.two_zero [tt] 1 = [softmax [2; 0]] /\
  snd (@eval_pass unit Examples.two_zero [tt] 1) = [softmax (softmax [2; 0])] /\
  snd (@eval_pass unit Examples.two_zero [tt] 1)
    <> @train_predictions unit Examples.two_zero [tt] 1.
Proof.
  split; [reflexivity|]. split; [reflexivity|].
  intros Heq. apply softmax_twice_differs.
  change (snd (@eval_pass unit Examples.two_zero [tt] 1))
    with [softmax (softmax [2; 0])] in Heq.
  change (@train_predictions unit Examples.two_zero [tt] 1)
    with [softmax [2; 0]] in Heq.
  exact (f_equal (hd []) Heq).
Qed.

End ProbabilitiesFacts.

(** ** The inference loop and the store *)

Module InferenceFacts.
Import Truncation Store Inference StoreFacts.

(** *** Operations that only read the store *)

Lemma reads_ret {A} (x : A) : reads (mret x).
Proof.
  intros h y h1 Hrun. apply ret_Some in Hrun as [-> ->].
  split; [reflexivity|]. intros h' _. reflexivity.
Qed.

Lemma reads_raise {A} : reads (@raise heap A).
Proof. intros h x h1 Hrun. discriminate. Qed.

Lemma reads_bind {A B} (m : M heap A) (f : A -> M heap B) :
  reads m -> (forall x, reads (f x)) -> reads (m ≫= f).
Proof.
  intros Hm Hf h y h2 Hrun. apply bind_Some in Hrun as (x & h1 & Hx & Hy).
  destruct (Hm h x h1 Hx) as [-> Hm'].
  destruct (Hf x h y h2 Hy) as [-> Hf'].
  split; [reflexivity|]. intros h' Hsub.
  unfold mbind, M_bind. rewrite (Hm' h' Hsub). apply Hf', Hsub.
Qed.

Lemma reads_from_option {A} (o : option A) : reads (from_option o).
Proof.
  intros h x h1. unfold from_option. destruct o as [y|]; [|discriminate].
  intros [= <- <-]. split; [reflexivity|]. intros h' _. reflexivity.
Qed.

Lemma reads_dict_get d key : reads (dict_get d key).
Proof.
  intros h v h1 Hrun. apply dict_get_Some in Hrun as (-> & e & Hd & Hk).
  split; [reflexivity|]. intros h' Hsub. unfold dict_get.
  rewrite (lookup_weaken _ _ _ _ Hd Hsub), Hk. reflexivity.
Qed.

Lemma reads_tensor_get d key : reads (tensor_get d key).
Proof.
  apply reads_bind; [apply reads_dict_get|].
  intros [r|l]; [apply reads_ret | apply reads_raise].
Qed.

Lemma reads_list_get d key : reads (list_get d key).
Proof.
  apply reads_bind; [apply reads_dict_get|].
  intros [r|l]; [apply reads_raise | apply reads_ret].
Qed.

Lemma reads_view r : reads (view r).
Proof.
  intros h t h1. unfold view, read_tensor.
  destruct (h !! storage r) as [[rows|e]|] eqn:Hs; try discriminate.
  simpl. intros [= <- <-]. split; [reflexivity|]. intros h' Hsub.
  rewrite (lookup_weaken _ _ _ _ Hs Hsub). reflexivity.
Qed.

Lemma reads_read_key d key : reads (read_key d key).
Proof.
  apply reads_bind; [apply reads_tensor_get | intros r; apply reads_view].
Qed.

Lemma reads_read_optional d key : reads (read_optional d key).
Proof.
  intros h x h1. unfold read_optional.
  destruct (h !! d) as [[rows|e]|] eqn:Hd; try discriminate.
  destruct (e !! key) as [[r|l]|] eqn:Hk; try discriminate.
  - intros Hrun.
    assert (Hr : reads (t ← view r; mret (Some t))).
    { apply reads_bind; [apply reads_view | intros t; apply reads_ret]. }
    destruct (Hr h x h1 Hrun) as [-> Hr']. split; [reflexivity|].
    intros h' Hsub. rewrite (lookup_weaken _ _ _ _ Hd Hsub), Hk. apply Hr', Hsub.
  - intros [= <- <-]. split; [reflexivity|]. intros h' Hsub.
    rewrite (lookup_weaken _ _ _ _ Hd Hsub), Hk. reflexivity.
Qed.

Lemma reads_read_inputs data : reads (read_inputs data).
Proof.
  unfold read_inputs.
  repeat (apply reads_bind; [first [apply reads_read_key | apply reads_read_optional]|intros ?]).
  apply reads_ret.
Qed.

Lemma reads_read_times data : reads (read_times data).
Proof.
  apply reads_bind; [apply reads_read_key | intros t; apply reads_from_option].
Qed.

(** X1: a window that runs after other windows (in a store [h] that extends
    the store [h0] the batch came in) builds the same truncated batch as
    on [h0]: its content is determined by the source tensors of [h0] and
    the lengths. *)
Lemma truncation_ignores_other_windows (h0 h : heap) data lengths data_tmp h' key r' r rows :
  h0 ⊆ h ->
  truncate_batch data lengths h = Some (data_tmp, h') ->
  key ∈ trunc_keys ->
  lookup_tensor h' data_tmp key = Some r' ->
  lookup_tensor h0 data key = Some r ->
  h0 !! storage r = Some (OStorage rows) ->
  ncols r' = Nat.min (max_list lengths) (ncols r) /\
  forall n L t, lengths !! n = Some L -> t < ncols r' ->
    cell_at h' r' n t = truncated_cell L t <$> cell_at h0 r n t.
Proof.
  intros Hsub Hrun Hkey Hr' Hr Hrows.
  destruct (truncate_batch_contents data lengths h data_tmp h' key r' Hrun Hkey Hr')
    as (r2 & Hr2 & Hn & Hcells).
  assert (Heq : r2 = r).
  { unfold lookup_tensor in Hr, Hr2.
    destruct (tensor_get data key h0) as [[r0 h1]|] eqn:Hget; [|discriminate].
    simpl in Hr. injection Hr as ->.
    destruct (reads_tensor_get data key h0 r h1 Hget) as [_ Hmono].
    rewrite (Hmono h Hsub) in Hr2. simpl in Hr2. congruence. }
  subst r2. split; [exact Hn|]. intros n L t HL Ht.
  pose proof (lookup_weaken _ _ _ _ Hrows Hsub) as Hrows'.
  rewrite (Hcells rows n L t Hrows' HL Ht). f_equal.
  unfold cell_at. rewrite Hrows, Hrows'. reflexivity.
Qed.

(** Two windows on the example batch, one after the other: the mask of
    the second is the truncated mask of the source, whatever the first
    did. *)
Lemma truncation_ignores_other_windows_witness :
  exists h data_tmp h' r' r,
    Examples.test_heap ⊆ h /\
    truncate_batch Examples.test_data [1; 3] h = Some (data_tmp, h') /\
    lookup_tensor h' data_tmp "X_mask" = Some r' /\
    lookup_tensor Examples.test_heap Examples.test_data "X_mask" = Some r /\
    cell_at h' r' 0 1 = truncated_cell 1 1 <$> cell_at Examples.test_heap r 0 1.
Proof.
  assert (Hrun :
    match truncate_batch Examples.test_data [0; 1] Examples.test_heap with
    | Some xa =>
        match truncate_batch Examples.test_data [1; 3] (snd xa) with
        | Some xb =>
            match lookup_tensor (snd xb) (fst xb) "X_mask" with
            | Some r' =>
                match lookup_tensor Examples.test_heap Examples.test_data "X_mask" with
                | Some r =>
                    match Examples.test_heap !! storage r with
                    | Some o => match o with OStorage _ => ncols r' = 3 | ODict _ => False end
                    | None => False
                    end
                | None => False
                end
            | None => False
            end
        | None => False
        end
    | None => False
    end) by (vm_compute; reflexivity).
  apply (option_match_inv
    (truncate_batch Examples.test_data [0; 1] Examples.test_heap)
    (fun xa =>
       match truncate_batch Examples.test_data [1; 3] (snd xa) with
       | Some xb =>
           match lookup_tensor (snd xb) (fst xb) "X_mask" with
           | Some r' =>
               match lookup_tensor Examples.test_heap Examples.test_data "X_mask" with
               | Some r =>
                   match Examples.test_heap !! storage r with
                   | Some o => match o with OStorage _ => ncols r' = 3 | ODict _ => False end
                   | None => False
                   end
               | None => False
               end
           | None => False
           end
       | None => False
       end)) in Hrun.
  destruct Hrun as ([da ha] & Ha & Hrun). cbn [fst snd] in Hrun.
  apply (option_match_inv
    (truncate_batch Examples.test_data [1; 3] ha)
    (fun xb =>
       match lookup_tensor (snd xb) (fst xb) "X_mask" with
       | Some r' =>
           match lookup_tensor Examples.test_heap Examples.test_data "X_mask" with
           | Some r =>
               match Examples.test_heap !! storage r with
               | Some o => match o with OStorage _ => ncols r' = 3 | ODict _ => False end
               | None => False
               end
           | None => False
           end
       | None => False
       end)) in Hrun.
  destruct Hrun as ([db hb] & Hb & Hrun). cbn [fst snd] in Hrun.
  apply (option_match_inv (lookup_tensor hb db "X_mask")
    (fun r' =>
       match lookup_tensor Examples.test_heap Examples.test_data "X_mask" with
       | Some r =>
           match Examples.test_heap !! storage r with
           | Some o => match o with OStorage _ => ncols r' = 3 | ODict _ => False end
           | None => False
           end
       | None => False
       end)) in Hrun.
  destruct Hrun as (r' & Hr' & Hrun).
  apply (option_match_inv (lookup_tensor Examples.test_heap Examples.test_data "X_mask")
    (fun r =>
       match Examples.test_heap !! storage r with
       | Some o => match o with OStorage _ => ncols r' = 3 | ODict _ => False end
       | None => False
       end)) in Hrun.
  destruct Hrun as (r & Hr & Hrun).
  apply (option_match_inv (Examples.test_heap !! storage r)
    (fun o => match o with OStorage _ => ncols r' = 3 | ODict _ => False end)) in Hrun.
  destruct Hrun as (o & Ho & Hrun). destruct o as [rows|e]; [|contradiction].
  pose proof (proj1 (truncate_batch_private _ _ _ _ _ Ha)) as Hsub.
  exists ha, db, hb, r', r.
  split; [exact Hsub|]. split; [exact Hb|]. split; [exact Hr'|]. split; [exact Hr|].
  apply (proj2 (truncation_ignores_other_windows Examples.test_heap ha
           Examples.test_data [1; 3] db hb "X_mask" r' r rows Hsub Hb
           ltac:(do 4 apply list_elem_of_further; apply list_elem_of_here)
           Hr' Hr Ho) 0 1 1 eq_refl).
  rewrite Hrun. lia.
Defined.

(** *** Every step of the loop extends the store *)

Lemma advances_ret {A} (x : A) : advances (mret x).
Proof. intros st y st' Hrun. apply ret_Some in Hrun as [_ ->]. reflexivity. Qed.

Lemma advances_raise {A} : advances (@raise State A).
Proof. intros st x st' Hrun. discriminate. Qed.

Lemma advances_bind {A B} (m : M State A) (f : A -> M State B) :
  advances m -> (forall x, advances (f x)) -> advances (m ≫= f).
Proof.
  intros Hm Hf st y st2 Hrun. apply bind_Some in Hrun as (x & st1 & Hx & Hy).
  etrans; [apply (Hm st x st1 Hx) | apply (Hf x st1 y st2 Hy)].
Qed.

Lemma advances_from_option {A} (o : option A) : advances (from_option o).
Proof.
  intros st x st'. unfold from_option. destruct o as [y|]; [|discriminate].
  intros [= <- <-]. reflexivity.
Qed.

Lemma advances_for_each {A} (l : list A) (f : A -> M State unit) :
  (forall x, advances (f x)) -> advances (for_each l f).
Proof.
  intros Hf. induction l as [|x l IH]; simpl.
  - apply advances_ret.
  - apply advances_bind; [apply Hf | intros _; exact IH].
Qed.

Lemma lift_Some {A} (m : M heap A) st x st' :
  lift m st = Some (x, st') ->
  exists h', m (objs st) = Some (x, h') /\
    st' = {| objs := h'; d_pred := d_pred st; writes := writes st; draws := draws st |}.
Proof.
  unfold lift. destruct (m (objs st)) as [[y h']|]; [|discriminate].
  intros [= <- <-]. exists h'. split; reflexivity.
Qed.

Lemma advances_lift_reads {A} (m : M heap A) : reads m -> advances (lift m).
Proof.
  intros Hm st x st' Hrun. apply lift_Some in Hrun as (h' & Hx & ->).
  destruct (Hm _ _ _ Hx) as [-> _]. reflexivity.
Qed.

Lemma advances_lift_truncate data lengths : advances (lift (truncate_batch data lengths)).
Proof.
  intros st x st' Hrun. apply lift_Some in Hrun as (h' & Hx & ->).
  apply truncate_batch_private in Hx as (Hsub & _). exact Hsub.
Qed.

Lemma advances_next_draw : advances next_draw.
Proof. intros st x st'. unfold next_draw. intros [= <- <-]. reflexivity. Qed.

Lemma set_slot_Some col row it new st u st' :
  set_slot col row it new st = Some (u, st') ->
  objs st' = objs st /\ draws st' = draws st /\ writes st' = writes st ++ [(col, row, it)] /\
  exists a samples old v,
    d_pred st !! col = Some (PFloat a) /\ a !! row = Some samples /\
    samples !! it = Some old /\ new old = Some v /\
    d_pred st' = <[col := PFloat (<[row := <[it := v]> samples]> a)]> (d_pred st).
Proof.
  unfold set_slot. destruct (d_pred st !! col) as [[a|a]|] eqn:Ea; try discriminate.
  destruct (a !! row) as [samples|] eqn:Es; [|discriminate]. simpl.
  destruct (samples !! it) as [old|] eqn:Eo; [|discriminate]. simpl.
  destruct (new old) as [v|] eqn:Ev; [|discriminate]. simpl.
  destruct u. intros [= <-]. simpl. repeat split.
  exists a, samples, old, v. repeat split; assumption.
Qed.

Lemma set_int_Some col row it z st u st' :
  set_int col row it z st = Some (u, st') ->
  objs st' = objs st /\ draws st' = draws st /\ writes st' = writes st ++ [(col, row, it)].
Proof.
  unfold set_int. destruct (d_pred st !! col) as [[a|a]|]; try discriminate.
  destruct (a !! row) as [samples|]; [|discriminate]. simpl.
  destruct (samples !! it) as [old|]; [|discriminate]. simpl.
  destruct u. intros [= <-]. simpl. repeat split.
Qed.

Lemma advances_set_slot col row it new : advances (set_slot col row it new).
Proof.
  intros st u st' Hrun. apply set_slot_Some in Hrun as (-> & _). reflexivity.
Qed.

Lemma advances_set_int col row it z : advances (set_int col row it z).
Proof.
  intros st u st' Hrun. apply set_int_Some in Hrun as (-> & _). reflexivity.
Qed.

Lemma advances_assign_rows col s e it arr : advances (assign_rows col s e it arr).
Proof.
  unfold assign_rows. destruct (length arr =? e - s); [|apply advances_raise].
  apply advances_for_each. intros [k v]. apply advances_set_slot.
Qed.

Lemma advances_assign_ints col s e it arr : advances (assign_ints col s e it arr).
Proof.
  unfold assign_ints. destruct (length arr =? e - s); [|apply advances_raise].
  apply advances_for_each. intros [k v]. apply advances_set_int.
Qed.

Section Loop.
Context `{Model}.
Variable cfg : Setup.

Lemma advances_forward_pass data : advances (forward_pass data).
Proof.
  unfold forward_pass.
  apply advances_bind; [apply advances_lift_reads, reads_read_inputs | intros x].
  apply advances_bind; [apply advances_lift_reads, reads_list_get | intros t].
  apply advances_bind; [apply advances_next_draw | intros k]. apply advances_ret.
Qed.

Lemma advances_window_samples data_tmp offset start_idx inb oob :
  advances (window_samples cfg data_tmp offset start_idx inb oob).
Proof.
  unfold window_samples. apply advances_for_each. intros iter_.
  apply advances_bind; [apply advances_forward_pass | intros [arr_preds t]].
  apply advances_bind; [apply advances_from_option | intros rows].
  apply advances_bind.
  - apply advances_for_each. intros [k v]. apply advances_set_slot.
  - intros _. apply advances_for_each. intros k. apply advances_set_slot.
Qed.

Lemma advances_process_offset data times peak_MJDs start_idx offset :
  advances (process_offset cfg data times peak_MJDs start_idx offset).
Proof.
  unfold process_offset.
  apply advances_bind; [apply advances_from_option | intros lengths].
  destruct (0 <? length _); [|apply advances_ret].
  apply advances_bind; [apply advances_lift_truncate | intros data_tmp].
  apply advances_window_samples.
Qed.

Lemma advances_process_batch data start_idx : advances (process_batch cfg data start_idx).
Proof.
  unfold process_batch.
  apply advances_bind; [apply advances_lift_reads, reads_list_get | intros SNIDs].
  apply advances_bind; [apply advances_lift_reads, reads_read_times | intros delta_times].
  apply advances_bind; [apply advances_from_option | intros peak_MJDs].
  apply advances_bind.
  { apply advances_for_each. intros iter_.
    apply advances_bind; [apply advances_forward_pass | intros [arr_preds arr_target]].
    apply advances_bind; [apply advances_assign_rows | intros _].
    apply advances_bind; [apply advances_assign_ints | intros _].
    apply advances_assign_ints. }
  intros _. apply advances_bind; [|intros _; apply advances_ret].
  apply advances_for_each. intros offset. apply advances_process_offset.
Qed.

Lemma advances_predict_batches batches : forall start_idx,
  advances (predict_batches cfg batches start_idx).
Proof.
  induction batches as [|data rest IH]; intros start_idx; simpl.
  - apply advances_ret.
  - apply advances_bind; [apply advances_process_batch | intros end_idx; apply IH].
Qed.

End Loop.

(** C2 fails on the code.  On the example split, at offset -2 both light
    curves of the batch are out of bounds, the window is skipped and its
    slots are never assigned: they keep the zeros of the allocation.  At
    offset -1 the second light curve is in bounds, and then the slot of the
    first, which is out of bounds, is assigned not-a-number, once.  The
    zeros of the skipped window are no sentinel: they survive [dropna] and
    are scored as predictions of class 0, so the window of offset -2, in
    which nothing was predicted, is reported with accuracy 2/2. *)
Theorem all_out_of_bounds_window_unwritten :
  (trunc_length [1; 2; 3]%Q 0 (-2) = 0 /\ trunc_length [1; 1; 1]%Q 3 (-2) = 0) /\
  (st ← Examples.test_run;
   Some (times_written st "PEAKMJD-2" 0 0, slot st "PEAKMJD-2" 0 0,
         times_written st "PEAKMJD-2" 1 0, slot st "PEAKMJD-2" 1 0))
    = Some (0, Some [Fin 0; Fin 0], 0, Some [Fin 0; Fin 0]) /\
  (trunc_length [1; 2; 3]%Q 0 (-1) = 0 /\ trunc_length [1; 1; 1]%Q 3 (-1) = 1) /\
  (st ← Examples.test_run;
   Some (times_written st "PEAKMJD-1" 0 0, slot st "PEAKMJD-1" 0 0,
         times_written st "PEAKMJD-1" 1 0, slot st "PEAKMJD-1" 1 0))
    = Some (1, Some [NaN; NaN], 1, Some [Fin (3 # 4); Fin (1 # 4)]) /\
  (g_pred ← Examples.test_g_pred; Aggregation.window_accuracy 2 g_pred "PEAKMJD-2")
    = Some (Fin (2 # 2)).
Proof.
  split; [split; reflexivity|]. split; [vm_compute; reflexivity|].
  split; [split; reflexivity|]. split; vm_compute; reflexivity.
Qed.

End InferenceFacts.

(** ** Aggregation and accuracy *)

Module AggregationFacts.
Import Inference Aggregation.

Lemma count_equal_map {A} (f : A -> nat) (g : A -> float) (l : list A) :
  count_equal (f <$> l) (g <$> l) =
  length (List.filter (fun r => feqb (Fin (inject_Z (Z.of_nat (f r)))) (g r)) l).
Proof.
  unfold count_equal. induction l as [|r l IH]; [reflexivity|].
  cbn [fmap list_fmap zip zip_with List.filter].
  destruct (feqb _ _); cbn [length]; rewrite <- IH; reflexivity.
Qed.

Lemma length_filter_filter {A} (P Q : A -> bool) (l : list A) :
  length (List.filter Q (List.filter P l)) =
  length (List.filter (fun x => P x && Q x) l).
Proof.
  induction l as [|x l IH]; [reflexivity|]. cbn [List.filter].
  destruct (P x); cbn [andb List.filter]; [|exact IH].
  destruct (Q x); cbn [length]; rewrite IH; reflexivity.
Qed.

Lemma mapM_length {A B} (f : A -> option B) (l : list A) (k : list B) :
  mapM f l = Some k -> length k = length l.
Proof.
  intros Hk. apply mapM_Some in Hk. symmetry. eapply Forall2_length, Hk.
Qed.

(** One row per identifier. *)
Lemma select_rows_length g names rows :
  select_rows g names = Some rows -> length rows = length (index g).
Proof.
  unfold select_rows. destruct (mapM _ names) as [columns|]; [|discriminate]. simpl.
  intros Hrows. apply mapM_length in Hrows. rewrite Hrows. apply length_seq.
Qed.

(** C3 fails on the code.  In the window of offset -1 of the example
    run the first of the two identifiers holds the sentinel and the second
    is classified correctly: one identifier remains after the sentinel is
    dropped and it matches, so the fraction over the remaining identifiers
    is 1; the code divides by both identifiers and reports 1/2. *)
Theorem window_accuracy_divides_by_all :
  (g_pred ← Examples.test_g_pred;
   select_rows g_pred (class_cols "PEAKMJD-1" 2 ++ ["target"]))
    = Some [[NaN; NaN; Fin (0 # 2)]; [Fin (24 # 32); Fin (8 # 32); Fin (0 # 2)]] /\
  (g_pred ← Examples.test_g_pred; accuracy_over_remaining 2 g_pred "PEAKMJD-1")
    = Some (Fin 1) /\
  (g_pred ← Examples.test_g_pred; window_accuracy 2 g_pred "PEAKMJD-1")
    = Some (Fin (1 # 2)).
Proof. repeat split; vm_compute; reflexivity. Qed.

(** What line 437 computes in general: the number of identifiers whose row
    holds no sentinel and whose argmax of the median probabilities equals
    the target, divided by the number of all identifiers of the frame,
    those with the sentinel included. *)
Lemma window_accuracy_over_all K (g_pred : Grouped float) col :
  window_accuracy K g_pred col =
    (rows ← select_rows g_pred (class_cols col K ++ ["target"]);
     Some (ratio (length (List.filter (is_match K) rows)) (length rows))) /\
  (forall rows, select_rows g_pred (class_cols col K ++ ["target"]) = Some rows ->
     length rows = length (index g_pred)) /\
  (forall row, existsb is_nan row = true -> is_match K row = false).
Proof.
  split; [|split].
  - unfold window_accuracy.
    destruct (select_rows g_pred (class_cols col K ++ ["target"])) as [rows|] eqn:Hrows;
      [|reflexivity].
    simpl. rewrite (select_rows_length _ _ _ Hrows).
    rewrite count_equal_map. unfold dropna. rewrite length_filter_filter. reflexivity.
  - intros rows Hrows. eapply select_rows_length, Hrows.
  - intros row Hnan. unfold is_match.
    assert (Hnot : forallb not_nan row = false); [|rewrite Hnot; reflexivity].
    induction row as [|x row IH]; [discriminate|]. simpl in *. unfold not_nan at 1.
    destruct (is_nan x); [reflexivity|]. simpl. apply IH, Hnan.
Qed.

(** *** The standard deviation of a single row *)

Lemma std_at_most_one xs : length xs <= 1 -> std xs = DevNaN.
Proof.
  intros Hlen. unfold std.
  assert (Hn : length (List.filter not_nan xs) <= 1).
  { destruct xs as [|x [|y xs]]; simpl in *; try lia. destruct (not_nan x); simpl; lia. }
  apply Nat.leb_le in Hn. rewrite Hn. reflexivity.
Qed.

Lemma rows_of_group_shift (f : nat -> nat) ids g :
  length (omap (fun '(i, id) => if Z.eqb id g then Some i else None)
            (imap (fun i x => (f i, x)) ids))
  = length (List.filter (fun id => Z.eqb id g) ids).
Proof.
  revert f. induction ids as [|id ids IH]; intros f; [reflexivity|].
  cbn [imap omap list_omap List.filter]. destruct (Z.eqb id g); cbn [length].
  - f_equal. apply (IH (f ∘ S)).
  - apply (IH (f ∘ S)).
Qed.

Lemma rows_of_group_NoDup ids g : NoDup ids -> length (rows_of_group ids g) <= 1.
Proof.
  intros Hnd. unfold rows_of_group.
  rewrite (rows_of_group_shift (fun i => i)).
  induction Hnd as [|x l Hx Hnd IH]; [simpl; lia|]. cbn [List.filter].
  destruct (Z.eqb_spec x g) as [->|Hne]; [|exact IH]. cbn [length].
  assert (Hnone : List.filter (fun id => Z.eqb id g) l = []); [|rewrite Hnone; simpl; lia].
  clear -Hx. induction l as [|y l IHl]; [reflexivity|]. cbn [List.filter].
  destruct (Z.eqb_spec y g) as [->|_].
  - exfalso. apply Hx. left.
  - apply IHl. intros Hin. apply Hx. right; exact Hin.
Qed.

Lemma take_rows_length {A} rows (col : list A) : length (take_rows rows col) <= length rows.
Proof.
  unfold take_rows. induction rows as [|i rows IH]; [reflexivity|].
  cbn [omap list_omap]. destruct (col !! i); simpl; lia.
Qed.

(** C10, as stated, fails: with one inference sample the deviations of
    the example run are not-a-number, not zero. *)
Lemma single_sample_std_zero_refuted :
  exists g, Examples.single_sample_std = Some g /\ ~ deviations_all_zero g.
Proof.
  assert (Hrun :
    match Examples.single_sample_std with
    | Some g => cols g !! "all_class0" = Some [DevNaN; DevNaN]
    | None => False
    end) by (vm_compute; reflexivity).
  apply (option_match_inv Examples.single_sample_std
    (fun g => cols g !! "all_class0" = Some [DevNaN; DevNaN])) in Hrun.
  destruct Hrun as (g & Hg & Hcol). exists g. split; [exact Hg|].
  intros Hzero.
  specialize (Hzero "all_class0" [DevNaN; DevNaN] DevNaN Hcol (list_elem_of_here _ _)).
  discriminate Hzero.
Qed.

(** C10, amended: when every identifier has a single row, as with one
    inference sample, the per-identifier standard deviation is
    not-a-number in every column and for every identifier: a missing
    value, neither zero nor an error. *)
Theorem single_sample_std_nan df ids g col values i d :
  ids_of df = Some ids ->
  NoDup ids ->
  df_std df = Some g ->
  cols g !! col = Some values ->
  values !! i = Some d ->
  d = DevNaN.
Proof.
  intros Hids Hnd Hg Hcol Hi. unfold df_std, groupby_agg in Hg.
  rewrite Hids in Hg. simpl in Hg. injection Hg as <-. simpl in Hcol.
  rewrite lookup_fmap in Hcol.
  destruct (delete "SNID" df !! col) as [c|]; [|discriminate].
  simpl in Hcol. injection Hcol as <-.
  rewrite list_lookup_fmap in Hi.
  destruct (group_index ids !! i) as [k|]; [|discriminate].
  simpl in Hi. injection Hi as <-.
  apply std_at_most_one.
  etrans; [apply take_rows_length | apply rows_of_group_NoDup, Hnd].
Qed.

Lemma single_sample_std_nan_witness :
  exists df g,
    (st ← Examples.single_sample_run;
     flatten Examples.single_sample_setup (d_pred st)) = Some df /\
    ids_of df = Some [7; 8]%Z /\
    df_std df = Some g /\
    cols g !! "PEAKMJD_class0" = Some [DevNaN; DevNaN].
Proof.
  assert (Hnd : NoDup [7; 8]%Z).
  { apply NoDup_cons. split; [|apply NoDup_singleton].
    intros Hin. apply list_elem_of_singleton in Hin. discriminate. }
  assert (Hrun :
    match (st ← Examples.single_sample_run;
           flatten Examples.single_sample_setup (d_pred st)) with
    | Some df =>
        ids_of df = Some [7; 8]%Z /\
        match df_std df with
        | Some g =>
            match cols g !! "PEAKMJD_class0" with
            | Some values => length values = 2
            | None => False
            end
        | None => False
        end
    | None => False
    end) by (vm_compute; split; reflexivity).
  apply (option_match_inv
    (st ← Examples.single_sample_run; flatten Examples.single_sample_setup (d_pred st))
    (fun df =>
    ids_of df = Some [7; 8]%Z /\
    match df_std df with
    | Some g =>
        match cols g !! "PEAKMJD_class0" with
        | Some values => length values = 2
        | None => False
        end
    | None => False
    end)) in Hrun.
  destruct Hrun as (df & Hdf & Hids & Hrun).
  apply (option_match_inv (df_std df) (fun g =>
    match cols g !! "PEAKMJD_class0" with
    | Some values => length values = 2
    | None => False
    end)) in Hrun.
  destruct Hrun as (g & Hg & Hrun).
  apply (option_match_inv (cols g !! "PEAKMJD_class0")
           (fun values : list deviation => length values = 2)) in Hrun.
  destruct Hrun as (values & Hcol & Hlen).
  exists df, g. split; [exact Hdf|]. split; [exact Hids|]. split; [exact Hg|].
  rewrite Hcol. f_equal.
  destruct values as [|d0 [|d1 [|d2 values]]]; try discriminate Hlen.
  rewrite (single_sample_std_nan df [7; 8]%Z g "PEAKMJD_class0" [d0; d1] 0 d0
             Hids Hnd Hg Hcol eq_refl).
  rewrite (single_sample_std_nan df [7; 8]%Z g "PEAKMJD_class0" [d0; d1] 1 d1
             Hids Hnd Hg Hcol eq_refl).
  reflexivity.
Defined.

End AggregationFacts.

(** ** The left search on any array, and the bounds of a window *)

Module SearchFacts.
Import Truncation Examples TruncationFacts.

(** The bisection stays inside the interval it is given, whatever the
    order of the array. *)
Lemma bisect_left_range fuel array value : forall lo hi,
  lo <= hi -> lo <= bisect_left fuel array value lo hi <= hi.
Proof.
  induction fuel as [|fuel IH]; intros lo hi Hle; simpl; [lia|].
  destruct (Nat.ltb_spec lo hi) as [Hlt|Hge]; [|lia].
  set (mid := lo + Nat.div2 (hi - lo)).
  assert (Hmid : lo <= mid < hi).
  { assert (Nat.div2 (hi - lo) < hi - lo) by (apply Nat.lt_div2; lia).
    unfold mid. generalize dependent (Nat.div2 (hi - lo)). intros; lia. }
  clearbody mid.
  destruct (array !! mid) as [x|]; [|lia].
  destruct (Qltb x value).
  - specialize (IH (S mid) hi). lia.
  - specialize (IH lo mid). lia.
Qed.

Lemma cumsum_from_length acc ts : length (cumsum_from acc ts) = length ts.
Proof.
  revert acc. induction ts as [|t ts IH]; intros acc; [reflexivity|].
  simpl. f_equal. apply IH.
Qed.

Lemma cumsum_length ts : length (cumsum ts) = length ts.
Proof.
  destruct ts as [|t ts]; [reflexivity|]. simpl. f_equal. apply cumsum_from_length.
Qed.

(** X2: on every array, sorted or not, the search of [find_idx] returns
    an index between 0 and [len(array)], so the [min] of line 44 never
    changes it; a truncation length is therefore never more than the
    number of steps of the light curve. *)
Theorem trunc_length_in_range delta_time peak_MJD offset array value :
  find_idx array value = searchsorted_left array value /\
  find_idx array value <= length array /\
  trunc_length delta_time peak_MJD offset <= length delta_time.
Proof.
  assert (Hr : forall a v, searchsorted_left a v <= length a).
  { intros a v. unfold searchsorted_left.
    destruct (bisect_left_range (length a) a v 0 (length a)); lia. }
  assert (Hf : forall a v, find_idx a v = searchsorted_left a v).
  { intros a v. unfold find_idx. specialize (Hr a v). lia. }
  split; [apply Hf|]. split; [rewrite Hf; apply Hr|].
  unfold trunc_length. rewrite Hf, <- (cumsum_length delta_time). apply Hr.
Qed.

(** X3: on a non-decreasing array [find_idx] returns the partition point
    of the value: every element before the index is strictly below the
    value, every element from the index on is at least the value. *)
Theorem find_idx_partitions array value :
  nondecreasing array ->
  (forall j x, j < find_idx array value -> array !! j = Some x -> (x < value)%Q) /\
  (forall j x, find_idx array value <= j -> array !! j = Some x -> (value <= x)%Q).
Proof.
  intros Hs. rewrite find_idx_searchsorted by exact Hs.
  destruct (searchsorted_left_spec array value Hs) as (_ & Hl & Hu).
  split; assumption.
Qed.

Lemma find_idx_partitions_witness :
  nondecreasing (cumsum example_delta_time) /\
  find_idx (cumsum example_delta_time) 3 = 1 /\
  (forall j x, j < 1 -> cumsum example_delta_time !! j = Some x -> (x < 3)%Q) /\
  (forall j x, 1 <= j -> cumsum example_delta_time !! j = Some x -> (3 <= x)%Q).
Proof.
  split; [exact example_times_nondecreasing|]. split; [reflexivity|].
  exact (find_idx_partitions (cumsum example_delta_time) 3 example_times_nondecreasing).
Defined.

Lemma cumsum_head ts : head (cumsum ts) = head ts.
Proof. destruct ts; reflexivity. Qed.

Lemma count_below_positive array value :
  1 <= count_below array value <->
  exists t, head array = Some t /\ (t < value)%Q.
Proof.
  destruct array as [|x rest]; simpl.
  - split; [lia | intros (t & Ht & _); discriminate].
  - destruct (Qltb x value) eqn:Ec.
    + apply Qltb_lt in Ec. split; [intros _; eauto | intros _; lia].
    + apply Qltb_ge in Ec. split; [lia|].
      intros (t & [= <-] & Ht). exfalso. apply (Qlt_irrefl x).
      eapply Qlt_le_trans; eassumption.
Qed.

Lemma count_below_full array value :
  count_below array value = length array <->
  Forall (fun t => (t < value)%Q) array.
Proof.
  induction array as [|x rest IH]; simpl.
  - split; [constructor | reflexivity].
  - pose proof (proj1 (count_below_spec rest value)) as Hle.
    destruct (Qltb x value) eqn:Ec.
    + apply Qltb_lt in Ec. split.
      * intros [= Hlen]. constructor; [exact Ec | apply IH, Hlen].
      * intros Hall. inversion Hall; subst. f_equal. apply IH. assumption.
    + apply Qltb_ge in Ec. split; [discriminate|].
      intros Hall. inversion Hall as [|? ? Hx _]; subst. exfalso.
      apply (Qlt_irrefl x). eapply Qlt_le_trans; eassumption.
Qed.

(** X4: with non-decreasing elapsed times, an example is in bounds for a
    window exactly when its first step lies strictly before
    [reference_time + offset], and the window keeps the whole light curve
    exactly when every elapsed time does. *)
Theorem in_bounds_iff_first_step_before delta_time peak_MJD offset :
  nondecreasing (cumsum delta_time) ->
  (in_bounds (trunc_length delta_time peak_MJD offset) = true <->
   exists t, head delta_time = Some t /\ (t < peak_MJD + inject_Z offset)%Q) /\
  (trunc_length delta_time peak_MJD offset = length delta_time <->
   Forall (fun t => (t < peak_MJD + inject_Z offset)%Q) (cumsum delta_time)).
Proof.
  intros Hs. unfold trunc_length, in_bounds.
  rewrite find_idx_count_below by exact Hs. split.
  - rewrite Nat.leb_le, count_below_positive, cumsum_head. reflexivity.
  - rewrite <- (cumsum_length delta_time). apply count_below_full.
Qed.

Lemma in_bounds_iff_first_step_before_witness :
  nondecreasing (cumsum example_delta_time) /\
  (in_bounds (trunc_length example_delta_time 0 3) = true <->
   exists t, head example_delta_time = Some t /\ (t < 0 + inject_Z 3)%Q).
Proof.
  split; [exact example_times_nondecreasing|].
  exact (proj1 (in_bounds_iff_first_step_before example_delta_time 0 3
                  example_times_nondecreasing)).
Defined.

(** X5: when every time delta after the first is non-negative (padding
    steps have delta 0), the elapsed times of line 336 are
    non-decreasing, whatever the first delta is. *)
Theorem elapsed_times_nondecreasing delta_time :
  Forall (fun d => (0 <= d)%Q) (tail delta_time) -> nondecreasing (cumsum delta_time).
Proof.
  destruct delta_time as [|t ts]; simpl.
  - intros _ i j x y _ Ex. discriminate.
  - apply cumsum_nondecreasing.
Qed.

Lemma elapsed_times_nondecreasing_witness :
  Forall (fun d => (0 <= d)%Q) (tail example_delta_time) /\
  nondecreasing (cumsum example_delta_time).
Proof.
  assert (H : Forall (fun d => (0 <= d)%Q) (tail example_delta_time))
    by (repeat constructor; discriminate).
  split; [exact H | exact (elapsed_times_nondecreasing example_delta_time H)].
Defined.

End SearchFacts.

(** ** The second softmax of the evaluation pass

    [softmax] is the exact function; what is drawn from it below holds
    with a margin that the rounding of the float32 kernel cannot
    bridge. *)

Module SoftmaxFacts.
Import Probabilities ProbabilitiesFacts.

Local Open Scope R_scope.

Lemma Rsum_nil : Rsum [] = 0.
Proof. reflexivity. Qed.

Lemma Rsum_cons x l : Rsum (x :: l) = x + Rsum l.
Proof. reflexivity. Qed.

Lemma Rsum_app l1 l2 : Rsum (l1 ++ l2) = Rsum l1 + Rsum l2.
Proof.
  induction l1 as [|x l1 IH].
  - rewrite Rsum_nil. change ([] ++ l2) with l2. Lra.lra.
  - change ((x :: l1) ++ l2) with (x :: (l1 ++ l2)). rewrite !Rsum_cons, IH. Lra.lra.
Qed.

Lemma Rsum_exp_nonneg l : 0 <= Rsum (map exp l).
Proof.
  induction l as [|x l IH]; cbn [map]; [rewrite Rsum_nil; Lra.lra|].
  rewrite Rsum_cons. pose proof (exp_pos x). Lra.lra.
Qed.

Lemma Rsum_exp_pos l : l <> [] -> 0 < Rsum (map exp l).
Proof.
  destruct l as [|x l]; [congruence|]. intros _. cbn [map]. rewrite Rsum_cons.
  pose proof (exp_pos x). pose proof (Rsum_exp_nonneg l). Lra.lra.
Qed.

Lemma exp_le_Rsum x xi : In xi x -> exp xi <= Rsum (map exp x).
Proof.
  intros Hin. apply in_split in Hin as (l1 & l2 & ->).
  rewrite map_app, Rsum_app. cbn [map]. rewrite Rsum_cons.
  pose proof (Rsum_exp_nonneg l1). pose proof (Rsum_exp_nonneg l2).
  pose proof (exp_pos xi). Lra.lra.
Qed.

Lemma softmax_entry x p : In p (softmax x) -> 0 <= p <= 1.
Proof.
  unfold softmax. intros Hin. apply in_map_iff in Hin as (xi & <- & Hxi).
  assert (Hx : x <> []) by (intros ->; inversion Hxi).
  pose proof (Rsum_exp_pos x Hx) as Hs. pose proof (exp_pos xi) as Hp.
  pose proof (exp_le_Rsum x xi Hxi) as Hle.
  split.
  - apply Rlt_le, Rdiv_lt_0_compat; assumption.
  - apply (Rmult_le_reg_r (Rsum (map exp x))); [exact Hs|].
    unfold Rdiv. rewrite Rmult_assoc, Rinv_l by Lra.lra. Lra.lra.
Qed.

Lemma softmax_length x : length (softmax x) = length x.
Proof. unfold softmax. apply length_map. Qed.

Lemma Rsum_exp_bounds l :
  (forall p, In p l -> 0 <= p <= 1) ->
  INR (length l) <= Rsum (map exp l) <= INR (length l) * exp 1.
Proof.
  induction l as [|x l IH]; intros Hl.
  - cbn [map length INR]. rewrite Rsum_nil. Lra.lra.
  - assert (Hx : 0 <= x <= 1) by (apply Hl; left; reflexivity).
    destruct IH as [IH1 IH2]; [intros p Hp; apply Hl; right; exact Hp|].
    assert (H1 : 1 <= exp x).
    { destruct (proj1 Hx) as [Hlt | <-]; [|rewrite exp_0; Lra.lra].
      pose proof (exp_increasing 0 x Hlt) as Hinc. rewrite exp_0 in Hinc. Lra.lra. }
    assert (H2 : exp x <= exp 1).
    { destruct (proj2 Hx) as [Hlt | ->]; [|Lra.lra].
      pose proof (exp_increasing x 1 Hlt). Lra.lra. }
    change (length (x :: l)) with (S (length l)). rewrite S_INR.
    cbn [map]. rewrite Rsum_cons. Lra.lra.
Qed.

Lemma Rdiv_le_bound a b c : 0 < b -> a <= c * b -> a / b <= c.
Proof.
  intros Hb H. apply (Rmult_le_reg_r b); [exact Hb|].
  unfold Rdiv. rewrite Rmult_assoc, Rinv_l by Lra.lra. Lra.lra.
Qed.

Lemma Rdiv_ge_bound a b c : 0 < b -> c * b <= a -> c <= a / b.
Proof.
  intros Hb H. apply (Rmult_le_reg_r b); [exact Hb|].
  unfold Rdiv. rewrite Rmult_assoc, Rinv_l by Lra.lra. Lra.lra.
Qed.

(** The softmax of a softmax: every entry of the inner one lies in
    [0, 1], so its exponential lies in [1, e] and no entry of the outer
    one can come close to 0 or 1. *)
Lemma softmax_twice_range s v :
  In v (softmax (softmax s)) ->
  / (1 + INR (length s - 1) * exp 1) <= v <= exp 1 / (exp 1 + INR (length s - 1)).
Proof.
  intros Hv. set (p := softmax s) in *.
  assert (Hp : forall x, In x p -> 0 <= x <= 1) by (intros x Hx; exact (softmax_entry s x Hx)).
  unfold softmax in Hv. apply in_map_iff in Hv as (pi & <- & Hpi).
  assert (Hlen : length s = length p) by (symmetry; apply softmax_length).
  apply in_split in Hpi as (l1 & l2 & Hsplit).
  rewrite Hlen, Hsplit. clear Hlen.
  rewrite Hsplit in Hp. clear Hsplit p.
  rewrite map_app, Rsum_app. cbn [map]. rewrite Rsum_cons.
  destruct (Rsum_exp_bounds l1) as [Ha1 Ha2].
  { intros x Hx. apply Hp, in_or_app. left; exact Hx. }
  destruct (Rsum_exp_bounds l2) as [Hb1 Hb2].
  { intros x Hx. apply Hp, in_or_app. right; right; exact Hx. }
  destruct (Rsum_exp_bounds [pi]) as [Ht1 Ht2].
  { intros x [<- | []]. apply Hp, in_or_app. right; left; reflexivity. }
  cbn [map length] in Ht1, Ht2. rewrite Rsum_cons, Rsum_nil in Ht1, Ht2.
  change (INR 1) with 1 in Ht1, Ht2.
  assert (Hc : INR (length (l1 ++ pi :: l2) - 1) = INR (length l1) + INR (length l2)).
  { rewrite length_app. cbn [length].
    replace (length l1 + S (length l2) - 1)%nat with (length l1 + length l2)%nat by lia.
    apply plus_INR. }
  rewrite Hc. clear Hc.
  set (a := Rsum (map exp l1)) in *. set (b := Rsum (map exp l2)) in *.
  set (n1 := INR (length l1)) in *. set (n2 := INR (length l2)) in *.
  set (t := exp pi) in *. set (e := exp 1) in *.
  assert (Hn1 : 0 <= n1) by apply pos_INR. assert (Hn2 : 0 <= n2) by apply pos_INR.
  assert (He : 1 <= e) by Lra.lra.
  assert (Hce : 0 <= (n1 + n2) * e) by (apply Rmult_le_pos; Lra.lra).
  assert (Htc : t * (n1 + n2) <= e * (n1 + n2)) by (apply Rmult_le_compat_r; Lra.lra).
  assert (Htce : 1 * ((n1 + n2) * e) <= t * ((n1 + n2) * e))
    by (apply Rmult_le_compat_r; Lra.lra).
  assert (Hea : e * (n1 + n2) <= e * (a + b)) by (apply Rmult_le_compat_l; Lra.lra).
  split.
  - apply Rdiv_ge_bound; [Lra.lra|].
    replace (/ (1 + (n1 + n2) * e) * (a + (t + b)))
      with ((a + (t + b)) / (1 + (n1 + n2) * e)) by (unfold Rdiv; ring).
    apply Rdiv_le_bound; [Lra.lra|]. Lra.lra.
  - apply Rdiv_le_bound; [Lra.lra|].
    replace (e / (e + (n1 + n2)) * (a + (t + b)))
      with (e * (a + (t + b)) / (e + (n1 + n2))) by (unfold Rdiv; ring).
    apply Rdiv_ge_bound; [Lra.lra|]. Lra.lra.
Qed.

Lemma exp_1_bounds : 2 < exp 1 <= 3.
Proof.
  split; [|exact exp_le_3].
  pose proof (exp_ineq1 1 ltac:(Lra.lra)). Lra.lra.
Qed.

(** With two classes the range is [[1 / (1 + e), e / (1 + e)]], about
    [[0.27, 0.73]]. *)
Lemma softmax_twice_binary s v :
  length s = 2%nat -> In v (softmax (softmax s)) -> 1 / 4 <= v <= 3 / 4.
Proof.
  intros Hlen Hv. pose proof (softmax_twice_range s v Hv) as Hr.
  rewrite Hlen in Hr. change (INR (2 - 1)) with 1 in Hr. rewrite Rmult_1_l in Hr.
  destruct exp_1_bounds as [H2 H3]. destruct Hr as [Hlo Hhi]. split.
  - eapply Rle_trans; [|exact Hlo].
    replace (/ (1 + exp 1)) with (1 / (1 + exp 1)) by (unfold Rdiv; ring).
    apply Rdiv_ge_bound; [Lra.lra|]. Lra.lra.
  - eapply Rle_trans; [exact Hhi|].
    apply Rdiv_le_bound; [Lra.lra|]. Lra.lra.
Qed.

(** On the scores [2, 0] the probabilities of the training pass and of
    the evaluation pass are more than 1/20 apart in their first class
    (about 0.88 against 0.68). *)
Lemma softmax_twice_gap :
  1 / 20 < nth 0 (softmax [2; 0]) 0 - nth 0 (softmax (softmax [2; 0])) 0.
Proof.
  assert (Hhi : nth 0 (softmax (softmax [2; 0])) 0 <= 3 / 4).
  { apply (softmax_twice_binary [2; 0]); [reflexivity | left; reflexivity]. }
  assert (Hlo : 4 / 5 < nth 0 (softmax [2; 0]) 0).
  { unfold softmax. cbn [map nth]. rewrite !Rsum_cons, Rsum_nil, exp_0.
    assert (H4 : 4 < exp 2).
    { replace 2 with (1 + 1) by Lra.lra. rewrite exp_plus.
      destruct exp_1_bounds as [H2 _]. nra. }
    apply (Rmult_lt_reg_r (exp 2 + (1 + 0))); [Lra.lra|].
    unfold Rdiv at 2. rewrite Rmult_assoc, Rinv_l by Lra.lra. Lra.lra. }
  Lra.lra.
Qed.

Section Bounds.
Context {Batch : Type} `{Network Batch}.

(** X8: with two classes, the second softmax of [eval_pass] squeezes
    every validation probability into [[1/4, 3/4]]: whatever the scores
    of the network, the evaluation pass reports no probability near 0
    or 1. *)
Theorem eval_pass_probabilities_squeezed (data_iterator : list Batch) (n_batches : nat) q v :
  In q (snd (eval_pass data_iterator n_batches)) ->
  length q = 2%nat ->
  In v q ->
  1 / 4 <= v <= 3 / 4.
Proof.
  intros Hq Hlen Hv. rewrite eval_pass_softmax_twice, map_map in Hq.
  apply in_map_iff in Hq as (s & <- & _).
  rewrite !softmax_length in Hlen. exact (softmax_twice_binary s v Hlen Hv).
Qed.

End Bounds.

(** The example network: one example with scores [2, 0]. *)
Lemma eval_pass_probabilities_squeezed_witness :
  In (softmax (softmax [2; 0])) (snd (@eval_pass unit Examples.two_zero [tt] 1)) /\
  In (nth 0 (softmax (softmax [2; 0])) 0) (softmax (softmax [2; 0])) /\
  1 / 4 <= nth 0 (softmax (softmax [2; 0])) 0 <= 3 / 4.
Proof.
  assert (Hq : In (softmax (softmax [2; 0])) (snd (@eval_pass unit Examples.two_zero [tt] 1)))
    by (left; reflexivity).
  assert (Hv : In (nth 0 (softmax (softmax [2; 0])) 0) (softmax (softmax [2; 0])))
    by (left; reflexivity).
  split; [exact Hq|]. split; [exact Hv|].
  exact (@eval_pass_probabilities_squeezed unit Examples.two_zero [tt] 1
           (softmax (softmax [2; 0])) (nth 0 (softmax (softmax [2; 0])) 0) Hq eq_refl Hv).
Defined.

End SoftmaxFacts.

(** ** The order of floats *)

Lemma flt_irrefl a : flt a a = false.
Proof.
  destruct a as [x| | |]; try reflexivity. unfold flt, fcompare.
  rewrite (proj1 (Qeq_alt x x) (Qeq_refl x)). reflexivity.
Qed.

Lemma flt_Fin x y : flt (Fin x) (Fin y) = true <-> (x < y)%Q.
Proof.
  unfold flt, fcompare. rewrite Qlt_alt. destruct (x ?= y)%Q; split; congruence.
Qed.

Lemma flt_trans a b c : flt a b = true -> flt b c = true -> flt a c = true.
Proof.
  destruct a as [x| | |], b as [y| | |], c as [z| | |]; try discriminate; try reflexivity.
  rewrite !flt_Fin. apply Qlt_trans.
Qed.

(** Among values that are not not-a-number the order is total. *)
Lemma flt_le_trans a b c :
  is_nan b = false -> is_nan c = false ->
  flt a b = true -> flt c b = false -> flt a c = true.
Proof.
  destruct a as [x| | |], b as [y| | |], c as [z| | |]; try discriminate; try reflexivity.
  intros _ _ Hab Hcb. apply flt_Fin in Hab. apply flt_Fin.
  destruct (Qlt_le_dec z y) as [Hlt|Hle].
  - apply flt_Fin in Hlt. congruence.
  - eapply Qlt_le_trans; eassumption.
Qed.

Lemma flt_not_nan a b : flt a b = true -> is_nan a = false.
Proof. destruct a, b; try discriminate; reflexivity. Qed.

(** ** Checkpoints and the learning rate *)

Module CheckpointFacts.
Import Training TrainingFacts.

Section Loop.
Context `{Trainer}.
Variable cfg : Config.

(** The invariant of the epoch loop: [best_loss] is the least validation
    loss so far, and [net.pt] holds the weights of the first epoch that
    reached it. *)
Lemma checkpoint_invariant w0 s0 n :
  let st := after_epochs cfg n w0 s0 in
  is_nan (best_loss st) = false /\
  (forall k, 1 <= k <= n -> flt (epoch_loss cfg k w0 s0) (best_loss st) = false) /\
  match saved st with
  | None => checkpoints st = [] /\ best_loss st = PInf
  | Some w =>
      exists j, 1 <= j <= n /\ last (checkpoints st) = Some j /\
        w = net (after_epochs cfg j w0 s0) /\
        best_loss st = epoch_loss cfg j w0 s0 /\
        forall i, 1 <= i < j ->
          is_nan (epoch_loss cfg i w0 s0) = true \/
          flt (epoch_loss cfg j w0 s0) (epoch_loss cfg i w0 s0) = true
  end.
Proof.
  induction n as [|n IH].
  - simpl. split; [reflexivity|]. split; [intros; lia|]. split; reflexivity.
  - cbv zeta in IH |- *. rewrite after_epochs_S.
    set (st := after_epochs cfg n w0 s0) in *.
    destruct IH as (Hnan & Hmin & Hsaved).
    destruct (run_epoch_fields st) as (Hnet & Hbest & Hsv & Hcp). cbv zeta in Hbest, Hsv, Hcp.
    assert (Hloss : epoch_loss cfg (S n) w0 s0 = val_log_loss (train_epoch (net st) (lr st))).
    { unfold epoch_loss. rewrite after_epochs_S. fold st. rewrite Hnet. reflexivity. }
    rewrite Hbest, Hsv. rewrite <- Hloss in *.
    destruct (flt (epoch_loss cfg (S n) w0 s0) (best_loss st)) eqn:Himp.
    + split; [eapply flt_not_nan; exact Himp|]. split.
      * intros k Hk. destruct (decide (k = S n)) as [->|Hne]; [apply flt_irrefl|].
        destruct (flt (epoch_loss cfg k w0 s0) (epoch_loss cfg (S n) w0 s0)) eqn:Hk';
          [|reflexivity].
        rewrite <- (Hmin k ltac:(lia)). symmetry. eapply flt_trans; eassumption.
      * exists (S n). split; [lia|]. split; [rewrite Hcp|split; [|split]].
        -- unfold st. rewrite after_epochs_run. apply last_snoc.
        -- rewrite after_epochs_S. fold st. symmetry. exact Hnet.
        -- reflexivity.
        -- intros i Hi. destruct (is_nan (epoch_loss cfg i w0 s0)) eqn:Hi'; [left; reflexivity|].
           right. eapply flt_le_trans; [exact Hnan | exact Hi' | exact Himp|].
           apply Hmin. lia.
    + split; [exact Hnan|]. split.
      * intros k Hk. destruct (decide (k = S n)) as [->|Hne]; [exact Himp|].
        apply Hmin. lia.
      * rewrite Hcp. destruct (saved st) as [w|]; [|exact Hsaved].
        destruct Hsaved as (j & Hj & Hrest). exists j. split; [lia | exact Hrest].
Qed.

(** X9: when training ends, no epoch that ran has a validation loss
    strictly below [best_loss]; [net.pt], if it was written, holds the
    weights of the last checkpointed epoch, whose loss is [best_loss] and
    is strictly below the loss of every earlier epoch that is not
    not-a-number (of equal losses the first is kept); and if no loss was
    below plus infinity, no checkpoint was written. *)
Theorem checkpoint_holds_best_epoch (w0 : weights) (s0 : sched) :
  (forall k, 1 <= k <= epochs_run (train cfg w0 s0) ->
     flt (epoch_loss cfg k w0 s0) (best_loss (train cfg w0 s0)) = false) /\
  match saved (train cfg w0 s0) with
  | None => checkpoints (train cfg w0 s0) = [] /\ best_loss (train cfg w0 s0) = PInf
  | Some w =>
      exists j, 1 <= j <= epochs_run (train cfg w0 s0) /\
        last (checkpoints (train cfg w0 s0)) = Some j /\
        w = net (after_epochs cfg j w0 s0) /\
        best_loss (train cfg w0 s0) = epoch_loss cfg j w0 s0 /\
        forall i, 1 <= i < j ->
          is_nan (epoch_loss cfg i w0 s0) = true \/
          flt (epoch_loss cfg j w0 s0) (epoch_loss cfg i w0 s0) = true
  end.
Proof.
  destruct (train_loop_spec cfg (nb_epoch cfg) (initial cfg w0 s0)) as (n & _ & Hrun & _).
  assert (Heq : train cfg w0 s0 = after_epochs cfg n w0 s0) by exact Hrun.
  rewrite Heq, after_epochs_run.
  destruct (checkpoint_invariant w0 s0 n) as (_ & Hmin & Hsaved).
  split; [exact Hmin | exact Hsaved].
Qed.

End Loop.

(** *** The rate under [ReduceLROnPlateau] *)

Lemma plateau_step_rate s metric rate :
  floor (fst (plateau_step s metric rate)) = floor s /\
  (snd (plateau_step s metric rate) <= rate)%Q /\
  ((floor s <= rate)%Q -> (floor s <= snd (plateau_step s metric rate))%Q).
Proof.
  unfold plateau_step. destruct (patience s <? _).
  - cbn [fst snd floor]. split; [reflexivity|].
    destruct (Qltb _ _) eqn:Hred.
    + apply Qltb_lt in Hred. split.
      * assert ((0 < 1 # 100000000)%Q) by reflexivity. Lqa.lra.
      * intros _. apply Q.le_max_r.
    + split; [apply Qle_refl | intros Hle; exact Hle].
  - cbn [fst snd floor]. split; [reflexivity|]. split; [apply Qle_refl | intros Hle; exact Hle].
Qed.

Section Plateau.
Variables (W : Type) (step : W -> Q -> W) (loss : W -> float).
Variable cfg : Config.
Variables (w0 : W) (lr_factor : Q) (patience : nat).

Local Abbreviation T := (plateau_trainer W step loss).
Local Abbreviation s0 := (new_plateau lr_factor (min_lr cfg) patience).

Lemma plateau_run_epoch (st : @TrainState T) :
  floor (plateau (@run_epoch T st)) = floor (plateau st) /\
  (lr (@run_epoch T st) <= lr st)%Q /\
  ((floor (plateau st) <= lr st)%Q -> (floor (plateau st) <= lr (@run_epoch T st))%Q).
Proof.
  unfold run_epoch.
  pose proof (plateau_step_rate (plateau st)
                (@val_log_loss T (@train_epoch T (net st) (lr st))) (lr st)) as Hs.
  change (@scheduler_step T) with plateau_step.
  destruct (plateau_step _ _ _) as [p l]. exact Hs.
Qed.

Lemma plateau_after k :
  (min_lr cfg <= learning_rate cfg)%Q ->
  floor (plateau (@after_epochs T cfg k w0 s0)) = min_lr cfg /\
  (min_lr cfg <= lr (@after_epochs T cfg k w0 s0))%Q.
Proof.
  intros Hle. induction k as [|k [IHf IHl]]; [split; [reflexivity | exact Hle]|].
  rewrite (@after_epochs_S T).
  destruct (plateau_run_epoch (@after_epochs T cfg k w0 s0)) as (Hf & _ & Hfl).
  rewrite Hf, IHf. split; [reflexivity|]. rewrite IHf in Hfl. apply Hfl, IHl.
Qed.

(** X10: with the scheduler of line 188 and an initial rate at or above
    [min_lr], the rate never increases from one epoch to the next and
    never falls below [min_lr]; so when the loop ends before [nb_epoch]
    epochs, the rate equals [min_lr]. *)
Theorem plateau_rate_meets_floor :
  (min_lr cfg <= learning_rate cfg)%Q ->
  (forall k, (min_lr cfg <= lr (@after_epochs T cfg (S k) w0 s0))%Q /\
             (lr (@after_epochs T cfg (S k) w0 s0) <= lr (@after_epochs T cfg k w0 s0))%Q) /\
  (epochs_run (@train T cfg w0 s0) < nb_epoch cfg ->
   (lr (@train T cfg w0 s0) == min_lr cfg)%Q).
Proof.
  intros Hle. split.
  - intros k. split; [apply (plateau_after (S k) Hle)|].
    rewrite (@after_epochs_S T). apply plateau_run_epoch.
  - intros Hearly.
    destruct (@train_loop_spec T cfg (nb_epoch cfg) (@initial T cfg w0 s0))
      as (n & _ & Hrun & _ & Hstop).
    assert (Heq : @train T cfg w0 s0 = @after_epochs T cfg n w0 s0) by exact Hrun.
    rewrite Heq in Hearly |- *. rewrite (@after_epochs_run T) in Hearly.
    destruct (Hstop Hearly) as [_ Hfloor].
    apply Qle_antisym; [exact Hfloor | apply (plateau_after n Hle)].
Qed.

End Plateau.

Lemma plateau_rate_meets_floor_witness :
  (min_lr Examples.plateau_config <= learning_rate Examples.plateau_config)%Q /\
  epochs_run Examples.plateau_run < nb_epoch Examples.plateau_config /\
  (lr Examples.plateau_run == min_lr Examples.plateau_config)%Q.
Proof.
  assert (Hle : (min_lr Examples.plateau_config <= learning_rate Examples.plateau_config)%Q)
    by discriminate.
  assert (Hearly : epochs_run Examples.plateau_run < nb_epoch Examples.plateau_config)
    by (vm_compute; lia).
  split; [exact Hle|]. split; [exact Hearly|].
  exact (proj2 (plateau_rate_meets_floor nat (fun w _ => S w) (fun _ => Fin 1)
                  Examples.plateau_config 0 (1 # 2) 0 Hle) Hearly).
Defined.

End CheckpointFacts.

(** ** The data splits *)

Module SplitsFacts.
Import Splits.

Lemma split_ids_app df1 df2 name :
  split_ids (df1 ++ df2) name = split_ids df1 name ++ split_ids df2 name.
Proof. unfold split_ids. rewrite List.filter_app, fmap_app. reflexivity. Qed.

Lemma split_ids_labelled ids label name :
  split_ids ((fun id => (id, label)) <$> ids) name =
  if String.eqb label name then ids else [].
Proof.
  unfold split_ids. induction ids as [|id ids IH]; [destruct (String.eqb label name); reflexivity|].
  cbn [fmap list_fmap List.filter snd]. destruct (String.eqb label name) eqn:E.
  - cbn [fmap list_fmap fst]. f_equal. exact IH.
  - exact IH.
Qed.

(** X11: the splits that [train] writes to [data_splits.csv] (lines
    176-186) are the splits that [get_predictions] and [get_plots] select
    from it (lines 294-297): selecting each label from the concatenated
    frame gives back the identifiers of that split, in order. *)
Theorem splits_read_back SNID_train SNID_val SNID_test :
  split_ids (df_splits SNID_train SNID_val SNID_test) "train" = SNID_train /\
  split_ids (df_splits SNID_train SNID_val SNID_test) "val" = SNID_val /\
  split_ids (df_splits SNID_train SNID_val SNID_test) "test" = SNID_test.
Proof.
  unfold df_splits. rewrite !split_ids_app, !split_ids_labelled.
  cbn [String.eqb Ascii.eqb Bool.eqb].
  rewrite !app_nil_r. repeat split; reflexivity.
Qed.

End SplitsFacts.

(** ** The windows and the full pass of a batch *)

Module WindowFacts.
Import Truncation Store Inference StoreFacts InferenceFacts Examples.

(** *** The keys of the windows *)

Lemma pretty_Zneg p : pretty (Z.neg p) = "-" +:+ pretty p.
Proof. reflexivity. Qed.

(** X12: distinct offsets have distinct window keys (lines 389-391), so no
    two windows write the same column of [d_pred]. *)
Theorem window_key_injective o1 o2 :
  window_key o1 = window_key o2 -> o1 = o2.
Proof.
  unfold window_key. intros Heq.
  apply (inj (String.app "PEAKMJD")) in Heq.
  destruct o1 as [|p1|p1], o2 as [|p2|p2]; cbn [Z.eqb Z.ltb Z.compare] in Heq;
    rewrite ?pretty_Zneg in Heq; try reflexivity; try discriminate Heq.
  - injection Heq as Heq. apply pretty_Z_inj, Heq.
  - injection Heq as Heq. f_equal. apply pretty_positive_inj, Heq.
Qed.

Lemma window_key_injective_witness :
  window_key 1 = "PEAKMJD+1" /\ window_key (-1) = "PEAKMJD-1" /\ window_key 0 = "PEAKMJD" /\
  (window_key 1 = window_key 1 -> 1 = 1)%Z.
Proof.
  split; [reflexivity|]. split; [reflexivity|]. split; [reflexivity|].
  exact (window_key_injective 1 1).
Defined.

(** *** [np.where] *)

Lemma where_shift (cond : nat -> bool) (f : nat -> nat) (g : nat -> nat -> nat * nat) l :
  (forall i y, g i y = (f i, y)) ->
  omap (fun '(k, x) => if cond x then Some k else None) (imap g l)
  = f <$> where_ cond l.
Proof.
  unfold where_. revert f g. induction l as [|y l IH]; intros f g Hg; [reflexivity|].
  cbn [imap omap list_omap]. rewrite Hg.
  rewrite (IH (f ∘ S) (g ∘ S)) by (intros i z; apply Hg).
  rewrite (IH S (pair ∘ S)) by reflexivity.
  destruct (cond y); cbn [fmap list_fmap]; rewrite <- list_fmap_compose; reflexivity.
Qed.

Lemma where_cons cond x l :
  where_ cond (x :: l) =
  (if cond x then [0] else []) ++ (S <$> where_ cond l).
Proof.
  unfold where_ at 1. cbn [imap omap list_omap].
  rewrite (where_shift cond S (pair ∘ S)) by reflexivity.
  destruct (cond x); reflexivity.
Qed.

Lemma elem_of_where cond l k :
  k ∈ where_ cond l <-> exists x, l !! k = Some x /\ cond x = true.
Proof.
  revert k. induction l as [|y l IH]; intros k.
  - split; [intros Hin; inversion Hin | intros (x & Hx & _); discriminate].
  - rewrite where_cons, elem_of_app, list_elem_of_fmap. split.
    + intros [Hin | (k' & -> & Hin)].
      * destruct (cond y) eqn:Hy; [|inversion Hin].
        apply list_elem_of_singleton in Hin as ->. exists y. split; [reflexivity | exact Hy].
      * apply IH in Hin. exact Hin.
    + intros (x & Hx & Hc). destruct k as [|k]; simpl in Hx.
      * injection Hx as ->. left. rewrite Hc. apply list_elem_of_here.
      * right. exists k. split; [reflexivity|]. apply IH. eauto.
Qed.

Lemma NoDup_where cond l : NoDup (where_ cond l).
Proof.
  induction l as [|y l IH]; [constructor|].
  rewrite where_cons.
  assert (Htail : NoDup (S <$> where_ cond l)).
  { apply NoDup_fmap_2; [intros a b; lia | exact IH]. }
  destruct (cond y); [|exact Htail]. simpl. constructor; [|exact Htail].
  intros Hin. apply list_elem_of_fmap in Hin as (k & Hk & _). discriminate.
Qed.

Lemma where_nil cond l :
  Forall (fun x => cond x = false) l -> where_ cond l = [].
Proof.
  intros Hall. destruct (where_ cond l) as [|k rest] eqn:E; [reflexivity|].
  assert (Hin : k ∈ where_ cond l) by (rewrite E; left).
  apply elem_of_where in Hin as (x & Hx & Hc).
  rewrite Forall_lookup in Hall. rewrite (Hall k x Hx) in Hc. discriminate.
Qed.

(** *** Assignments to [d_pred] *)

Lemma times_written_snoc st st' w c r i :
  writes st' = writes st ++ [w] ->
  times_written st' c r i =
  times_written st c r i + (if decide (w = (c, r, i)) then 1 else 0).
Proof.
  intros Hw. unfold times_written. rewrite Hw, filter_app, length_app. f_equal.
  rewrite filter_cons, filter_nil. destruct (decide (w = (c, r, i))); reflexivity.
Qed.

(** One assignment [d_pred[col][row, it] = ...]: the slot changes, every
    other slot is as before. *)
Lemma set_slot_effect col row it new st st' :
  set_slot col row it new st = Some (tt, st') ->
  objs st' = objs st /\ draws st' = draws st /\
  (exists old v, slot st col row it = Some old /\ new old = Some v /\
     slot st' col row it = Some v) /\
  (forall c r i, (c, r, i) <> (col, row, it) -> slot st' c r i = slot st c r i) /\
  (forall c r i, int_slot st' c r i = int_slot st c r i) /\
  (forall c r i, times_written st' c r i =
     times_written st c r i + (if decide ((col, row, it) = (c, r, i)) then 1 else 0)).
Proof.
  intros Hrun.
  apply set_slot_Some in Hrun as (Ho & Hd & Hw & a & samples & old & v & Ha & Hs & Hold & Hv & Hp).
  split; [exact Ho|]. split; [exact Hd|].
  assert (Hrow : row < length a) by (eapply lookup_lt_Some; eassumption).
  assert (Hit : it < length samples) by (eapply lookup_lt_Some; eassumption).
  split; [|split; [|split]].
  - exists old, v. unfold slot. rewrite Ha, Hp, lookup_insert_eq. simpl.
    rewrite Hs. simpl. split; [exact Hold|]. split; [exact Hv|].
    rewrite list_lookup_insert_eq by exact Hrow. simpl.
    apply list_lookup_insert_eq, Hit.
  - intros c r i Hne. unfold slot. rewrite Hp.
    destruct (decide (c = col)) as [->|Hc]; [|rewrite lookup_insert_ne by congruence; reflexivity].
    rewrite lookup_insert_eq, Ha.
    destruct (decide (r = row)) as [->|Hr];
      [|rewrite list_lookup_insert_ne by congruence; reflexivity].
    rewrite list_lookup_insert_eq by exact Hrow. rewrite Hs. simpl.
    apply list_lookup_insert_ne. congruence.
  - intros c r i. unfold int_slot. rewrite Hp.
    destruct (decide (c = col)) as [->|Hc]; [|rewrite lookup_insert_ne by congruence; reflexivity].
    rewrite lookup_insert_eq, Ha. reflexivity.
  - intros c r i. apply times_written_snoc, Hw.
Qed.

Lemma set_int_effect col row it z st st' :
  set_int col row it z st = Some (tt, st') ->
  objs st' = objs st /\ draws st' = draws st /\
  int_slot st' col row it = Some z /\
  (forall c r i, (c, r, i) <> (col, row, it) -> int_slot st' c r i = int_slot st c r i) /\
  (forall c r i, slot st' c r i = slot st c r i) /\
  (forall c r i, times_written st' c r i =
     times_written st c r i + (if decide ((col, row, it) = (c, r, i)) then 1 else 0)).
Proof.
  intros Hrun. pose proof (set_int_Some _ _ _ _ _ _ _ Hrun) as (Ho & Hd & Hw).
  split; [exact Ho|]. split; [exact Hd|].
  unfold set_int in Hrun.
  destruct (d_pred st !! col) as [[a|a]|] eqn:Ha; try discriminate.
  destruct (a !! row) as [samples|] eqn:Hs; [|discriminate]. simpl in Hrun.
  destruct (samples !! it) as [old|] eqn:Hold; [|discriminate]. simpl in Hrun.
  injection Hrun as <-.
  assert (Hrow : row < length a) by (eapply lookup_lt_Some; eassumption).
  assert (Hit : it < length samples) by (eapply lookup_lt_Some; eassumption).
  split; [|split; [|split]].
  - unfold int_slot. cbn [d_pred]. rewrite lookup_insert_eq.
    rewrite list_lookup_insert_eq by exact Hrow. simpl.
    apply list_lookup_insert_eq, Hit.
  - intros c r i Hne. unfold int_slot. cbn [d_pred].
    destruct (decide (c = col)) as [->|Hc]; [|rewrite lookup_insert_ne by congruence; reflexivity].
    rewrite lookup_insert_eq, Ha.
    destruct (decide (r = row)) as [->|Hr];
      [|rewrite list_lookup_insert_ne by congruence; reflexivity].
    rewrite list_lookup_insert_eq by exact Hrow. rewrite Hs. simpl.
    apply list_lookup_insert_ne. congruence.
  - intros c r i. unfold slot. cbn [d_pred].
    destruct (decide (c = col)) as [->|Hc]; [|rewrite lookup_insert_ne by congruence; reflexivity].
    rewrite lookup_insert_eq, Ha. reflexivity.
  - intros c r i. apply times_written_snoc. exact Hw.
Qed.

Lemma for_each_ext {S A} (f g : A -> M S unit) (l : list A) st :
  (forall x st, f x st = g x st) -> for_each l f st = for_each l g st.
Proof.
  intros Hfg. revert st. induction l as [|x l IH]; intros st; [reflexivity|].
  simpl. unfold mbind, M_bind. rewrite Hfg.
  destruct (g x st) as [[[] st1]|]; [apply IH | reflexivity].
Qed.

(** A loop over [range(n)] with an invariant that depends on the index. *)
Lemma for_each_seq_invariant {S} (f : nat -> M S unit) (I : nat -> S -> Prop) n :
  (forall i st st', i < n -> I i st -> f i st = Some (tt, st') -> I (Datatypes.S i) st') ->
  forall st st', I 0 st -> for_each (seq 0 n) f st = Some (tt, st') -> I n st'.
Proof.
  intros Hstep.
  enough (Hgen : forall m a st st', a + m = n -> I a st ->
            for_each (seq a m) f st = Some (tt, st') -> I n st').
  { intros st st'. apply (Hgen n 0). reflexivity. }
  induction m as [|m IH]; intros a st st' Ham HI Hrun; simpl in Hrun.
  - apply ret_Some in Hrun as [_ ->]. replace n with a by lia. exact HI.
  - apply bind_Some in Hrun as ([] & st1 & Hx & Hrest).
    apply (IH (Datatypes.S a) st1 st'); [lia | | exact Hrest].
    apply (Hstep a st st1); [lia | exact HI | exact Hx].
Qed.

(** A loop of assignments to distinct rows of one column and sample. *)
Lemma set_slots_effect {A} (key : A -> nat) (new : A -> list float -> option (list float))
    col it start (l : list A) : forall st st',
  NoDup (key <$> l) ->
  for_each l (fun x => set_slot col (start + key x) it (new x)) st = Some (tt, st') ->
  objs st' = objs st /\ draws st' = draws st /\
  (forall c r i, int_slot st' c r i = int_slot st c r i) /\
  (forall x, x ∈ l -> exists old v,
     slot st col (start + key x) it = Some old /\ new x old = Some v /\
     slot st' col (start + key x) it = Some v /\
     times_written st' col (start + key x) it
       = Datatypes.S (times_written st col (start + key x) it)) /\
  (forall c r i, (forall x, x ∈ l -> (c, r, i) <> (col, start + key x, it)) ->
     slot st' c r i = slot st c r i /\ times_written st' c r i = times_written st c r i).
Proof.
  induction l as [|x0 l IH]; intros st st' Hnd Hrun; simpl in Hrun.
  - apply ret_Some in Hrun as [_ ->]. repeat split; try reflexivity.
    intros x Hx. inversion Hx.
  - apply bind_Some in Hrun as ([] & st1 & Hx0 & Hrest).
    rewrite fmap_cons in Hnd. apply NoDup_cons in Hnd as [Hfresh Hnd].
    apply set_slot_effect in Hx0
      as (Ho1 & Hd1 & (old & v & Hold & Hv & Hnew) & Hother & Hint & Htw).
    destruct (IH st1 st' Hnd Hrest) as (Ho & Hd & Hint' & Hin & Hout).
    split; [congruence|]. split; [congruence|]. split; [|split].
    + intros c r i. rewrite Hint'. apply Hint.
    + intros x Hx. apply elem_of_cons in Hx as [-> | Hx].
      * destruct (Hout col (start + key x0) it) as [Hs Ht].
        { intros y Hy Heq. apply Hfresh. apply list_elem_of_fmap. exists y.
          split; [injection Heq; lia | exact Hy]. }
        exists old, v. split; [exact Hold|]. split; [exact Hv|]. split; [congruence|].
        rewrite Ht, Htw. rewrite decide_True by reflexivity. lia.
      * destruct (Hin x Hx) as (old' & v' & Hold' & Hv' & Hnew' & Ht').
        assert (Hne : (col, start + key x, it) <> (col, start + key x0, it)).
        { intros Heq. apply Hfresh. apply list_elem_of_fmap. exists x.
          split; [injection Heq; lia | exact Hx]. }
        exists old', v'. rewrite <- (Hother _ _ _ Hne). split; [exact Hold'|].
        split; [exact Hv'|]. split; [exact Hnew'|].
        rewrite Ht', Htw. rewrite decide_False by congruence. lia.
    + intros c r i Hne. destruct (Hout c r i) as [Hs Ht].
      { intros y Hy. apply Hne. right; exact Hy. }
      assert (Hne0 : (c, r, i) <> (col, start + key x0, it)) by (apply Hne; left).
      split; [rewrite Hs; apply Hother, Hne0|].
      rewrite Ht, Htw. rewrite decide_False by congruence. lia.
Qed.

Lemma set_ints_effect {A} (key : A -> nat) (val : A -> Z) col it start (l : list A) :
  forall st st',
  NoDup (key <$> l) ->
  for_each l (fun x => set_int col (start + key x) it (val x)) st = Some (tt, st') ->
  objs st' = objs st /\ draws st' = draws st /\
  (forall c r i, slot st' c r i = slot st c r i) /\
  (forall x, x ∈ l -> int_slot st' col (start + key x) it = Some (val x)) /\
  (forall c r i, (forall x, x ∈ l -> (c, r, i) <> (col, start + key x, it)) ->
     int_slot st' c r i = int_slot st c r i /\
     times_written st' c r i = times_written st c r i).
Proof.
  induction l as [|x0 l IH]; intros st st' Hnd Hrun; simpl in Hrun.
  - apply ret_Some in Hrun as [_ ->]. repeat split; try reflexivity.
    intros x Hx. inversion Hx.
  - apply bind_Some in Hrun as ([] & st1 & Hx0 & Hrest).
    rewrite fmap_cons in Hnd. apply NoDup_cons in Hnd as [Hfresh Hnd].
    apply set_int_effect in Hx0 as (Ho1 & Hd1 & Hnew & Hother & Hslot & Htw).
    destruct (IH st1 st' Hnd Hrest) as (Ho & Hd & Hslot' & Hin & Hout).
    split; [congruence|]. split; [congruence|]. split; [|split].
    + intros c r i. rewrite Hslot'. apply Hslot.
    + intros x Hx. apply elem_of_cons in Hx as [-> | Hx]; [|apply Hin, Hx].
      destruct (Hout col (start + key x0) it) as [Hs _]; [|congruence].
      intros y Hy Heq. apply Hfresh. apply list_elem_of_fmap. exists y.
      split; [injection Heq; lia | exact Hy].
    + intros c r i Hne. destruct (Hout c r i) as [Hs Ht].
      { intros y Hy. apply Hne. right; exact Hy. }
      assert (Hne0 : (c, r, i) <> (col, start + key x0, it)) by (apply Hne; left).
      split; [rewrite Hs; apply Hother, Hne0|].
      rewrite Ht, Htw. rewrite decide_False by congruence. lia.
Qed.

Section Loop.
Context `{Model}.
Variable cfg : Setup.

Lemma forward_pass_Some data st preds target st' :
  forward_pass data st = Some ((preds, target), st') ->
  exists x,
    read_inputs data (objs st) = Some (x, objs st) /\
    list_get data "X_target" (objs st) = Some (target, objs st) /\
    preds = predict x (draws st) /\
    objs st' = objs st /\ d_pred st' = d_pred st /\ writes st' = writes st /\
    draws st' = S (draws st).
Proof.
  unfold forward_pass. intros Hrun.
  apply bind_Some in Hrun as (x & st1 & Hx & Hrun).
  apply lift_Some in Hx as (h1 & Hx & ->).
  destruct (reads_read_inputs data _ _ _ Hx) as [-> _].
  apply bind_Some in Hrun as (t & st2 & Ht & Hrun).
  apply lift_Some in Ht as (h2 & Ht & ->). cbn [objs d_pred writes draws] in *.
  destruct (reads_list_get data "X_target" _ _ _ Ht) as [-> _].
  apply bind_Some in Hrun as (k & st3 & Hk & Hret).
  unfold next_draw in Hk. injection Hk as <- <-.
  apply ret_Some in Hret as [Heq ->]. injection Heq as -> ->.
  exists x. cbn [objs d_pred writes draws]. repeat split; assumption.
Qed.

Lemma zip_mapM_lookup {A} (arr : list A) (idxs : list nat) rows :
  mapM (fun k => arr !! k) idxs = Some rows ->
  (zip idxs rows).*1 = idxs /\
  (forall k v, (k, v) ∈ zip idxs rows -> k ∈ idxs /\ arr !! k = Some v) /\
  (forall k, k ∈ idxs -> exists v, (k, v) ∈ zip idxs rows).
Proof.
  intros Hrows. apply mapM_Some in Hrows.
  pose proof (Forall2_length _ _ _ Hrows) as Hlen.
  split; [apply fst_zip; lia|]. split.
  - intros k v Hin. apply list_elem_of_lookup in Hin as (i & Hi).
    apply lookup_zip_with_Some in Hi as (k' & v' & Heq & Hk & Hv). injection Heq as <- <-.
    split; [eapply list_elem_of_lookup_2, Hk|].
    exact (Forall2_lookup_lr _ _ _ _ _ _ Hrows Hk Hv).
  - intros k Hin. apply list_elem_of_lookup in Hin as (i & Hi).
    destruct (Forall2_lookup_l _ _ _ _ _ Hrows Hi) as (v & Hv & _).
    exists v. apply list_elem_of_lookup. exists i.
    apply lookup_zip_with_Some. exists k, v. auto.
Qed.

(** One draw of a window (lines 386-395). *)
Lemma window_iteration data_tmp offset start_idx inb_idxs oob_idxs iter_ st st' :
  NoDup inb_idxs -> NoDup oob_idxs -> (forall k, k ∈ inb_idxs -> k ∉ oob_idxs) ->
  ('(arr_preds, _) ← forward_pass data_tmp;
   let col := window_key offset in
   rows ← from_option (mapM (fun k => arr_preds !! k) inb_idxs);
   _ ← for_each (zip inb_idxs rows) (fun '(k, v) =>
         set_slot col (start_idx + k) iter_ (vector v));
   for_each oob_idxs (fun k => set_slot col (start_idx + k) iter_ (broadcast NaN))) st
  = Some (tt, st') ->
  exists x, read_inputs data_tmp (objs st) = Some (x, objs st) /\
    objs st' = objs st /\ draws st' = S (draws st) /\
    (forall c r i, int_slot st' c r i = int_slot st c r i) /\
    (forall k, k ∈ inb_idxs -> exists v,
       predict x (draws st) !! k = Some v /\
       slot st' (window_key offset) (start_idx + k) iter_ = Some v /\
       times_written st' (window_key offset) (start_idx + k) iter_
         = S (times_written st (window_key offset) (start_idx + k) iter_)) /\
    (forall k, k ∈ oob_idxs -> exists old,
       slot st (window_key offset) (start_idx + k) iter_ = Some old /\
       slot st' (window_key offset) (start_idx + k) iter_
         = Some (replicate (length old) NaN) /\
       times_written st' (window_key offset) (start_idx + k) iter_
         = S (times_written st (window_key offset) (start_idx + k) iter_)) /\
    (forall c r i,
       (forall k, k ∈ inb_idxs ++ oob_idxs ->
          (c, r, i) <> (window_key offset, start_idx + k, iter_)) ->
       slot st' c r i = slot st c r i /\ times_written st' c r i = times_written st c r i).
Proof.
  intros Hinb Hoob Hdisj Hrun.
  apply bind_Some in Hrun as ([arr_preds t] & st1 & Hfp & Hrun).
  apply forward_pass_Some in Hfp as (x & Hx & _ & -> & Ho1 & Hd1 & Hw1 & Hdr1).
  cbv zeta in Hrun.
  apply bind_Some in Hrun as (rows & st1' & Hrows & Hrun).
  unfold from_option in Hrows.
  destruct (mapM _ inb_idxs) as [rows'|] eqn:Hmap; [|discriminate].
  injection Hrows as Hr Hst. subst rows st1'.
  apply bind_Some in Hrun as ([] & st2 & Hin & Hout).
  destruct (zip_mapM_lookup _ _ _ Hmap) as (Hkeys & Hzip & Hall).
  rewrite (for_each_ext _
    (fun x => set_slot (window_key offset) (start_idx + fst x) iter_ (vector (snd x))))
    in Hin by (intros [k v] s; reflexivity).
  apply set_slots_effect in Hin as (Ho2 & Hdr2 & Hint2 & Hin2 & Hout2);
    [|rewrite Hkeys; exact Hinb].
  apply (set_slots_effect (fun k => k) (fun _ => broadcast NaN)) in Hout
    as (Ho3 & Hdr3 & Hint3 & Hin3 & Hout3); [|rewrite list_fmap_id; exact Hoob].
  assert (Hs1 : forall c r i, slot st1 c r i = slot st c r i)
    by (intros; unfold slot; rewrite Hd1; reflexivity).
  assert (Ht1 : forall c r i, times_written st1 c r i = times_written st c r i)
    by (intros; unfold times_written; rewrite Hw1; reflexivity).
  assert (Hi1 : forall c r i, int_slot st1 c r i = int_slot st c r i)
    by (intros; unfold int_slot; rewrite Hd1; reflexivity).
  exists x. split; [exact Hx|]. split; [congruence|]. split; [congruence|].
  split; [intros; rewrite Hint3, Hint2; apply Hi1|]. split; [|split].
  - intros k Hk. destruct (Hall k Hk) as (v & Hkv).
    destruct (Hin2 (k, v) Hkv) as (old & v' & Hold & Hv & Hnew & Htw). cbn [fst snd] in *.
    unfold vector in Hv. destruct (length v =? length old); [|discriminate].
    injection Hv as <-.
    destruct (Hout3 (window_key offset) (start_idx + k) iter_) as [Hs Ht].
    { intros k' Hk' Heq. apply (Hdisj k Hk). replace k with k' by (injection Heq; lia).
      exact Hk'. }
    exists v. split; [apply (Hzip k v Hkv)|].
    split; [congruence|]. rewrite Ht, Htw, Ht1. reflexivity.
  - intros k Hk. destruct (Hin3 k Hk) as (old & v & Hold & Hv & Hnew & Htw).
    destruct (Hout2 (window_key offset) (start_idx + k) iter_) as [Hs Ht].
    { intros [k' v'] Hk' Heq. cbn [fst] in Heq.
      apply (Hdisj k'); [apply (Hzip k' v' Hk')|].
      replace k' with k by (injection Heq; lia). exact Hk. }
    unfold broadcast in Hv. injection Hv as <-.
    exists old. split; [rewrite <- Hs1, <- Hs; exact Hold|].
    split; [exact Hnew|]. rewrite Htw, Ht, Ht1. reflexivity.
  - intros c r i Hne.
    destruct (Hout3 c r i) as [Hs3 Ht3].
    { intros k Hk. apply Hne, elem_of_app. right; exact Hk. }
    destruct (Hout2 c r i) as [Hs2 Ht2].
    { intros [k v] Hk. cbn [fst]. apply Hne, elem_of_app. left. apply (Hzip k v Hk). }
    split; [rewrite Hs3, Hs2; apply Hs1 | rewrite Ht3, Ht2; apply Ht1].
Qed.

Lemma window_samples_effect data_tmp offset start_idx lengths st st' :
  window_samples cfg data_tmp offset start_idx
    (where_ (fun l => 1 <=? l) lengths) (where_ (fun l => l <? 1) lengths) st
  = Some (tt, st') ->
  objs st' = objs st /\ draws st' = draws st + nb_inference_samples cfg /\
  (forall c r i, int_slot st' c r i = int_slot st c r i) /\
  (forall k L t, lengths !! k = Some L -> t < nb_inference_samples cfg ->
     window_slot data_tmp offset start_idx st st' k L t) /\
  (forall c r t,
     c <> window_key offset \/ nb_inference_samples cfg <= t \/
     (forall k, k < length lengths -> r <> start_idx + k) ->
     slot st' c r t = slot st c r t /\ times_written st' c r t = times_written st c r t).
Proof.
  unfold window_samples. intros Hrun.
  set (inb := where_ (fun l => 1 <=? l) lengths) in *.
  set (oob := where_ (fun l => l <? 1) lengths) in *.
  assert (Hdisj : forall k, k ∈ inb -> k ∉ oob).
  { intros k Hin Hout. apply elem_of_where in Hin as (L & HL & Hge).
    apply elem_of_where in Hout as (L' & HL' & Hlt). rewrite HL in HL'. injection HL' as <-.
    apply Nat.leb_le in Hge. apply Nat.ltb_lt in Hlt. lia. }
  assert (Hrange : forall k, k ∈ inb ++ oob -> k < length lengths).
  { intros k Hk. apply elem_of_app in Hk as [Hk | Hk];
      apply elem_of_where in Hk as (L & HL & _); eapply lookup_lt_Some, HL. }
  set (J := fun (i : nat) (s : State) =>
    objs s = objs st /\ draws s = draws st + i /\
    (forall c r t, int_slot s c r t = int_slot st c r t) /\
    (forall k L t, lengths !! k = Some L -> t < i ->
       window_slot data_tmp offset start_idx st s k L t) /\
    (forall c r t,
       c <> window_key offset \/ i <= t \/
       (forall k, k < length lengths -> r <> start_idx + k) ->
       slot s c r t = slot st c r t /\ times_written s c r t = times_written st c r t)).
  enough (HJ : J (nb_inference_samples cfg) st') by exact HJ.
  refine (for_each_seq_invariant _ J _ _ st st' _ Hrun).
  2:{ split; [reflexivity|]. split; [lia|]. split; [reflexivity|].
      split; [intros; lia | intros; split; reflexivity]. }
  intros i s s' Hi (Ho & Hd & Hint & Hdone & Hrest) Hstep.
  apply window_iteration in Hstep
    as (x & Hx & Ho' & Hd' & Hint' & Hinb & Hoob & Hother);
    [|apply NoDup_where|apply NoDup_where|exact Hdisj].
  assert (Hkeep : forall c r t,
    c <> window_key offset \/ t <> i \/
    (forall k, k < length lengths -> r <> start_idx + k) ->
    slot s' c r t = slot s c r t /\ times_written s' c r t = times_written s c r t).
  { intros c r t Hcase. apply Hother. intros k Hk Heq. injection Heq as -> -> ->.
    destruct Hcase as [Hc | [Ht | Hr]]; [congruence | congruence|].
    apply (Hr k (Hrange k Hk)). reflexivity. }
  split; [congruence|]. split; [lia|]. split; [intros; rewrite Hint'; apply Hint|].
  split.
  - intros k L t HL Ht. destruct (decide (t = i)) as [->|Hne].
    + destruct (Hrest (window_key offset) (start_idx + k) i) as [Hs0 Ht0];
        [right; left; lia|].
      destruct (Nat.le_gt_cases 1 L) as [Hge | Hlt].
      * assert (Hk : k ∈ inb).
        { apply elem_of_where. exists L. split; [exact HL | apply Nat.leb_le, Hge]. }
        destruct (Hinb k Hk) as (v & Hv & Hnew & Htw).
        split; [rewrite Htw, Ht0; reflexivity|]. split; [intros ->; lia|].
        intros _. exists x, v. rewrite Ho'. split; [exact Hx|].
        rewrite <- Hd. split; [exact Hv | exact Hnew].
      * assert (Hk : k ∈ oob).
        { apply elem_of_where. exists L. split; [exact HL | apply Nat.ltb_lt, Hlt]. }
        destruct (Hoob k Hk) as (old & Hold & Hnew & Htw).
        split; [rewrite Htw, Ht0; reflexivity|]. split; [|intros; lia].
        intros _. exists old. split; [rewrite <- Hs0; exact Hold | exact Hnew].
    + destruct (Hkeep (window_key offset) (start_idx + k) t) as [Hs1 Ht1];
        [right; left; exact Hne|].
      destruct (Hdone k L t HL ltac:(lia)) as (Htw & Hzero & Hpos).
      split; [rewrite Ht1; exact Htw|]. split.
      * intros HL0. destruct (Hzero HL0) as (old & Hold & Hnew).
        exists old. split; [exact Hold | rewrite Hs1; exact Hnew].
      * intros HL1. destruct (Hpos HL1) as (x' & v & Hx' & Hv & Hnew).
        exists x', v. rewrite Ho'. split; [exact Hx'|]. split; [exact Hv|].
        rewrite Hs1. exact Hnew.
  - intros c r t Hcase.
    destruct (Hkeep c r t) as [Hs1 Ht1].
    { destruct Hcase as [Hc | [Ht | Hr]];
        [left; exact Hc | right; left; lia | right; right; exact Hr]. }
    destruct (Hrest c r t) as [Hs0 Ht0].
    { destruct Hcase as [Hc | [Ht | Hr]];
        [left; exact Hc | right; left; lia | right; right; exact Hr]. }
    split; congruence.
Qed.

Lemma process_offset_effect data times peak_MJDs start_idx offset lengths st st' :
  process_offset cfg data times peak_MJDs start_idx offset st = Some (tt, st') ->
  window_lengths times peak_MJDs offset = Some lengths ->
  (exists n Ln, lengths !! n = Some Ln /\ 1 <= Ln) ->
  draws st' = draws st + nb_inference_samples cfg /\
  exists data_tmp,
    truncate_batch data lengths (objs st) = Some (data_tmp, objs st') /\
    forall k L t, lengths !! k = Some L -> t < nb_inference_samples cfg ->
      window_slot data_tmp offset start_idx st st' k L t.
Proof.
  intros Hrun Hlen (n & Ln & Hn & HLn). unfold process_offset in Hrun.
  change (mapM _ (imap pair times)) with (window_lengths times peak_MJDs offset) in Hrun.
  rewrite Hlen in Hrun. apply bind_Some in Hrun as (lengths' & st0 & Hl & Hrun).
  injection Hl as <- <-.
  assert (Hsome : (0 <? length (where_ (fun l => 1 <=? l) lengths)) = true).
  { apply Nat.ltb_lt. destruct (where_ _ lengths) as [|k' rest] eqn:E; [|simpl; lia].
    assert (Hin : n ∈ where_ (fun l => 1 <=? l) lengths).
    { apply elem_of_where. exists Ln. split; [exact Hn | apply Nat.leb_le, HLn]. }
    rewrite E in Hin. inversion Hin. }
  rewrite Hsome in Hrun.
  apply bind_Some in Hrun as (data_tmp & st1 & Htr & Hrun).
  apply lift_Some in Htr as (h1 & Htr & ->).
  apply window_samples_effect in Hrun as (Ho & Hd & _ & Hslots & _).
  cbn [objs draws] in Ho, Hd. split; [exact Hd|].
  exists data_tmp. rewrite Ho. split; [exact Htr | exact Hslots].
Qed.

(** X13: a window with at least one in-bounds example costs
    [nb_inference_samples] forward passes and assigns the slot of every
    example of the batch, for every draw, exactly once: not-a-number on
    every class when the example is out of bounds, and otherwise the row
    that the network returns for the example on the truncated batch at
    that draw. *)
Theorem window_slots_written data times peak_MJDs start_idx offset lengths st st' k L t :
  process_offset cfg data times peak_MJDs start_idx offset st = Some (tt, st') ->
  window_lengths times peak_MJDs offset = Some lengths ->
  (exists n Ln, lengths !! n = Some Ln /\ 1 <= Ln) ->
  lengths !! k = Some L ->
  t < nb_inference_samples cfg ->
  draws st' = draws st + nb_inference_samples cfg /\
  times_written st' (window_key offset) (start_idx + k) t
    = S (times_written st (window_key offset) (start_idx + k) t) /\
  (L = 0 -> exists old,
     slot st (window_key offset) (start_idx + k) t = Some old /\
     slot st' (window_key offset) (start_idx + k) t = Some (replicate (length old) NaN)) /\
  (1 <= L -> exists data_tmp x v,
     truncate_batch data lengths (objs st) = Some (data_tmp, objs st') /\
     read_inputs data_tmp (objs st') = Some (x, objs st') /\
     predict x (draws st + t) !! k = Some v /\
     slot st' (window_key offset) (start_idx + k) t = Some v).
Proof.
  intros Hrun Hlen Hsome HL Ht.
  destruct (process_offset_effect _ _ _ _ _ _ _ _ Hrun Hlen Hsome)
    as (Hd & data_tmp & Htr & Hslots).
  destruct (Hslots k L t HL Ht) as (Htw & Hzero & Hpos).
  split; [exact Hd|]. split; [exact Htw|]. split; [exact Hzero|].
  intros HL1. destruct (Hpos HL1) as (x & v & Hx & Hv & Hs).
  exists data_tmp, x, v. repeat split; assumption.
Qed.

(** A window writes its own column only, and costs
    [nb_inference_samples] forward passes or none. *)
Lemma process_offset_frame data times peak_MJDs start_idx offset st st' :
  process_offset cfg data times peak_MJDs start_idx offset st = Some (tt, st') ->
  (forall c r t, int_slot st' c r t = int_slot st c r t) /\
  (forall c r t, c <> window_key offset -> slot st' c r t = slot st c r t) /\
  (draws st' = draws st \/ draws st' = draws st + nb_inference_samples cfg).
Proof.
  unfold process_offset. intros Hrun.
  apply bind_Some in Hrun as (lengths & st0 & Hl & Hrun).
  unfold from_option in Hl. destruct (mapM _ _) as [lengths'|]; [|discriminate].
  injection Hl as <- <-.
  destruct (0 <? length _).
  - apply bind_Some in Hrun as (data_tmp & st1 & Htr & Hrun).
    apply lift_Some in Htr as (h1 & Htr & ->).
    apply window_samples_effect in Hrun as (_ & Hd & Hint & _ & Hrest).
    cbn [draws] in Hd. split; [exact Hint|]. split; [|right; exact Hd].
    intros c r t Hc. apply (Hrest c r t). left; exact Hc.
  - apply ret_Some in Hrun as [_ ->]. split; [reflexivity|].
    split; [reflexivity | left; reflexivity].
Qed.

Lemma offsets_draws data times peak_MJDs start_idx offsets : forall st st',
  for_each offsets (process_offset cfg data times peak_MJDs start_idx) st = Some (tt, st') ->
  draws st <= draws st' <= draws st + nb_inference_samples cfg * length offsets.
Proof.
  induction offsets as [|offset offsets IH]; intros st st' Hrun; simpl in Hrun.
  - apply ret_Some in Hrun as [_ ->]. lia.
  - apply bind_Some in Hrun as ([] & st1 & Hone & Hrest).
    apply process_offset_frame in Hone as (_ & _ & Hd). specialize (IH _ _ Hrest).
    cbn [length]. destruct Hd as [Hd | Hd]; rewrite Hd in IH; lia.
Qed.

Lemma imap_pair_keys {A} (l : list A) : (imap pair l).*1 = seq 0 (length l).
Proof.
  apply list_eq. intros i. rewrite list_lookup_fmap, list_lookup_imap.
  destruct (l !! i) as [x|] eqn:Hx; simpl.
  - symmetry. apply lookup_seq. split; [reflexivity | eapply lookup_lt_Some, Hx].
  - symmetry. apply lookup_seq_ge. apply lookup_ge_None in Hx. lia.
Qed.

Lemma elem_of_imap_pair {A} (l : list A) k x : (k, x) ∈ imap pair l <-> l !! k = Some x.
Proof.
  rewrite elem_of_lookup_imap. split.
  - intros (i & y & Heq & Hy). injection Heq as -> ->. exact Hy.
  - intros Hx. exists k, x. split; [reflexivity | exact Hx].
Qed.

Lemma assign_rows_effect col start_idx end_idx it arr st st' :
  assign_rows col start_idx end_idx it arr st = Some (tt, st') ->
  length arr = end_idx - start_idx /\
  objs st' = objs st /\ draws st' = draws st /\
  (forall c r i, int_slot st' c r i = int_slot st c r i) /\
  (forall k v, arr !! k = Some v -> slot st' col (start_idx + k) it = Some v) /\
  (forall c r i, c <> col \/ i <> it \/ (forall k, k < length arr -> r <> start_idx + k) ->
     slot st' c r i = slot st c r i).
Proof.
  unfold assign_rows. destruct (Nat.eqb_spec (length arr) (end_idx - start_idx)) as [Hlen|];
    [|discriminate].
  intros Hrun. split; [exact Hlen|].
  rewrite (for_each_ext _
    (fun x => set_slot col (start_idx + fst x) it (vector (snd x))))
    in Hrun by (intros [k v] s; reflexivity).
  apply set_slots_effect in Hrun as (Ho & Hd & Hint & Hin & Hout).
  2:{ rewrite imap_pair_keys. apply NoDup_seq. }
  split; [exact Ho|]. split; [exact Hd|]. split; [exact Hint|]. split.
  - intros k v Hk.
    destruct (Hin (k, v)) as (old & v' & _ & Hv & Hnew & _); [apply elem_of_imap_pair, Hk|].
    cbn [fst snd] in *. unfold vector in Hv. destruct (_ =? _); [|discriminate].
    injection Hv as <-. exact Hnew.
  - intros c r i Hcase. apply (Hout c r i). intros [k v] Hk Heq. cbn [fst] in Heq.
    injection Heq as -> -> ->. apply elem_of_imap_pair in Hk.
    destruct Hcase as [Hc | [Hi | Hr]]; [congruence | congruence|].
    apply (Hr k); [eapply lookup_lt_Some, Hk | reflexivity].
Qed.

Lemma assign_ints_effect col start_idx end_idx it arr st st' :
  assign_ints col start_idx end_idx it arr st = Some (tt, st') ->
  length arr = end_idx - start_idx /\
  objs st' = objs st /\ draws st' = draws st /\
  (forall c r i, slot st' c r i = slot st c r i) /\
  (forall k z, arr !! k = Some z -> int_slot st' col (start_idx + k) it = Some z) /\
  (forall c r i, c <> col \/ i <> it \/ (forall k, k < length arr -> r <> start_idx + k) ->
     int_slot st' c r i = int_slot st c r i).
Proof.
  unfold assign_ints. destruct (Nat.eqb_spec (length arr) (end_idx - start_idx)) as [Hlen|];
    [|discriminate].
  intros Hrun. split; [exact Hlen|].
  rewrite (for_each_ext _
    (fun x => set_int col (start_idx + fst x) it (snd x)))
    in Hrun by (intros [k v] s; reflexivity).
  apply set_ints_effect in Hrun as (Ho & Hd & Hslot & Hin & Hout).
  2:{ rewrite imap_pair_keys. apply NoDup_seq. }
  split; [exact Ho|]. split; [exact Hd|]. split; [exact Hslot|]. split.
  - intros k z Hk. apply (Hin (k, z)). apply elem_of_imap_pair, Hk.
  - intros c r i Hcase. apply (Hout c r i). intros [k v] Hk Heq. cbn [fst] in Heq.
    injection Heq as -> -> ->. apply elem_of_imap_pair in Hk.
    destruct Hcase as [Hc | [Hi | Hr]]; [congruence | congruence|].
    apply (Hr k); [eapply lookup_lt_Some, Hk | reflexivity].
Qed.

(** One draw of the full-light-curve pass (lines 346-351). *)
Lemma full_iteration data start_idx end_idx SNIDs i s s' :
  ('(arr_preds, arr_target) ← forward_pass data;
   _ ← assign_rows "all" start_idx end_idx i arr_preds;
   _ ← assign_ints "target" start_idx end_idx i arr_target;
   assign_ints "SNID" start_idx end_idx i SNIDs) s = Some (tt, s') ->
  exists x targets,
    read_inputs data (objs s) = Some (x, objs s) /\
    list_get data "X_target" (objs s) = Some (targets, objs s) /\
    length (predict x (draws s)) = end_idx - start_idx /\
    length targets = end_idx - start_idx /\
    length SNIDs = end_idx - start_idx /\
    objs s' = objs s /\ draws s' = S (draws s) /\
    (forall k id, SNIDs !! k = Some id -> int_slot s' "SNID" (start_idx + k) i = Some id) /\
    (forall k z, targets !! k = Some z -> int_slot s' "target" (start_idx + k) i = Some z) /\
    (forall k v, predict x (draws s) !! k = Some v ->
       slot s' "all" (start_idx + k) i = Some v) /\
    (forall c r t,
       (c <> "all" /\ c <> "target" /\ c <> "SNID") \/ t <> i \/
       (forall k, k < end_idx - start_idx -> r <> start_idx + k) ->
       int_slot s' c r t = int_slot s c r t /\ slot s' c r t = slot s c r t).
Proof.
  intros Hrun.
  apply bind_Some in Hrun as ([arr_preds arr_target] & s1 & Hfp & Hrun).
  apply forward_pass_Some in Hfp as (x & Hx & Ht & -> & Ho1 & Hd1 & Hw1 & Hdr1).
  apply bind_Some in Hrun as ([] & s2 & Hall & Hrun).
  apply bind_Some in Hrun as ([] & s3 & Htar & Hid).
  apply assign_rows_effect in Hall as (Hl2 & Ho2 & Hdr2 & Hint2 & Hin2 & Hout2).
  apply assign_ints_effect in Htar as (Hl3 & Ho3 & Hdr3 & Hslot3 & Hin3 & Hout3).
  apply assign_ints_effect in Hid as (Hl4 & Ho4 & Hdr4 & Hslot4 & Hin4 & Hout4).
  assert (Hs1 : forall c r t, slot s1 c r t = slot s c r t)
    by (intros; unfold slot; rewrite Hd1; reflexivity).
  assert (Hi1 : forall c r t, int_slot s1 c r t = int_slot s c r t)
    by (intros; unfold int_slot; rewrite Hd1; reflexivity).
  exists x, arr_target. split; [exact Hx|]. split; [exact Ht|].
  split; [exact Hl2|]. split; [exact Hl3|]. split; [exact Hl4|].
  split; [congruence|]. split; [congruence|]. split; [exact Hin4|]. split; [|split].
  - intros k z Hk. rewrite Hout4 by (left; discriminate). apply Hin3, Hk.
  - intros k v Hk. rewrite Hslot4, Hslot3. apply Hin2, Hk.
  - intros c r t Hcase. split.
    + rewrite Hout4, Hout3, Hint2; [apply Hi1| |].
      * destruct Hcase as [(_ & Hc & _) | [Ht' | Hr]];
          [left; exact Hc | right; left; exact Ht' | right; right].
        intros k Hk. apply Hr. lia.
      * destruct Hcase as [(_ & _ & Hc) | [Ht' | Hr]];
          [left; exact Hc | right; left; exact Ht' | right; right].
        intros k Hk. apply Hr. lia.
    + rewrite Hslot4, Hslot3, Hout2; [apply Hs1|].
      destruct Hcase as [(Hc & _) | [Ht' | Hr]];
        [left; exact Hc | right; left; exact Ht' | right; right].
      intros k Hk. apply Hr. lia.
Qed.

Lemma window_key_not_all offset : "all" <> window_key offset.
Proof. unfold window_key. discriminate. Qed.

Lemma process_batch_effect data start_idx st end_idx st' :
  process_batch cfg data start_idx st = Some (end_idx, st') ->
  exists SNIDs,
    list_get data "X_SNID" (objs st) = Some (SNIDs, objs st) /\
    end_idx = start_idx + length SNIDs /\
    (forall k id t, SNIDs !! k = Some id -> t < nb_inference_samples cfg ->
       full_slot data start_idx st st' k id t) /\
    (forall r t, r < start_idx \/ end_idx <= r \/ nb_inference_samples cfg <= t ->
       int_slot st' "SNID" r t = int_slot st "SNID" r t /\
       int_slot st' "target" r t = int_slot st "target" r t /\
       slot st' "all" r t = slot st "all" r t) /\
    draws st + nb_inference_samples cfg <= draws st'
      <= draws st + nb_inference_samples cfg * (1 + length (OFFSETS cfg)).
Proof.
  unfold process_batch. intros Hrun.
  apply bind_Some in Hrun as (SNIDs & st1 & Hids & Hrun).
  apply lift_Some in Hids as (h1 & Hids & ->).
  destruct (reads_list_get data "X_SNID" _ _ _ Hids) as [-> _].
  apply bind_Some in Hrun as (delta_times & st2 & Htimes & Hrun).
  apply lift_Some in Htimes as (h2 & Htimes & ->). cbn [objs d_pred writes draws] in *.
  destruct (reads_read_times data _ _ _ Htimes) as [-> _].
  apply bind_Some in Hrun as (peak_MJDs & st3 & Hpeaks & Hrun).
  unfold from_option in Hpeaks. destruct (mapM _ SNIDs) as [peaks|]; [|discriminate].
  injection Hpeaks as <- <-.
  apply bind_Some in Hrun as ([] & st4 & Hfull & Hrun).
  apply bind_Some in Hrun as ([] & st5 & Hwin & Hret).
  apply ret_Some in Hret as [-> ->].
  set (st0 := {| objs := objs st; d_pred := d_pred st; writes := writes st; draws := draws st |})
    in *.
  assert (Hst0 : forall k id t s, full_slot data start_idx st0 s k id t ->
                                  full_slot data start_idx st s k id t)
    by (intros k id t s Hf; exact Hf).
  set (B := length SNIDs).
  set (J := fun (i : nat) (s : State) =>
    objs s = objs st /\ draws s = draws st + i /\
    (forall k id t, SNIDs !! k = Some id -> t < i -> full_slot data start_idx st s k id t) /\
    (forall c r t,
       (c <> "all" /\ c <> "target" /\ c <> "SNID") \/ i <= t \/
       (forall k, k < B -> r <> start_idx + k) ->
       int_slot s c r t = int_slot st c r t /\ slot s c r t = slot st c r t)).
  assert (HJ : J (nb_inference_samples cfg) st4).
  { refine (for_each_seq_invariant _ J _ _ st0 st4 _ Hfull).
    2:{ split; [reflexivity|]. split; [simpl; lia|]. split; [intros; lia|].
        intros; split; reflexivity. }
    intros i s s' Hi (Ho & Hd & Hdone & Hrest) Hstep.
    apply full_iteration in Hstep
      as (x & targets & Hx & Ht & Hlp & Hlt & Hls & Ho' & Hd' & Hsn & Htg & Hal & Hother).
    replace (start_idx + length SNIDs - start_idx) with B in * by (unfold B; lia).
    split; [congruence|]. split; [lia|]. split.
    - intros k id t Hk Hlt'. destruct (decide (t = i)) as [->|Hne].
      + assert (HkB : k < B) by (eapply lookup_lt_Some, Hk).
        destruct (lookup_lt_is_Some_2 targets k) as [z Hz]; [lia|].
        destruct (lookup_lt_is_Some_2 (predict x (draws s)) k) as [v Hv]; [lia|].
        split; [apply (Hsn k id Hk)|]. split.
        * exists targets, z. rewrite <- Ho. split; [exact Ht|]. split; [exact Hz|].
          apply (Htg k z Hz).
        * exists x, v. rewrite <- Ho, <- Hd. split; [exact Hx|]. split; [exact Hv|].
          apply (Hal k v Hv).
      + destruct (Hdone k id t Hk ltac:(lia))
          as (H1 & (tg & z & H2 & H3 & H4) & (x' & v & H5 & H6 & H7)).
        destruct (Hother "SNID" (start_idx + k) t) as [Ha _]; [right; left; exact Hne|].
        destruct (Hother "target" (start_idx + k) t) as [Hb _]; [right; left; exact Hne|].
        destruct (Hother "all" (start_idx + k) t) as [_ Hc]; [right; left; exact Hne|].
        split; [congruence|]. split.
        * exists tg, z. split; [exact H2|]. split; [exact H3 | congruence].
        * exists x', v. split; [exact H5|]. split; [exact H6 | congruence].
    - intros c r t Hcase.
      destruct (Hother c r t) as [Ha Hb].
      { destruct Hcase as [Hc | [Ht' | Hr]];
          [left; exact Hc | right; left; lia | right; right; exact Hr]. }
      destruct (Hrest c r t) as [Ha' Hb'].
      { destruct Hcase as [Hc | [Ht' | Hr]];
          [left; exact Hc | right; left; lia | right; right; exact Hr]. }
      split; congruence. }
  assert (Hkeep : (forall c r t, int_slot st5 c r t = int_slot st4 c r t) /\
                  (forall r t, slot st5 "all" r t = slot st4 "all" r t)).
  { refine (for_each_invariant _
      (fun s => (forall c r t, int_slot s c r t = int_slot st4 c r t) /\
                (forall r t, slot s "all" r t = slot st4 "all" r t)) _ _ _ _ _ Hwin).
    - intros offset s s' _ [Hi Hs] Hstep.
      apply process_offset_frame in Hstep as (Hi' & Hs' & _).
      split; [intros; rewrite Hi'; apply Hi|].
      intros r t. rewrite Hs' by apply window_key_not_all. apply Hs.
    - split; reflexivity. }
  pose proof (offsets_draws _ _ _ _ _ _ _ Hwin) as Hdraws.
  destruct Hkeep as [Hint5 Hall5]. destruct HJ as (_ & Hd4 & Hdone & Hrest).
  exists SNIDs. split; [exact Hids|]. split; [reflexivity|]. split; [|split; [|lia]].
  - intros k id t Hk Ht.
    destruct (Hdone k id t Hk Ht) as (H1 & (tg & z & H2 & H3 & H4) & (x' & v & H5 & H6 & H7)).
    split; [rewrite Hint5; exact H1|]. split.
    + exists tg, z. split; [exact H2|]. split; [exact H3 | rewrite Hint5; exact H4].
    + exists x', v. split; [exact H5|]. split; [exact H6 | rewrite Hall5; exact H7].
  - intros r t Hcase.
    assert (Hc : (forall c, int_slot st4 c r t = int_slot st c r t) /\
                 slot st4 "all" r t = slot st "all" r t).
    { split; [intros c|]; apply (Hrest _ r t);
        (destruct Hcase as [Hr | [Hr | Ht]];
          [right; right; intros k Hk; lia | right; right; intros k Hk; unfold B in Hk; lia
          | right; left; exact Ht]). }
    destruct Hc as [Hci Hcs].
    rewrite !Hint5, Hall5, !Hci, Hcs. repeat split.
Qed.

(** X14: after a batch, row [start_idx + k] of ["SNID"], ["target"] and
    ["all"] holds, for every draw, the identifier, the target and the
    network's row (on the untruncated batch, at that draw) of example [k]
    of the batch; [end_idx] is [start_idx] plus the batch size; and the
    rows of other batches are left as they were. *)
Theorem full_pass_rows_aligned data start_idx st end_idx st' k t :
  process_batch cfg data start_idx st = Some (end_idx, st') ->
  t < nb_inference_samples cfg ->
  exists SNIDs,
    list_get data "X_SNID" (objs st) = Some (SNIDs, objs st) /\
    end_idx = start_idx + length SNIDs /\
    (forall id, SNIDs !! k = Some id ->
       int_slot st' "SNID" (start_idx + k) t = Some id /\
       (exists targets z,
          list_get data "X_target" (objs st) = Some (targets, objs st) /\
          targets !! k = Some z /\
          int_slot st' "target" (start_idx + k) t = Some z) /\
       (exists x v,
          read_inputs data (objs st) = Some (x, objs st) /\
          predict x (draws st + t) !! k = Some v /\
          slot st' "all" (start_idx + k) t = Some v)) /\
    (forall r, r < start_idx \/ end_idx <= r ->
       int_slot st' "SNID" r t = int_slot st "SNID" r t /\
       int_slot st' "target" r t = int_slot st "target" r t /\
       slot st' "all" r t = slot st "all" r t).
Proof.
  intros Hrun Ht.
  destruct (process_batch_effect _ _ _ _ _ Hrun) as (SNIDs & Hids & Hend & Hrows & Hframe & _).
  exists SNIDs. split; [exact Hids|]. split; [exact Hend|]. split.
  - intros id Hk. exact (Hrows k id t Hk Ht).
  - intros r Hr. apply Hframe. destruct Hr as [Hr | Hr]; [left | right; left]; exact Hr.
Qed.

(** X15: a batch costs at least [nb_inference_samples] forward passes, for
    the full light curves, and at most [nb_inference_samples] more for
    each offset. *)
Theorem batch_forward_passes data start_idx st end_idx st' :
  process_batch cfg data start_idx st = Some (end_idx, st') ->
  draws st + nb_inference_samples cfg <= draws st'
    <= draws st + nb_inference_samples cfg * (1 + length (OFFSETS cfg)).
Proof.
  intros Hrun.
  destruct (process_batch_effect _ _ _ _ _ Hrun) as (SNIDs & _ & _ & _ & _ & Hd).
  exact Hd.
Qed.

(** X16: a window in which every example of the batch is out of bounds is
    skipped: [d_pred], the store and the number of forward passes are
    left exactly as they were. *)
Theorem out_of_bounds_window_skipped data times peak_MJDs start_idx offset lengths st :
  window_lengths times peak_MJDs offset = Some lengths ->
  Forall (fun L => L = 0) lengths ->
  process_offset cfg data times peak_MJDs start_idx offset st = Some (tt, st).
Proof.
  intros Hlen Hzero. unfold process_offset.
  change (mapM _ (imap pair times)) with (window_lengths times peak_MJDs offset).
  rewrite Hlen. unfold mbind, M_bind, from_option.
  rewrite (where_nil (fun l => 1 <=? l) lengths); [reflexivity|].
  eapply Forall_impl; [exact Hzero|]. intros L ->. reflexivity.
Qed.

End Loop.

Lemma out_of_bounds_window_skipped_witness :
  window_lengths [[1; 3; 6]; [1; 2; 3]]%Q [0; 3]%Q (-2) = Some [0; 0] /\
  @process_offset constant_model test_setup test_data
    [[1; 3; 6]; [1; 2; 3]]%Q [0; 3]%Q 0 (-2) test_start
  = Some (tt, test_start).
Proof.
  assert (Hlen : window_lengths [[1; 3; 6]; [1; 2; 3]]%Q [0; 3]%Q (-2) = Some [0; 0])
    by reflexivity.
  split; [exact Hlen|].
  apply (@out_of_bounds_window_skipped constant_model test_setup
           test_data _ _ 0 (-2)%Z [0; 0] test_start Hlen).
  repeat constructor.
Defined.

(** The window of offset -1 on the example batch: the first light curve
    is out of bounds, the second in bounds. *)
Lemma window_slots_written_witness :
  exists st',
    @process_offset constant_model test_setup test_data test_times test_peaks 0 (-1) test_start
      = Some (tt, st') /\
    window_lengths test_times test_peaks (-1) = Some [0; 1] /\
    draws st' = draws test_start + 2 /\
    times_written st' (window_key (-1)) (0 + 0) 0
      = S (times_written test_start (window_key (-1)) (0 + 0) 0).
Proof.
  assert (Hrun :
    match @process_offset constant_model test_setup test_data test_times test_peaks 0 (-1)
            test_start with
    | Some x => True
    | None => False
    end) by (vm_compute; exact I).
  apply (option_match_inv _ (fun _ => True)) in Hrun.
  destruct Hrun as ([[] st'] & E & _).
  assert (Hlen : window_lengths test_times test_peaks (-1) = Some [0; 1]) by reflexivity.
  exists st'. split; [exact E|]. split; [exact Hlen|].
  destruct (@window_slots_written constant_model test_setup test_data test_times test_peaks
              0 (-1)%Z [0; 1] test_start st' 0 0 0 E Hlen)
    as (Hd & Htw & _); [exists 1, 1; split; [reflexivity | lia] | reflexivity | simpl; lia|].
  split; [exact Hd | exact Htw].
Defined.

Lemma full_pass_rows_aligned_witness :
  exists end_idx st',
    @process_batch constant_model test_setup test_data 0 test_start = Some (end_idx, st') /\
    int_slot st' "SNID" (0 + 1) 0 = Some 8%Z.
Proof.
  assert (Hrun :
    match @process_batch constant_model test_setup test_data 0 test_start with
    | Some x => True
    | None => False
    end) by (vm_compute; exact I).
  apply (option_match_inv _ (fun _ => True)) in Hrun.
  destruct Hrun as ([end_idx st'] & E & _).
  exists end_idx, st'. split; [exact E|].
  destruct (@full_pass_rows_aligned constant_model test_setup test_data 0 test_start
              end_idx st' 1 0 E) as (SNIDs & Hids & _ & Hrows & _); [simpl; lia|].
  assert (Hget : list_get test_data "X_SNID" (objs test_start)
                 = Some ([7; 8]%Z, objs test_start)) by (vm_compute; reflexivity).
  rewrite Hget in Hids. injection Hids as <-.
  exact (proj1 (Hrows 8%Z eq_refl)).
Defined.

Lemma batch_forward_passes_witness :
  exists end_idx st',
    @process_batch constant_model test_setup test_data 0 test_start = Some (end_idx, st') /\
    draws test_start + 2 <= draws st' <= draws test_start + 2 * (1 + 5).
Proof.
  assert (Hrun :
    match @process_batch constant_model test_setup test_data 0 test_start with
    | Some x => True
    | None => False
    end) by (vm_compute; exact I).
  apply (option_match_inv _ (fun _ => True)) in Hrun.
  destruct Hrun as ([end_idx st'] & E & _).
  exists end_idx, st'. split; [exact E|].
  exact (@batch_forward_passes constant_model test_setup test_data 0 test_start end_idx st' E).
Defined.

(** *** The windows of a batch do not see each other *)

Lemma for_each_app {S A} (f : A -> M S unit) (l1 l2 : list A) : forall st st',
  for_each (l1 ++ l2) f st = Some (tt, st') ->
  exists st1, for_each l1 f st = Some (tt, st1) /\ for_each l2 f st1 = Some (tt, st').
Proof.
  induction l1 as [|x l1 IH]; intros st st' Hrun.
  - exists st. split; [reflexivity | exact Hrun].
  - change ((x :: l1) ++ l2) with (x :: (l1 ++ l2)) in Hrun. cbn [for_each] in Hrun |- *.
    apply bind_Some in Hrun as ([] & st0 & Hx & Hrest).
    destruct (IH _ _ Hrest) as (st1 & H1 & H2).
    exists st1. split; [|exact H2].
    unfold mbind, M_bind. rewrite Hx. exact H1.
Qed.

Lemma lookup_tensor_weaken h0 h d key r :
  h0 ⊆ h -> lookup_tensor h0 d key = Some r -> lookup_tensor h d key = Some r.
Proof.
  unfold lookup_tensor. intros Hsub Hr.
  destruct (tensor_get d key h0) as [[r0 h1]|] eqn:Hget; [|discriminate].
  simpl in Hr. injection Hr as ->.
  destruct (reads_tensor_get d key h0 r h1 Hget) as [_ Hmono].
  rewrite (Hmono h Hsub). reflexivity.
Qed.

Lemma cell_at_weaken h0 h r rows n t :
  h0 ⊆ h -> h0 !! storage r = Some (OStorage rows) -> cell_at h r n t = cell_at h0 r n t.
Proof.
  intros Hsub Hrows. unfold cell_at.
  rewrite Hrows, (lookup_weaken _ _ _ _ Hrows Hsub). reflexivity.
Qed.

(** A truncation made in a store that extends the one the batch came in
    is a truncation of the batch as it came. *)
Lemma truncate_batch_of_source h0 h data lengths data_tmp h' :
  h0 ⊆ h ->
  truncate_batch data lengths h = Some (data_tmp, h') ->
  truncation_of h0 data lengths h' data_tmp.
Proof.
  intros Hsub Hrun key r' r rows Hkey Hr' Hr Hrows.
  destruct (truncate_batch_contents data lengths h data_tmp h' key r' Hrun Hkey Hr')
    as (r2 & Hr2 & Hn & Hcells).
  rewrite (lookup_tensor_weaken _ _ _ _ _ Hsub Hr) in Hr2. injection Hr2 as <-.
  split; [exact Hn|]. intros n L t HL Ht.
  rewrite (Hcells rows n L t (lookup_weaken _ _ _ _ Hrows Hsub) HL Ht).
  rewrite (cell_at_weaken h0 h r rows n t Hsub Hrows). reflexivity.
Qed.

Section Isolation.
Context `{Model}.
Variable cfg : Setup.

Lemma assign_rows_objs col s e it arr st u st' :
  assign_rows col s e it arr st = Some (u, st') -> objs st' = objs st.
Proof.
  unfold assign_rows. destruct (length arr =? e - s); [|discriminate].
  destruct u. intros Hrun.
  refine (for_each_invariant _ (fun s' => objs s' = objs st) _ _ _ _ eq_refl Hrun).
  intros [k v] s1 s2 _ H1 Hs. apply set_slot_Some in Hs as (-> & _). exact H1.
Qed.

Lemma assign_ints_objs col s e it arr st u st' :
  assign_ints col s e it arr st = Some (u, st') -> objs st' = objs st.
Proof.
  unfold assign_ints. destruct (length arr =? e - s); [|discriminate].
  destruct u. intros Hrun.
  refine (for_each_invariant _ (fun s' => objs s' = objs st) _ _ _ _ eq_refl Hrun).
  intros [k v] s1 s2 _ H1 Hs. apply set_int_Some in Hs as (-> & _). exact H1.
Qed.

(** A batch is its full-light-curve pass, which leaves the store as it
    is, followed by its windows. *)
Lemma process_batch_windows data start_idx st end_idx st' :
  process_batch cfg data start_idx st = Some (end_idx, st') ->
  exists SNIDs delta_times peak_MJDs st0,
    list_get data "X_SNID" (objs st) = Some (SNIDs, objs st) /\
    read_times data (objs st) = Some (delta_times, objs st) /\
    mapM (fun id => df_SNinfo cfg !! id) SNIDs = Some peak_MJDs /\
    objs st0 = objs st /\
    for_each (OFFSETS cfg)
      (process_offset cfg data (cumsum <$> delta_times) peak_MJDs start_idx) st0
      = Some (tt, st').
Proof.
  unfold process_batch. intros Hrun.
  apply bind_Some in Hrun as (SNIDs & st1 & Hids & Hrun).
  apply lift_Some in Hids as (h1 & Hids & ->).
  destruct (reads_list_get data "X_SNID" _ _ _ Hids) as [-> _].
  apply bind_Some in Hrun as (delta_times & st2 & Htimes & Hrun).
  apply lift_Some in Htimes as (h2 & Htimes & ->). cbn [objs d_pred writes draws] in *.
  destruct (reads_read_times data _ _ _ Htimes) as [-> _].
  apply bind_Some in Hrun as (peak_MJDs & st3 & Hpeaks & Hrun).
  unfold from_option in Hpeaks.
  destruct (mapM _ SNIDs) as [peaks|] eqn:Hp; [|discriminate].
  injection Hpeaks as <- <-.
  apply bind_Some in Hrun as ([] & st4 & Hfull & Hrun).
  apply bind_Some in Hrun as ([] & st5 & Hwin & Hret).
  apply ret_Some in Hret as [-> ->].
  exists SNIDs, delta_times, peaks, st4.
  split; [exact Hids|]. split; [exact Htimes|]. split; [exact Hp|]. split; [|exact Hwin].
  refine (for_each_invariant _ (fun s => objs s = objs st) _ _ _ _ _ Hfull); [|reflexivity].
  intros iter_ s1 s2 _ H1 Hs.
  apply bind_Some in Hs as ([arr_preds arr_target] & s3 & Hfp & Hs).
  apply forward_pass_Some in Hfp as (x & _ & _ & _ & Ho3 & _).
  apply bind_Some in Hs as (u1 & s4 & Ha & Hs). apply assign_rows_objs in Ha.
  apply bind_Some in Hs as (u2 & s5 & Hb & Hs). apply assign_ints_objs in Hb.
  destruct u1, u2. apply assign_ints_objs in Hs. congruence.
Qed.

(** C9: a batch leaves every object that existed before it untouched, the
    source batch and its tensors among them, so the network is given for
    the full light curves what it was given before the windows.  Every
    window with an in-bounds example, wherever it stands among the
    offsets, truncates a copy of its own: the copy and the storages of
    its tensors are objects that the store did not have when the window
    began, so neither the source nor the copy of an earlier window; its
    content is the truncation of the source as the batch came, whatever
    the windows before it did; and the windows after it leave it as it
    is. *)
Theorem windows_leave_source_untouched data start_idx st end_idx st' :
  process_batch cfg data start_idx st = Some (end_idx, st') ->
  (forall l o, objs st !! l = Some o -> objs st' !! l = Some o) /\
  (forall x, read_inputs data (objs st) = Some (x, objs st) ->
             read_inputs data (objs st') = Some (x, objs st')) /\
  exists SNIDs delta_times peak_MJDs st0,
    list_get data "X_SNID" (objs st) = Some (SNIDs, objs st) /\
    read_times data (objs st) = Some (delta_times, objs st) /\
    mapM (fun id => df_SNinfo cfg !! id) SNIDs = Some peak_MJDs /\
    objs st0 = objs st /\
    forall before offset after lengths,
      OFFSETS cfg = before ++ offset :: after ->
      window_lengths (cumsum <$> delta_times) peak_MJDs offset = Some lengths ->
      (exists n Ln, lengths !! n = Some Ln /\ 1 <= Ln) ->
      exists st1 st2 data_tmp,
        for_each before
          (process_offset cfg data (cumsum <$> delta_times) peak_MJDs start_idx) st0
          = Some (tt, st1) /\
        process_offset cfg data (cumsum <$> delta_times) peak_MJDs start_idx offset st1
          = Some (tt, st2) /\
        for_each after
          (process_offset cfg data (cumsum <$> delta_times) peak_MJDs start_idx) st2
          = Some (tt, st') /\
        truncate_batch data lengths (objs st1) = Some (data_tmp, objs st2) /\
        private (objs st1) (objs st2) data_tmp /\
        truncation_of (objs st) data lengths (objs st2) data_tmp /\
        (forall l o, objs st2 !! l = Some o -> objs st' !! l = Some o).
Proof.
  intros Hrun.
  pose proof (advances_process_batch cfg data start_idx st end_idx st' Hrun) as Hsub.
  split; [intros l o Hl; exact (lookup_weaken _ _ _ _ Hl Hsub)|].
  split.
  { intros x Hx. destruct (reads_read_inputs data _ _ _ Hx) as [_ Hx']. apply Hx', Hsub. }
  destruct (process_batch_windows _ _ _ _ _ Hrun)
    as (SNIDs & delta_times & peak_MJDs & st0 & Hids & Htimes & Hpeaks & Ho0 & Hwin).
  exists SNIDs, delta_times, peak_MJDs, st0.
  split; [exact Hids|]. split; [exact Htimes|]. split; [exact Hpeaks|]. split; [exact Ho0|].
  intros before offset after lengths Hsplit Hlen Hsome.
  rewrite Hsplit in Hwin.
  apply for_each_app in Hwin as (st1 & Hbefore & Hrest).
  cbn [for_each] in Hrest. apply bind_Some in Hrest as ([] & st2 & Hone & Hafter).
  pose proof (advances_for_each before _
    (advances_process_offset cfg data _ peak_MJDs start_idx) st0 tt st1 Hbefore) as Hsub1.
  pose proof (advances_for_each after _
    (advances_process_offset cfg data _ peak_MJDs start_idx) st2 tt st' Hafter) as Hsub2.
  destruct (process_offset_effect cfg _ _ _ _ _ _ _ _ Hone Hlen Hsome)
    as (_ & data_tmp & Htr & _).
  exists st1, st2, data_tmp.
  split; [exact Hbefore|]. split; [exact Hone|]. split; [exact Hafter|].
  split; [exact Htr|]. split; [apply truncate_batch_private in Htr; exact Htr|].
  split.
  - rewrite Ho0 in Hsub1. exact (truncate_batch_of_source _ _ _ _ _ _ Hsub1 Htr).
  - intros l o Hl. exact (lookup_weaken _ _ _ _ Hl Hsub2).
Qed.

End Isolation.

(** The example batch: the window of offset -1, the second of five, has
    lengths 0 and 1. *)
Lemma windows_leave_source_untouched_witness :
  exists end_idx st',
    @process_batch Examples.constant_model Examples.test_setup
      Examples.test_data 0 Examples.test_start = Some (end_idx, st') /\
    (forall l o, Examples.test_heap !! l = Some o -> objs st' !! l = Some o) /\
    exists st1 st2 data_tmp,
      truncate_batch Examples.test_data [0; 1] (objs st1) = Some (data_tmp, objs st2) /\
      private (objs st1) (objs st2) data_tmp /\
      truncation_of Examples.test_heap Examples.test_data [0; 1] (objs st2) data_tmp.
Proof.
  assert (Hrun :
    match @process_batch Examples.constant_model Examples.test_setup
            Examples.test_data 0 Examples.test_start with
    | Some x => True
    | None => False
    end) by (vm_compute; exact I).
  apply (option_match_inv _ (fun _ => True)) in Hrun.
  destruct Hrun as ([end_idx st'] & E & _).
  exists end_idx, st'. split; [exact E|].
  destruct (@windows_leave_source_untouched Examples.constant_model
              Examples.test_setup Examples.test_data 0 Examples.test_start end_idx st' E)
    as (Hobjs & _ & SNIDs & delta_times & peak_MJDs & st0 & Hids & Htimes & Hpeaks & _ & Hw).
  split; [exact Hobjs|].
  assert (Hi : list_get Examples.test_data "X_SNID" Examples.test_heap
               = Some ([7; 8]%Z, Examples.test_heap)) by (vm_compute; reflexivity).
  assert (Ht : read_times Examples.test_data Examples.test_heap
               = Some ([[1; 2; 3]; [1; 1; 1]]%Q, Examples.test_heap))
    by (vm_compute; reflexivity).
  change (objs Examples.test_start) with Examples.test_heap in Hids, Htimes.
  rewrite Hi in Hids. injection Hids as <-.
  rewrite Ht in Htimes. injection Htimes as <-.
  assert (Hp : mapM (fun id => df_SNinfo Examples.test_setup !! id) [7; 8]%Z
               = Some [0; 3]%Q) by (vm_compute; reflexivity).
  rewrite Hp in Hpeaks. injection Hpeaks as <-.
  destruct (Hw [-2]%Z (-1)%Z [0; 1; 2]%Z [0; 1] eq_refl) as (st1 & st2 & d & H1).
  - vm_compute. reflexivity.
  - exists 1, 1. split; [reflexivity | lia].
  - destruct H1 as (_ & _ & _ & Htr & Hpriv & Hof & _).
    exists st1, st2, d. split; [exact Htr|]. split; [exact Hpriv | exact Hof].
Defined.

End WindowFacts.

(** ** The identifiers over the batches of a run *)

Module RunFacts.
Import Truncation Store Inference StoreFacts InferenceFacts WindowFacts Examples.

Lemma batch_ids_cons h data rest ids :
  batch_ids h (data :: rest) = Some ids <->
  exists SNIDs ids', list_get data "X_SNID" h = Some (SNIDs, h) /\
    batch_ids h rest = Some ids' /\ ids = SNIDs ++ ids'.
Proof.
  unfold batch_ids. cbn [mapM]. split.
  - destruct (list_get data "X_SNID" h) as [[SNIDs h1]|] eqn:Hget; [|discriminate].
    destruct (reads_list_get data "X_SNID" _ _ _ Hget) as [-> _].
    cbn [fmap option_fmap option_map fst mbind option_bind].
    destruct (mapM _ rest) as [idss|]; [|discriminate].
    cbn [mbind option_bind mret option_ret concat]. intros [= <-].
    exists SNIDs, (concat idss). repeat split.
  - intros (SNIDs & ids' & Hget & Hrest & ->). rewrite Hget.
    cbn [fmap option_fmap option_map fst mbind option_bind].
    destruct (mapM _ rest) as [idss|]; [|discriminate].
    cbn [mbind option_bind mret option_ret concat] in *. congruence.
Qed.

Lemma batch_ids_mono h h' batches ids :
  h ⊆ h' -> batch_ids h batches = Some ids -> batch_ids h' batches = Some ids.
Proof.
  intros Hsub. revert ids. induction batches as [|data rest IH]; intros ids Hids.
  - exact Hids.
  - apply batch_ids_cons in Hids as (SNIDs & ids' & Hget & Hrest & ->).
    apply batch_ids_cons. exists SNIDs, ids'.
    destruct (reads_list_get data "X_SNID" _ _ _ Hget) as [_ Hmono].
    split; [apply Hmono, Hsub|]. split; [apply IH, Hrest | reflexivity].
Qed.

Section Loop.
Context `{Model}.
Variable cfg : Setup.

(** After the batches, row [start_idx + n] of the identifier array holds
    the [n]-th identifier, on every sample; the other rows are as
    before. *)
Lemma predict_batches_ids batches : forall start_idx st st' ids,
  predict_batches cfg batches start_idx st = Some (tt, st') ->
  batch_ids (objs st) batches = Some ids ->
  (forall n id t, ids !! n = Some id -> t < nb_inference_samples cfg ->
     int_slot st' "SNID" (start_idx + n) t = Some id) /\
  (forall r t, r < start_idx \/ start_idx + length ids <= r \/ nb_inference_samples cfg <= t ->
     int_slot st' "SNID" r t = int_slot st "SNID" r t).
Proof.
  induction batches as [|data rest IH]; intros start_idx st st' ids Hrun Hids.
  - simpl in Hrun. apply ret_Some in Hrun as [_ ->].
    injection Hids as <-. split; [intros n id t Hn; discriminate | reflexivity].
  - simpl in Hrun. apply bind_Some in Hrun as (end_idx & st1 & Hbatch & Hrest).
    apply batch_ids_cons in Hids as (SNIDs & ids' & Hget & Hids' & ->).
    pose proof (advances_process_batch cfg data start_idx st end_idx st1 Hbatch) as Hsub.
    apply process_batch_effect in Hbatch as (SNIDs' & Hget' & -> & Hrows & Hframe & _).
    rewrite Hget in Hget'. injection Hget' as <-.
    destruct (IH _ _ _ ids' Hrest (batch_ids_mono _ _ _ _ Hsub Hids')) as (Hrows' & Hframe').
    split.
    + intros n id t Hn Ht. destruct (lookup_app_Some SNIDs ids' n id) as [Hcases _].
      destruct (Hcases Hn) as [Hfirst | [Hge Hlater]].
      * rewrite Hframe' by (left; apply lookup_lt_Some in Hfirst; lia).
        apply (Hrows n id t Hfirst Ht).
      * replace (start_idx + n) with (start_idx + length SNIDs + (n - length SNIDs)) by lia.
        apply (Hrows' _ id t Hlater Ht).
    + intros r t Hcase. rewrite length_app in Hcase.
      rewrite Hframe' by lia. apply Hframe. lia.
Qed.

End Loop.

End RunFacts.

(** ** Properties of [d_pred] that the run keeps *)

Module ShapeFacts.
Import Truncation Store Inference StoreFacts InferenceFacts WindowFacts RunFacts Examples.

Lemma keeps_ret P {A} (x : A) : keeps P (mret x).
Proof. intros st y st' HP Hrun. apply ret_Some in Hrun as [_ ->]. exact HP. Qed.

Lemma keeps_raise P {A} : keeps P (@raise State A).
Proof. intros st x st' _ Hrun. discriminate. Qed.

Lemma keeps_bind P {A B} (m : M State A) (f : A -> M State B) :
  keeps P m -> (forall x, keeps P (f x)) -> keeps P (m ≫= f).
Proof.
  intros Hm Hf st y st2 HP Hrun. apply bind_Some in Hrun as (x & st1 & Hx & Hy).
  exact (Hf x st1 y st2 (Hm st x st1 HP Hx) Hy).
Qed.

Lemma keeps_from_option P {A} (o : option A) : keeps P (from_option o).
Proof.
  intros st x st' HP. unfold from_option. destruct o as [y|]; [|discriminate].
  intros [= <- <-]. exact HP.
Qed.

Lemma keeps_for_each P {A} (l : list A) (f : A -> M State unit) :
  (forall x, keeps P (f x)) -> keeps P (for_each l f).
Proof.
  intros Hf. induction l as [|x l IH]; simpl.
  - apply keeps_ret.
  - apply keeps_bind; [apply Hf | intros _; exact IH].
Qed.

Lemma keeps_lift P {A} (m : M heap A) : keeps P (lift m).
Proof. intros st x st' HP Hrun. apply lift_Some in Hrun as (h' & _ & ->). exact HP. Qed.

Lemma keeps_next_draw P : keeps P next_draw.
Proof. intros st x st' HP. unfold next_draw. intros [= <- <-]. exact HP. Qed.

Lemma vector_length v old w : vector v old = Some w -> length w = length old.
Proof.
  unfold vector. destruct (Nat.eqb_spec (length v) (length old)); [|discriminate].
  intros [= <-]. assumption.
Qed.

Lemma broadcast_length x old w : broadcast x old = Some w -> length w = length old.
Proof. unfold broadcast. intros [= <-]. apply length_replicate. Qed.

(** A property of [d_pred] that every assignment of the loop keeps is
    kept by the run. *)
Section Keeps.
Context `{Model}.
Variable cfg : Setup.
Variable P : gmap string parray -> Prop.
Hypothesis keeps_set_slot : forall col row it new,
  (forall old v, new old = Some v -> length v = length old) ->
  keeps P (set_slot col row it new).
Hypothesis keeps_set_int : forall col row it z, keeps P (set_int col row it z).

Lemma keeps_forward_pass data : keeps P (forward_pass data).
Proof.
  unfold forward_pass.
  apply keeps_bind; [apply keeps_lift | intros x].
  apply keeps_bind; [apply keeps_lift | intros t].
  apply keeps_bind; [apply keeps_next_draw | intros k]. apply keeps_ret.
Qed.

Lemma keeps_process_offset data times peak_MJDs start_idx offset :
  keeps P (process_offset cfg data times peak_MJDs start_idx offset).
Proof.
  unfold process_offset.
  apply keeps_bind; [apply keeps_from_option | intros lengths].
  destruct (0 <? length _); [|apply keeps_ret].
  apply keeps_bind; [apply keeps_lift | intros data_tmp].
  unfold window_samples. apply keeps_for_each. intros iter_.
  apply keeps_bind; [apply keeps_forward_pass | intros [arr_preds t]].
  apply keeps_bind; [apply keeps_from_option | intros rows].
  apply keeps_bind.
  - apply keeps_for_each. intros [k v]. apply keeps_set_slot. apply vector_length.
  - intros _. apply keeps_for_each. intros k. apply keeps_set_slot. apply broadcast_length.
Qed.

Lemma keeps_process_batch data start_idx : keeps P (process_batch cfg data start_idx).
Proof.
  unfold process_batch.
  apply keeps_bind; [apply keeps_lift | intros SNIDs].
  apply keeps_bind; [apply keeps_lift | intros delta_times].
  apply keeps_bind; [apply keeps_from_option | intros peak_MJDs].
  apply keeps_bind.
  { apply keeps_for_each. intros iter_.
    apply keeps_bind; [apply keeps_forward_pass | intros [arr_preds arr_target]].
    apply keeps_bind.
    { unfold assign_rows. destruct (_ =? _); [|apply keeps_raise].
      apply keeps_for_each. intros [k v]. apply keeps_set_slot, vector_length. }
    intros _. apply keeps_bind.
    { unfold assign_ints. destruct (_ =? _); [|apply keeps_raise].
      apply keeps_for_each. intros [k v]. apply keeps_set_int. }
    intros _. unfold assign_ints. destruct (_ =? _); [|apply keeps_raise].
    apply keeps_for_each. intros [k v]. apply keeps_set_int. }
  intros _. apply keeps_bind; [|intros _; apply keeps_ret].
  apply keeps_for_each. intros offset. apply keeps_process_offset.
Qed.

Lemma keeps_predict_batches batches : forall start_idx,
  keeps P (predict_batches cfg batches start_idx).
Proof.
  induction batches as [|data rest IH]; intros start_idx; simpl.
  - apply keeps_ret.
  - apply keeps_bind; [apply keeps_process_batch | intros end_idx; apply IH].
Qed.

Lemma run_inference_keeps h batches st :
  P (init_d_pred cfg) -> run_inference cfg h batches = Some st -> P (d_pred st).
Proof.
  unfold run_inference. intros Hinit.
  destruct (predict_batches _ _ _ _) as [[[] st']|] eqn:Hrun; [|discriminate].
  intros [= <-]. refine (keeps_predict_batches batches 0 _ _ _ _ Hrun). exact Hinit.
Qed.

End Keeps.

Section Shapes.
Variable cfg : Setup.

Lemma init_well_shaped : well_shaped cfg (init_d_pred cfg).
Proof.
  intros key arr. unfold init_d_pred.
  assert (Hints : length (replicate (num_elem cfg) (replicate (nb_inference_samples cfg) 0%Z))
                  = num_elem cfg /\
                  Forall (fun samples : list Z => length samples = nb_inference_samples cfg)
                    (replicate (num_elem cfg) (replicate (nb_inference_samples cfg) 0%Z))).
  { split; [apply length_replicate|]. apply Forall_replicate, length_replicate. }
  destruct (decide (key = "SNID")) as [->|Hs].
  { rewrite lookup_insert_eq. intros [= <-]. exact Hints. }
  rewrite lookup_insert_ne by congruence.
  destruct (decide (key = "target")) as [->|Ht].
  { rewrite lookup_insert_eq. intros [= <-]. exact Hints. }
  rewrite lookup_insert_ne by congruence.
  intros Hk. apply elem_of_list_to_map_2 in Hk.
  apply list_elem_of_fmap in Hk as (k & [= _ ->] & _).
  split; [apply length_replicate|]. apply Forall_replicate.
  split; [apply length_replicate|]. apply Forall_replicate, length_replicate.
Qed.

Lemma set_slot_shape col row it new :
  (forall old v, new old = Some v -> length v = length old) ->
  keeps (well_shaped cfg) (set_slot col row it new).
Proof.
  intros Hnew st [] st' Hshape Hrun.
  apply set_slot_Some in Hrun as (_ & _ & _ & a & samples & old & v & Ha & Hs & Hold & Hv & ->).
  destruct (Hshape col _ Ha) as [Hlen Hall].
  pose proof (proj1 (Forall_lookup _ _) Hall row samples Hs) as [Hsl Hsv].
  intros key arr. destruct (decide (key = col)) as [->|Hne].
  - rewrite lookup_insert_eq. intros [= <-]. split; [rewrite length_insert; exact Hlen|].
    apply Forall_insert; [exact Hall|]. split; [rewrite length_insert; exact Hsl|].
    apply Forall_insert; [exact Hsv|].
    rewrite (Hnew old v Hv). exact (proj1 (Forall_lookup _ _) Hsv it old Hold).
  - rewrite lookup_insert_ne by congruence. apply Hshape.
Qed.

Lemma set_int_shape col row it z : keeps (well_shaped cfg) (set_int col row it z).
Proof.
  intros st [] st' Hshape Hrun. unfold set_int in Hrun.
  destruct (d_pred st !! col) as [[a|a]|] eqn:Ha; try discriminate.
  destruct (a !! row) as [samples|] eqn:Hs; [|discriminate]. simpl in Hrun.
  destruct (samples !! it) as [old|] eqn:Hold; [|discriminate]. simpl in Hrun.
  injection Hrun as <-. cbn [d_pred].
  destruct (Hshape col _ Ha) as [Hlen Hall].
  pose proof (proj1 (Forall_lookup _ _) Hall row samples Hs) as Hsl.
  intros key arr. destruct (decide (key = col)) as [->|Hne].
  - rewrite lookup_insert_eq. intros [= <-]. split; [rewrite length_insert; exact Hlen|].
    apply Forall_insert; [exact Hall|]. rewrite length_insert; exact Hsl.
  - rewrite lookup_insert_ne by congruence. apply Hshape.
Qed.

(** The assignments never add a key. *)
Lemma set_slot_keys col row it new key :
  keeps (fun d => d !! key = None) (set_slot col row it new).
Proof.
  intros st [] st' Hnone Hrun.
  apply set_slot_Some in Hrun as (_ & _ & _ & a & samples & old & v & Ha & _ & _ & _ & ->).
  rewrite lookup_insert_ne; [exact Hnone | congruence].
Qed.

Lemma set_int_keys col row it z key :
  keeps (fun d => d !! key = None) (set_int col row it z).
Proof.
  intros st [] st' Hnone Hrun. unfold set_int in Hrun.
  destruct (d_pred st !! col) as [[a|a]|] eqn:Ha; try discriminate.
  destruct (a !! row) as [samples|]; [|discriminate]. simpl in Hrun.
  destruct (samples !! it) as [old|]; [|discriminate]. simpl in Hrun.
  injection Hrun as <-. cbn [d_pred].
  rewrite lookup_insert_ne; [exact Hnone | congruence].
Qed.

Context `{Model}.

Lemma run_inference_shape h batches st :
  run_inference cfg h batches = Some st -> well_shaped cfg (d_pred st).
Proof.
  apply (run_inference_keeps cfg (well_shaped cfg));
    [intros; apply set_slot_shape; assumption | apply set_int_shape | apply init_well_shaped].
Qed.

Lemma run_inference_keys h batches st key :
  init_d_pred cfg !! key = None ->
  run_inference cfg h batches = Some st -> d_pred st !! key = None.
Proof.
  apply (run_inference_keeps cfg (fun d => d !! key = None));
    [intros; apply set_slot_keys | intros; apply set_int_keys].
Qed.

End Shapes.

End ShapeFacts.

(** ** The flattened frame after a run *)

Module FrameFacts.
Import Truncation Store Inference StoreFacts InferenceFacts.
Import WindowFacts RunFacts ShapeFacts Examples.
Import Aggregation AggregationFacts.

Lemma elem_of_concat {A} (x : A) (ls : list (list A)) :
  x ∈ concat ls <-> exists l, l ∈ ls /\ x ∈ l.
Proof.
  rewrite list_elem_of_In, in_concat. split.
  - intros (l & Hl & Hx). exists l. rewrite !list_elem_of_In. auto.
  - intros (l & Hl & Hx). exists l. rewrite <- !list_elem_of_In. auto.
Qed.

Lemma length_concat_uniform {A} (a : list (list A)) n :
  Forall (fun r => length r = n) a -> length (concat a) = length a * n.
Proof.
  induction 1 as [|r a Hr _ IH]; [reflexivity|].
  cbn [concat]. rewrite length_app, IH, Hr. simpl. lia.
Qed.

Lemma column_i_total rows i K :
  Forall (fun r : list float => length r = K) rows -> i < K ->
  exists cells, column_i rows i = Some cells /\ length cells = length rows.
Proof.
  intros Hrows Hi. unfold column_i.
  destruct (mapM_is_Some_2 (fun r : list float => r !! i) rows) as [cells Hcells].
  { eapply Forall_impl; [exact Hrows|]. intros r Hr. unfold compose.
    apply lookup_lt_is_Some. rewrite Hr. exact Hi. }
  exists cells. split; [exact Hcells | eapply mapM_length, Hcells].
Qed.

Section Frame.
Variable cfg : Setup.

(** Every column of the flattened frame comes from one array of
    [d_pred]. *)
Lemma flatten_elem d df name c :
  flatten cfg d = Some df -> df !! name = Some c ->
  exists key value cols,
    d !! key = Some value /\ flatten_entry cfg key value = Some cols /\ (name, c) ∈ cols.
Proof.
  unfold flatten. destruct (mapM _ (map_to_list d)) as [entries|] eqn:Hentries; [|discriminate].
  cbn. intros [= <-] Hname.
  apply elem_of_list_to_map_2 in Hname. apply elem_of_concat in Hname as (cols & Hcols & Hin).
  apply mapM_Some in Hentries.
  apply list_elem_of_lookup in Hcols as (n & Hn).
  destruct (Forall2_lookup_r _ _ _ _ _ Hentries Hn) as ([key value] & Hkv & Hfl).
  exists key, value, cols. split; [|split; assumption].
  apply elem_of_map_to_list. eapply list_elem_of_lookup_2, Hkv.
Qed.

Lemma flatten_entry_shaped key arr :
  0 < num_elem cfg * nb_inference_samples cfg -> 0 < nb_classes cfg ->
  match arr with
  | PFloat a =>
      length a = num_elem cfg /\
      Forall (fun samples =>
                length samples = nb_inference_samples cfg /\
                Forall (fun v => length v = nb_classes cfg) samples) a
  | PInt a =>
      length a = num_elem cfg /\
      Forall (fun samples => length samples = nb_inference_samples cfg) a
  end ->
  exists cols, flatten_entry cfg key arr = Some cols /\
    forall name c, (name, c) ∈ cols ->
      length (as_floats c) = num_elem cfg * nb_inference_samples cfg.
Proof.
  intros Hrows Hk Hshape. unfold flatten_entry.
  destruct (Nat.eqb_spec (num_elem cfg * nb_inference_samples cfg) 0) as [|_]; [lia|].
  destruct arr as [a|a].
  - destruct Hshape as [Hlen Hall].
    assert (Hcount : length (concat a) = num_elem cfg * nb_inference_samples cfg).
    { rewrite <- Hlen. apply length_concat_uniform.
      eapply Forall_impl; [exact Hall|]. intros r [Hr _]. exact Hr. }
    assert (Hwidth : Forall (fun r : list float => length r = nb_classes cfg) (concat a)).
    { apply Forall_concat. eapply Forall_impl; [exact Hall|]. intros r [_ Hr]. exact Hr. }
    destruct (Nat.eqb_spec (nb_classes cfg) 0) as [|_]; [lia|].
    destruct (Nat.eqb_spec (nb_classes cfg) 1) as [H1|_].
    + destruct (column_i_total (concat a) 0 _ Hwidth) as (cells & Hcells & Hl); [lia|].
      rewrite Hcells. cbn. eexists. split; [reflexivity|].
      intros name c Hin. apply list_elem_of_singleton in Hin. injection Hin as -> ->.
      simpl. congruence.
    + destruct (mapM_is_Some_2
        (fun i => cells ← column_i (concat a) i;
                  Some (key +:+ "_class" +:+ pretty i, FloatCol cells))
        (seq 0 (nb_classes cfg))) as [cols Hcols].
      { apply Forall_forall. intros i Hi. apply elem_of_seq in Hi.
        destruct (column_i_total (concat a) i _ Hwidth) as (cells & Hcells & _); [lia|].
        simpl. rewrite Hcells. cbn. eauto. }
      exists cols. split; [exact Hcols|].
      intros name c Hin. apply mapM_Some in Hcols.
      apply list_elem_of_lookup in Hin as (n & Hn).
      destruct (Forall2_lookup_r _ _ _ _ _ Hcols Hn) as (i & Hi & Hfi).
      apply lookup_seq in Hi as [-> Hi].
      destruct (column_i_total (concat a) n _ Hwidth) as (cells & Hcells & Hl); [lia|].
      simpl in Hfi. rewrite Hcells in Hfi. cbn in Hfi. injection Hfi as <- <-.
      simpl. congruence.
  - destruct Hshape as [Hlen Hall]. eexists. split; [reflexivity|].
    intros name c Hin. apply list_elem_of_singleton in Hin. injection Hin as -> ->.
    cbn [as_floats]. rewrite length_fmap, <- Hlen. apply length_concat_uniform, Hall.
Qed.

Lemma flatten_shaped d :
  well_shaped cfg d ->
  0 < num_elem cfg * nb_inference_samples cfg -> 0 < nb_classes cfg ->
  exists df, flatten cfg d = Some df /\
    forall name c, df !! name = Some c ->
      length (as_floats c) = num_elem cfg * nb_inference_samples cfg.
Proof.
  intros Hshape Hrows Hk.
  destruct (mapM_is_Some_2 (fun '(key, value) => flatten_entry cfg key value) (map_to_list d))
    as [entries Hentries].
  { apply Forall_forall. intros [key value] Hkv. apply elem_of_map_to_list in Hkv.
    destruct (flatten_entry_shaped key value Hrows Hk (Hshape key value Hkv)) as (cols & Hc & _).
    simpl. rewrite Hc. eauto. }
  assert (Hfl : flatten cfg d = Some (list_to_map (concat entries))).
  { unfold flatten. rewrite Hentries. reflexivity. }
  eexists. split; [exact Hfl|].
  intros name c Hname.
  destruct (flatten_elem d _ name c Hfl Hname) as (key & value & cols & Hkv & Hcols & Hin).
  destruct (flatten_entry_shaped key value Hrows Hk (Hshape key value Hkv)) as (cols' & Hc & Hl).
  rewrite Hcols in Hc. injection Hc as <-. apply (Hl name c Hin).
Qed.

(** The identifier column of the frame is the flattened identifier
    array. *)
Lemma flatten_ids d df l :
  flatten cfg d = Some df -> ids_of df = Some l ->
  exists a, d !! "SNID" = Some (PInt a) /\ l = concat a.
Proof.
  intros Hfl Hids. unfold ids_of in Hids.
  destruct (df !! "SNID") as [[?|l']|] eqn:Hcol; try discriminate. injection Hids as ->.
  destruct (flatten_elem d df _ _ Hfl Hcol) as (key & value & cols & Hkv & Hcols & Hin).
  unfold flatten_entry in Hcols.
  destruct (_ * _ =? 0); [discriminate|]. destruct value as [a|a].
  - exfalso. destruct (nb_classes cfg =? 0); [discriminate|].
    destruct (nb_classes cfg =? 1).
    + destruct (column_i (concat a) 0) as [cells|]; [|discriminate].
      cbn in Hcols. injection Hcols as <-.
      apply list_elem_of_singleton in Hin. discriminate.
    + apply mapM_Some in Hcols. apply list_elem_of_lookup in Hin as (n & Hn).
      destruct (Forall2_lookup_r _ _ _ _ _ Hcols Hn) as (i & _ & Hfi). cbn beta in Hfi.
      destruct (column_i (concat a) i) as [cells|]; [|discriminate]. discriminate.
  - injection Hcols as <-. apply list_elem_of_singleton in Hin. injection Hin as Hk Hl.
    subst key l. exists a. split; [exact Hkv | reflexivity].
Qed.

End Frame.

Lemma rows_replicated (a : list (list Z)) ids S :
  length a = length ids ->
  Forall (fun r => length r = S) a ->
  (forall n id t, ids !! n = Some id -> t < S ->
     exists r, a !! n = Some r /\ r !! t = Some id) ->
  a = replicate S <$> ids.
Proof.
  intros Hlen Hall Hrows. apply list_eq. intros n. rewrite list_lookup_fmap.
  destruct (ids !! n) as [id|] eqn:Hid; simpl.
  - destruct (lookup_lt_is_Some_2 a n) as [r Hr].
    { rewrite Hlen. eapply lookup_lt_Some, Hid. }
    rewrite Hr. f_equal.
    pose proof (proj1 (Forall_lookup _ _) Hall n r Hr) as Hlr. cbn beta in Hlr.
    apply list_eq. intros t. destruct (Nat.lt_ge_cases t S) as [Hlt | Hge].
    + destruct (Hrows n id t Hid Hlt) as (r' & Hr' & Ht). rewrite Hr in Hr'.
      injection Hr' as <-. rewrite Ht. symmetry. apply lookup_replicate_2, Hlt.
    + rewrite lookup_ge_None_2 by lia. symmetry. apply lookup_ge_None_2.
      rewrite length_replicate. exact Hge.
  - apply lookup_ge_None. apply lookup_ge_None in Hid. lia.
Qed.

Lemma concat_replicate_one (ids : list Z) : concat (replicate 1 <$> ids) = ids.
Proof.
  induction ids as [|id ids IH]; [reflexivity|].
  cbn [fmap list_fmap concat replicate app]. f_equal. exact IH.
Qed.

Section Run.
Context `{Model}.
Variable cfg : Setup.

(** X17: after a successful run on a test split that is not empty, with at
    least one inference sample and one class, the reshape of lines
    400-409 succeeds, and every column of [df_pred] has
    [num_elem * nb_inference_samples] rows. *)
Theorem flatten_after_run h batches st :
  run_inference cfg h batches = Some st ->
  0 < num_elem cfg * nb_inference_samples cfg ->
  0 < nb_classes cfg ->
  exists df_pred, flatten cfg (d_pred st) = Some df_pred /\
    forall name c, df_pred !! name = Some c ->
      length (as_floats c) = num_elem cfg * nb_inference_samples cfg.
Proof.
  intros Hrun Hrows Hk. apply flatten_shaped; [|exact Hrows|exact Hk].
  eapply run_inference_shape, Hrun.
Qed.

(** After the run the identifier column of the frame lists the
    identifiers of the split, each [nb_inference_samples] times. *)
Lemma run_ids h batches st ids df l :
  run_inference cfg h batches = Some st ->
  batch_ids h batches = Some ids ->
  length ids = num_elem cfg ->
  flatten cfg (d_pred st) = Some df ->
  ids_of df = Some l ->
  l = concat (replicate (nb_inference_samples cfg) <$> ids).
Proof.
  intros Hrun Hids Hlen Hfl Hl.
  pose proof (run_inference_shape cfg h batches st Hrun) as Hshape.
  destruct (flatten_ids cfg _ _ _ Hfl Hl) as (a & Ha & ->).
  destruct (Hshape _ _ Ha) as [Hna Hall].
  unfold run_inference in Hrun.
  destruct (predict_batches _ _ _ _) as [[[] st']|] eqn:Hloop; [|discriminate].
  injection Hrun as ->.
  destruct (predict_batches_ids cfg batches 0 _ st ids Hloop Hids) as [Hrows _].
  f_equal. apply rows_replicated; [congruence | exact Hall|].
  intros n id t Hn Ht. specialize (Hrows n id t Hn Ht).
  unfold int_slot in Hrows. rewrite Ha in Hrows. simpl in Hrows.
  destruct (a !! n) as [r|]; [|discriminate]. exists r. split; [reflexivity | exact Hrows].
Qed.

(** X18: a run with [nb_inference_samples = 1] over batches whose
    identifiers are pairwise distinct and fill the test split gives a
    standard deviation of not-a-number for every identifier, window and
    class. *)
Theorem single_sample_run_std_nan h batches st ids df_pred g col values i d :
  run_inference cfg h batches = Some st ->
  nb_inference_samples cfg = 1 ->
  batch_ids h batches = Some ids ->
  NoDup ids ->
  length ids = num_elem cfg ->
  flatten cfg (d_pred st) = Some df_pred ->
  df_std df_pred = Some g ->
  cols g !! col = Some values ->
  values !! i = Some d ->
  d = DevNaN.
Proof.
  intros Hrun HS Hids Hnd Hlen Hfl Hg Hcol Hi. unfold df_std, groupby_agg in Hg.
  destruct (ids_of df_pred) as [l|] eqn:Hl; [|discriminate].
  assert (l = ids) as ->.
  { rewrite (run_ids h batches st ids df_pred l Hrun Hids Hlen Hfl Hl), HS.
    apply concat_replicate_one. }
  simpl in Hg. injection Hg as <-. simpl in Hcol.
  rewrite lookup_fmap in Hcol.
  destruct (delete "SNID" df_pred !! col) as [c|]; [|discriminate].
  simpl in Hcol. injection Hcol as <-.
  rewrite list_lookup_fmap in Hi.
  destruct (group_index ids !! i) as [k|]; [|discriminate].
  simpl in Hi. injection Hi as <-.
  apply std_at_most_one.
  etrans; [apply take_rows_length | apply rows_of_group_NoDup, Hnd].
Qed.

End Run.

Lemma NoDup_7_8 : NoDup [7; 8]%Z.
Proof.
  apply NoDup_cons. split; [|apply NoDup_singleton].
  intros Hin. apply list_elem_of_singleton in Hin. discriminate.
Qed.

Lemma flatten_after_run_witness :
  exists st df_pred,
    test_run = Some st /\
    flatten test_setup (d_pred st) = Some df_pred /\
    forall name c, df_pred !! name = Some c -> length (as_floats c) = 2 * 2.
Proof.
  assert (Hrun : match test_run with Some st => True | None => False end)
    by (vm_compute; exact I).
  apply (option_match_inv test_run (fun _ => True)) in Hrun.
  destruct Hrun as (st & Hst & _).
  destruct (@flatten_after_run constant_model test_setup test_heap
              [test_data] st Hst)
    as (df & Hdf & Hlen); [simpl; lia | simpl; lia|].
  exists st, df. split; [exact Hst|]. split; [exact Hdf | exact Hlen].
Defined.

Lemma single_sample_run_std_nan_witness :
  exists st df_pred g,
    single_sample_run = Some st /\
    flatten single_sample_setup (d_pred st) = Some df_pred /\
    df_std df_pred = Some g /\
    cols g !! "PEAKMJD+1_class1" = Some [DevNaN; DevNaN].
Proof.
  assert (Hrun :
    match single_sample_run with
    | Some st =>
        match flatten single_sample_setup (d_pred st) with
        | Some df =>
            match df_std df with
            | Some g =>
                match cols g !! "PEAKMJD+1_class1" with
                | Some values => length values = 2
                | None => False
                end
            | None => False
            end
        | None => False
        end
    | None => False
    end) by (vm_compute; reflexivity).
  apply (option_match_inv single_sample_run
    (fun st => match flatten single_sample_setup (d_pred st) with
               | Some df =>
                   match df_std df with
                   | Some g =>
                       match cols g !! "PEAKMJD+1_class1" with
                       | Some values => length values = 2
                       | None => False
                       end
                   | None => False
                   end
               | None => False
               end)) in Hrun.
  destruct Hrun as (st & Hst & Hrun).
  apply (option_match_inv (flatten single_sample_setup (d_pred st))
    (fun df => match df_std df with
               | Some g =>
                   match cols g !! "PEAKMJD+1_class1" with
                   | Some values => length values = 2
                   | None => False
                   end
               | None => False
               end)) in Hrun.
  destruct Hrun as (df & Hdf & Hrun).
  apply (option_match_inv (df_std df)
    (fun g => match cols g !! "PEAKMJD+1_class1" with
              | Some values => length values = 2
              | None => False
              end)) in Hrun.
  destruct Hrun as (g & Hg & Hrun).
  apply (option_match_inv (cols g !! "PEAKMJD+1_class1")
    (fun values => length values = 2)) in Hrun.
  destruct Hrun as (values & Hcol & Hlen).
  exists st, df, g. split; [exact Hst|]. split; [exact Hdf|]. split; [exact Hg|].
  rewrite Hcol. f_equal.
  assert (Hbatch : batch_ids test_heap [test_data] = Some [7; 8]%Z)
    by (vm_compute; reflexivity).
  destruct values as [|d0 [|d1 [|d2 values]]]; try discriminate Hlen.
  rewrite (@single_sample_run_std_nan constant_model single_sample_setup test_heap
             [test_data] st [7; 8]%Z df g "PEAKMJD+1_class1" [d0; d1] 0 d0
             Hst eq_refl Hbatch NoDup_7_8 eq_refl Hdf Hg Hcol eq_refl).
  rewrite (@single_sample_run_std_nan constant_model single_sample_setup test_heap
             [test_data] st [7; 8]%Z df g "PEAKMJD+1_class1" [d0; d1] 1 d1
             Hst eq_refl Hbatch NoDup_7_8 eq_refl Hdf Hg Hcol eq_refl).
  reflexivity.
Defined.

End FrameFacts.

(** ** The groups of [groupby("SNID")] *)

Module GroupFacts.
Import Truncation Store Inference StoreFacts InferenceFacts.
Import WindowFacts RunFacts ShapeFacts FrameFacts Examples.
Import Aggregation AggregationFacts.

Lemma filter_concat_replicate (g : Z) S ids :
  length (List.filter (fun id => Z.eqb id g) (concat (replicate S <$> ids)))
  = S * length (List.filter (fun id => Z.eqb id g) ids).
Proof.
  induction ids as [|id ids IH]; [simpl; lia|].
  cbn [fmap list_fmap concat]. rewrite List.filter_app, length_app, IH.
  cbn [List.filter]. destruct (Z.eqb id g) eqn:E.
  - assert (Hall : List.filter (fun id => Z.eqb id g) (replicate S id) = replicate S id).
    { clear -E. induction S as [|S IH]; [reflexivity|]. cbn [replicate List.filter].
      rewrite E, IH. reflexivity. }
    rewrite Hall, length_replicate. cbn [length]. lia.
  - assert (Hnone : List.filter (fun id => Z.eqb id g) (replicate S id) = []).
    { clear -E. induction S as [|S IH]; [reflexivity|]. cbn [replicate List.filter].
      rewrite E, IH. reflexivity. }
    rewrite Hnone. simpl. lia.
Qed.

Lemma filter_NoDup_one (g : Z) ids :
  NoDup ids -> g ∈ ids -> length (List.filter (fun id => Z.eqb id g) ids) = 1.
Proof.
  intros Hnd. induction Hnd as [|x l Hx Hnd IH]; intros Hin; [inversion Hin|].
  cbn [List.filter]. destruct (Z.eqb_spec x g) as [->|Hne].
  - cbn [length]. f_equal.
    assert (Hnone : List.filter (fun id => Z.eqb id g) l = []); [|rewrite Hnone; reflexivity].
    clear -Hx. induction l as [|y l IHl]; [reflexivity|]. cbn [List.filter].
    destruct (Z.eqb_spec y g) as [->|_].
    + exfalso. apply Hx. left.
    + apply IHl. intros Hin. apply Hx. right; exact Hin.
  - apply IH. apply elem_of_cons in Hin as [->|Hin]; [congruence | exact Hin].
Qed.

Section Run.
Context `{Model}.
Variable cfg : Setup.

(** X19: after a run over batches whose identifiers are pairwise distinct
    and fill the test split, the identifier column of [df_pred] lists
    every identifier [nb_inference_samples] times in a row, so each group
    of [groupby("SNID")] has exactly [nb_inference_samples] rows. *)
Theorem every_identifier_has_all_samples h batches st ids df_pred l id :
  run_inference cfg h batches = Some st ->
  batch_ids h batches = Some ids ->
  NoDup ids ->
  length ids = num_elem cfg ->
  flatten cfg (d_pred st) = Some df_pred ->
  ids_of df_pred = Some l ->
  id ∈ ids ->
  l = concat (replicate (nb_inference_samples cfg) <$> ids) /\
  length (rows_of_group l id) = nb_inference_samples cfg.
Proof.
  intros Hrun Hids Hnd Hlen Hfl Hl Hid.
  pose proof (run_ids cfg h batches st ids df_pred l Hrun Hids Hlen Hfl Hl) as ->.
  split; [reflexivity|]. unfold rows_of_group.
  rewrite (rows_of_group_shift (fun i => i)), filter_concat_replicate,
    (filter_NoDup_one id ids Hnd Hid). lia.
Qed.

End Run.

Lemma every_identifier_has_all_samples_witness :
  exists st df_pred l,
    test_run = Some st /\
    flatten test_setup (d_pred st) = Some df_pred /\
    ids_of df_pred = Some l /\
    length (rows_of_group l 7) = 2.
Proof.
  assert (Hrun :
    match test_run with
    | Some st =>
        match flatten test_setup (d_pred st) with
        | Some df => match ids_of df with Some l => True | None => False end
        | None => False
        end
    | None => False
    end) by (vm_compute; exact I).
  apply (option_match_inv test_run
    (fun st => match flatten test_setup (d_pred st) with
               | Some df => match ids_of df with Some l => True | None => False end
               | None => False
               end)) in Hrun.
  destruct Hrun as (st & Hst & Hrun).
  apply (option_match_inv (flatten test_setup (d_pred st))
    (fun df => match ids_of df with Some l => True | None => False end)) in Hrun.
  destruct Hrun as (df & Hdf & Hrun).
  apply (option_match_inv (ids_of df) (fun _ => True)) in Hrun.
  destruct Hrun as (l & Hl & _).
  exists st, df, l. split; [exact Hst|]. split; [exact Hdf|]. split; [exact Hl|].
  refine (proj2 (@every_identifier_has_all_samples constant_model test_setup test_heap
                   [test_data] st [7; 8]%Z df l 7%Z Hst _ NoDup_7_8 _ Hdf Hl _)).
  - vm_compute. reflexivity.
  - reflexivity.
  - apply list_elem_of_here.
Defined.

End GroupFacts.

(** ** Bounds of the accuracies *)

Module AccuracyFacts.
Import Inference Aggregation AggregationFacts Examples.

Lemma length_filter_le {A} (P : A -> bool) (l : list A) :
  length (List.filter P l) <= length l.
Proof.
  induction l as [|x l IH]; [reflexivity|]. cbn [List.filter].
  destruct (P x); simpl; lia.
Qed.

Lemma length_filter_mono {A} (P Q : A -> bool) (l : list A) :
  (forall x, P x = true -> Q x = true) ->
  length (List.filter P l) <= length (List.filter Q l).
Proof.
  intros HPQ. induction l as [|x l IH]; [reflexivity|]. cbn [List.filter].
  destruct (P x) eqn:HP.
  - rewrite (HPQ x HP). simpl. lia.
  - destruct (Q x); simpl; lia.
Qed.

Lemma ratio_le a b n :
  0 < n -> a <= b ->
  exists q, ratio a n = Fin q /\ (0 <= q)%Q /\
    (q <= inject_Z (Z.of_nat b) / inject_Z (Z.of_nat n))%Q.
Proof.
  intros Hn Hab. unfold ratio. destruct (Nat.eqb_spec n 0) as [|_]; [lia|].
  eexists. split; [reflexivity|].
  assert (Hpos : (0 < inject_Z (Z.of_nat n))%Q).
  { change 0%Q with (inject_Z 0). rewrite <- Zlt_Qlt. lia. }
  split.
  - apply Qle_shift_div_l; [exact Hpos|]. rewrite Qmult_0_l.
    change 0%Q with (inject_Z 0). rewrite <- Zle_Qle. lia.
  - apply Qle_shift_div_l; [exact Hpos|].
    unfold Qdiv. rewrite <- Qmult_assoc, (Qmult_comm (/ _)), Qmult_inv_r, Qmult_1_r.
    + rewrite <- Zle_Qle. lia.
    + intros Heq. rewrite Heq in Hpos. discriminate.
Qed.

Lemma count_equal_le preds target : count_equal preds target <= length preds.
Proof.
  unfold count_equal. etrans; [apply length_filter_le|].
  rewrite length_zip_with. lia.
Qed.

(** X20: on a frame with at least one identifier every accuracy that
    is printed lies between 0 and 1, and the accuracy of a window is at
    most the fraction of the identifiers whose row survives [dropna]. *)
Theorem accuracies_bounded K (g_pred : Grouped float) :
  0 < length (index g_pred) ->
  (forall acc, full_accuracy K g_pred = Some acc ->
     exists q, acc = Fin q /\ (0 <= q <= 1)%Q) /\
  (forall col acc, window_accuracy K g_pred col = Some acc ->
     exists rows q,
       select_rows g_pred (class_cols col K ++ ["target"]) = Some rows /\
       acc = Fin q /\ (0 <= q)%Q /\
       (q <= inject_Z (Z.of_nat (length (dropna rows)))
             / inject_Z (Z.of_nat (length (index g_pred))))%Q /\
       (q <= 1)%Q).
Proof.
  intros Hn.
  assert (Hone : forall b, b <= length (index g_pred) ->
    (inject_Z (Z.of_nat b) / inject_Z (Z.of_nat (length (index g_pred))) <= 1)%Q).
  { intros b Hb. apply Qle_shift_div_r.
    - change 0%Q with (inject_Z 0). rewrite <- Zlt_Qlt. lia.
    - rewrite Qmult_1_l, <- Zle_Qle. lia. }
  split.
  - intros acc. unfold full_accuracy.
    destruct (select_rows g_pred (class_cols "all" K)) as [rows|] eqn:Hrows; [|discriminate].
    simpl. destruct (cols g_pred !! "target") as [target|]; [|discriminate].
    simpl. intros [= <-].
    destruct (ratio_le (count_equal (argmax <$> rows) target) (length (index g_pred))
                (length (index g_pred)) Hn) as (q & Hq & H0 & H1).
    { etrans; [apply count_equal_le|]. rewrite length_fmap.
      rewrite (select_rows_length _ _ _ Hrows). reflexivity. }
    exists q. split; [exact Hq|]. split; [exact H0|].
    eapply Qle_trans; [exact H1 | apply Hone; reflexivity].
  - intros col acc Hacc.
    destruct (window_accuracy_over_all K g_pred col) as (Heq & _ & _).
    rewrite Heq in Hacc.
    destruct (select_rows g_pred (class_cols col K ++ ["target"])) as [rows|] eqn:Hrows;
      [|discriminate].
    simpl in Hacc. injection Hacc as <-.
    pose proof (select_rows_length _ _ _ Hrows) as Hlen.
    assert (Hsub : length (List.filter (is_match K) rows) <= length (dropna rows)).
    { unfold dropna. apply length_filter_mono. intros row Hm. unfold is_match in Hm.
      apply andb_true_iff in Hm as [Hm _]. exact Hm. }
    destruct (ratio_le (length (List.filter (is_match K) rows)) (length (dropna rows))
                (length rows)) as (q & Hq & H0 & H1); [lia | exact Hsub|].
    exists rows, q. split; [reflexivity|]. split; [exact Hq|]. split; [exact H0|].
    rewrite <- Hlen. split; [exact H1|].
    eapply Qle_trans; [exact H1|]. rewrite Hlen. apply Hone.
    rewrite <- Hlen. unfold dropna. apply length_filter_le.
Qed.

Lemma accuracies_bounded_witness :
  exists g_pred acc,
    test_g_pred = Some g_pred /\
    0 < length (index g_pred) /\
    full_accuracy 2 g_pred = Some acc /\
    exists q, acc = Fin q /\ (0 <= q <= 1)%Q.
Proof.
  assert (Hrun :
    match test_g_pred with
    | Some g =>
        length (index g) = 2 /\
        match full_accuracy 2 g with Some acc => True | None => False end
    | None => False
    end) by (vm_compute; split; [reflexivity | exact I]).
  apply (option_match_inv test_g_pred
    (fun g => length (index g) = 2 /\
              match full_accuracy 2 g with Some acc => True | None => False end)) in Hrun.
  destruct Hrun as (g & Hg & Hlen & Hrun).
  apply (option_match_inv (full_accuracy 2 g) (fun _ => True)) in Hrun.
  destruct Hrun as (acc & Hacc & _).
  assert (Hpos : 0 < length (index g)) by (rewrite Hlen; lia).
  exists g, acc. split; [exact Hg|]. split; [exact Hpos|]. split; [exact Hacc|].
  exact (proj1 (accuracies_bounded 2 g Hpos) acc Hacc).
Defined.

End AccuracyFacts.

(** ** The keys that the forward pass reads *)

Module KeysFacts.
Import Truncation Store Inference StoreFacts InferenceFacts WindowFacts Examples.

Lemma read_key_Some d key h t h' :
  read_key d key h = Some (t, h') ->
  exists e r, h !! d = Some (ODict e) /\ e !! key = Some (VTensor r).
Proof.
  unfold read_key. intros Hrun. apply bind_Some in Hrun as (r & h1 & Hget & _).
  apply tensor_get_Some in Hget as (_ & e & He & Hk). eauto.
Qed.

Lemma list_get_Some d key h l h' :
  list_get d key h = Some (l, h') ->
  exists e, h !! d = Some (ODict e) /\ e !! key = Some (VList l).
Proof.
  unfold list_get. intros Hrun. apply bind_Some in Hrun as (v & h1 & Hget & Hv).
  apply dict_get_Some in Hget as (-> & e & He & Hk).
  destruct v as [r|l']; [discriminate|]. apply ret_Some in Hv as [-> _]. eauto.
Qed.

Lemma read_inputs_Some data h x h' :
  read_inputs data h = Some (x, h') ->
  exists e, h !! data = Some (ODict e) /\
    (forall key, key ∈ ["X_flux"; "X_fluxerr"; "X_flt"; "X_time"; "X_mask"] ->
       exists r, e !! key = Some (VTensor r)) /\
    (e !! "X_meta" = None -> in_meta x = None).
Proof.
  unfold read_inputs. intros Hrun.
  apply bind_Some in Hrun as (t1 & h1 & H1 & Hrun).
  destruct (reads_read_key data _ _ _ _ H1) as [-> _].
  apply bind_Some in Hrun as (t2 & h2 & H2 & Hrun).
  destruct (reads_read_key data _ _ _ _ H2) as [-> _].
  apply bind_Some in Hrun as (t3 & h3 & H3 & Hrun).
  destruct (reads_read_key data _ _ _ _ H3) as [-> _].
  apply bind_Some in Hrun as (t4 & h4 & H4 & Hrun).
  destruct (reads_read_key data _ _ _ _ H4) as [-> _].
  apply bind_Some in Hrun as (t5 & h5 & H5 & Hrun).
  destruct (reads_read_key data _ _ _ _ H5) as [-> _].
  apply bind_Some in Hrun as (meta & h6 & Hm & Hret).
  apply ret_Some in Hret as [-> ->].
  apply read_key_Some in H1 as (e & r1 & He & Hk1).
  apply read_key_Some in H2 as (e2 & r2 & He2 & Hk2).
  apply read_key_Some in H3 as (e3 & r3 & He3 & Hk3).
  apply read_key_Some in H4 as (e4 & r4 & He4 & Hk4).
  apply read_key_Some in H5 as (e5 & r5 & He5 & Hk5).
  rewrite He in He2, He3, He4, He5.
  injection He2 as <-. injection He3 as <-. injection He4 as <-. injection He5 as <-.
  exists e. split; [exact He|]. split.
  - intros key Hkey. repeat (apply elem_of_cons in Hkey as [-> | Hkey]; [eauto|]).
    inversion Hkey.
  - intros Hnone. cbn [in_meta]. unfold read_optional in Hm.
    rewrite He, Hnone in Hm. injection Hm as <- _. reflexivity.
Qed.

Section Keys.
Context `{Model}.

(** X21: [forward_pass] raises (a [KeyError]) on a batch that lacks one of
    ["X_flux"], ["X_fluxerr"], ["X_flt"], ["X_time"], ["X_mask"] and
    ["X_target"]; ["X_meta"] may be absent, and the network is then
    called with [x_meta = None]. *)
Theorem forward_pass_keys data st e :
  objs st !! data = Some (ODict e) ->
  (forall key, key ∈ required_keys -> e !! key = None -> forward_pass data st = None) /\
  (e !! "X_meta" = None ->
   forall preds target st', forward_pass data st = Some ((preds, target), st') ->
     exists x, read_inputs data (objs st) = Some (x, objs st) /\
       in_meta x = None /\ preds = predict x (draws st)).
Proof.
  intros He. split.
  - intros key Hkey Hnone.
    destruct (forward_pass data st) as [[[preds target] st']|] eqn:Hrun; [|reflexivity].
    exfalso. apply forward_pass_Some in Hrun as (x & Hx & Ht & _).
    apply read_inputs_Some in Hx as (e' & He' & Hkeys & _).
    rewrite He in He'. injection He' as <-.
    apply list_get_Some in Ht as (e' & He' & Hk). rewrite He in He'. injection He' as <-.
    destruct (decide (key = "X_target")) as [->|Hne]; [congruence|].
    destruct (Hkeys key) as (r & Hr); [|congruence].
    unfold required_keys in Hkey.
    repeat (apply elem_of_cons in Hkey as [-> | Hkey];
            [first [congruence | repeat constructor]|]).
    inversion Hkey.
  - intros Hmeta preds target st' Hrun.
    apply forward_pass_Some in Hrun as (x & Hx & _ & Hp & _).
    exists x. split; [exact Hx|]. split; [|exact Hp].
    apply read_inputs_Some in Hx as (e' & He' & _ & Hm).
    rewrite He in He'. injection He' as <-. apply Hm, Hmeta.
Qed.

End Keys.

Lemma forward_pass_keys_witness :
  exists e,
    objs test_start !! test_data = Some (ODict e) /\
    e !! "X_meta" = None /\
    (forall preds target st',
       @forward_pass constant_model test_data test_start = Some ((preds, target), st') ->
       exists x, read_inputs test_data (objs test_start) = Some (x, objs test_start) /\
         in_meta x = None /\ preds = @predict constant_model x (draws test_start)).
Proof.
  assert (Hrun :
    match objs test_start !! test_data with
    | Some o => match o with ODict e => e !! "X_meta" = None | OStorage _ => False end
    | None => False
    end) by (vm_compute; reflexivity).
  apply (option_match_inv (objs test_start !! test_data)
    (fun o => match o with ODict e => e !! "X_meta" = None | OStorage _ => False end)) in Hrun.
  destruct Hrun as (o & Ho & Hrun). destruct o as [rows|e]; [contradiction|].
  exists e. split; [exact Ho|]. split; [exact Hrun|].
  exact (proj2 (@forward_pass_keys constant_model test_data test_start e Ho) Hrun).
Defined.

End KeysFacts.

(** ** Edge cases of the report *)

Module ReportFacts.
Import Truncation Store Inference StoreFacts InferenceFacts.
Import WindowFacts RunFacts ShapeFacts FrameFacts Examples.
Import Aggregation AggregationFacts.

Lemma init_no_class_column cfg : init_d_pred cfg !! "all_class0" = None.
Proof.
  unfold init_d_pred. rewrite !lookup_insert_ne by discriminate.
  apply not_elem_of_list_to_map_1. rewrite <- list_fmap_compose.
  intros Hin. apply list_elem_of_fmap in Hin as (key & Hkey & Hin). simpl in Hkey.
  unfold pred_keys in Hin. apply elem_of_cons in Hin as [-> | Hin]; [discriminate|].
  apply list_elem_of_fmap in Hin as (s & -> & _). discriminate.
Qed.

Section Run.
Context `{Model}.
Variable cfg : Setup.

(** X22: with [nb_classes = 1] the report after the loop fails: the
    reshape names the single column of an array by its key (["all"]),
    and line 423 asks for ["all_class0"]. *)
Theorem single_class_report_fails h batches st windows :
  run_inference cfg h batches = Some st ->
  nb_classes cfg = 1 ->
  report cfg st windows = None.
Proof.
  intros Hrun HK. unfold report.
  destruct (flatten cfg (d_pred st)) as [df|] eqn:Hfl; [|reflexivity].
  cbn [mbind option_bind].
  destruct (df_median df) as [g|] eqn:Hg; [|reflexivity].
  cbn [mbind option_bind].
  assert (Hnone : df !! "all_class0" = None).
  { destruct (df !! "all_class0") as [c|] eqn:Hc; [|reflexivity]. exfalso.
    destruct (flatten_elem cfg _ _ _ _ Hfl Hc) as (key & value & cols & Hkv & Hcols & Hin).
    assert (key = "all_class0") as ->.
    { unfold flatten_entry in Hcols. rewrite HK in Hcols.
      destruct (_ * _ =? 0); [discriminate|]. destruct value as [a|a].
      - cbn [Nat.eqb] in Hcols. destruct (column_i (concat a) 0); [|discriminate].
        cbn in Hcols. injection Hcols as <-.
        apply list_elem_of_singleton in Hin. congruence.
      - injection Hcols as <-. apply list_elem_of_singleton in Hin. congruence. }
    rewrite (run_inference_keys cfg h batches st _ (init_no_class_column cfg) Hrun) in Hkv.
    discriminate. }
  assert (Hcol : cols g !! "all_class0" = None).
  { unfold df_median, groupby_agg in Hg. destruct (ids_of df); [|discriminate].
    simpl in Hg. injection Hg as <-. cbn [cols].
    rewrite lookup_fmap, lookup_delete_ne by discriminate. rewrite Hnone. reflexivity. }
  unfold full_accuracy, select_rows. rewrite HK.
  change (class_cols "all" 1) with ["all_class0"]. cbn [mapM]. rewrite Hcol. reflexivity.
Qed.

(** X23: with an empty test split, or with no inference sample, the
    reshape of line 402 fails (an array of size 0 cannot be reshaped to
    [(0, -1)]), and with it the report after the loop. *)
Theorem empty_split_report_fails h batches st windows :
  run_inference cfg h batches = Some st ->
  num_elem cfg * nb_inference_samples cfg = 0 ->
  flatten cfg (d_pred st) = None /\ report cfg st windows = None.
Proof.
  intros Hrun Hzero.
  assert (Hid : is_Some (d_pred st !! "SNID")).
  { refine (run_inference_keeps cfg (fun d => is_Some (d !! "SNID")) _ _ h batches st _ Hrun).
    - intros col row it new _ s [] s' Hs Hstep.
      apply set_slot_Some in Hstep as (_ & _ & _ & a & samples & old & v & _ & _ & _ & _ & ->).
      apply lookup_insert_is_Some'. right; exact Hs.
    - intros col row it z s [] s' Hs Hstep. unfold set_int in Hstep.
      destruct (d_pred s !! col) as [[a|a]|]; try discriminate.
      destruct (a !! row) as [samples|]; [|discriminate]. simpl in Hstep.
      destruct (samples !! it); [|discriminate]. simpl in Hstep.
      injection Hstep as <-. cbn [d_pred]. apply lookup_insert_is_Some'. right; exact Hs.
    - unfold init_d_pred. rewrite lookup_insert_eq. eauto. }
  assert (Hfl : flatten cfg (d_pred st) = None).
  { unfold flatten.
    destruct (mapM _ (map_to_list (d_pred st))) as [entries|] eqn:Hentries; [|reflexivity].
    exfalso. destruct Hid as [arr Harr]. apply elem_of_map_to_list in Harr.
    apply mapM_Some in Hentries. apply list_elem_of_lookup in Harr as (n & Hn).
    destruct (Forall2_lookup_l _ _ _ _ _ Hentries Hn) as (cols & _ & Hcols).
    unfold flatten_entry in Hcols. rewrite Hzero in Hcols. discriminate. }
  split; [exact Hfl|]. unfold report. rewrite Hfl. reflexivity.
Qed.

End Run.

Lemma single_class_report_fails_witness :
  exists st, one_class_run = Some st /\ report one_class_setup st ["PEAKMJD"] = None.
Proof.
  assert (Hrun : match one_class_run with Some st => True | None => False end)
    by (vm_compute; exact I).
  apply (option_match_inv one_class_run (fun _ => True)) in Hrun.
  destruct Hrun as (st & Hst & _).
  exists st. split; [exact Hst|].
  exact (@single_class_report_fails one_class_model one_class_setup test_heap [test_data]
           st ["PEAKMJD"] Hst eq_refl).
Defined.

Lemma empty_split_report_fails_witness :
  exists st,
    @run_inference constant_model empty_setup test_heap [] = Some st /\
    report empty_setup st ["PEAKMJD"] = None.
Proof.
  eexists. split; [reflexivity|].
  refine (proj2 (@empty_split_report_fails constant_model empty_setup test_heap [] _
                   ["PEAKMJD"] eq_refl _)).
  reflexivity.
Defined.

End ReportFacts.

(** ** Truncation succeeds on well-formed batches *)

Module TotalFacts.
Import Store StoreFacts Examples.











End TotalFacts.
